(** * Pipeline replication engine of cc-utils: enumerator and replicator

    A shallow embedding of [src/concourse/enumerator.py] and
    [src/concourse/replicator.py], and the properties of the replication
    engine proved over it.

    Python objects are embedded as follows.
    - Parsed YAML documents are values of [yaml]; a Python [dict] is an
      association list in insertion order with pairwise distinct keys.
    - A raised error is a value of [exn]; code that may raise returns a
      [result].  [except Exception] handles [PyException] only,
      [except BaseException] handles every [exn].
    - A generator is the list of the values it yields together with the way
      it ends ([gen]).
    - Code that talks to the CI server threads the server's state and
      records the calls that completed ([M]).
    - Collaborators that are not part of the two source files are fields of
      the classes [Builtins] (regular expressions, the YAML parser), [Util],
      [FileSystem], [Templating] (pipeline-definition factory and template
      engine), [ConcourseClient] and [Notification]. *)

From Stdlib Require Import ZArith String List Bool Lia.
From Stdlib Require Import Sorting.Sorted Sorting.Permutation.
From stdpp Require Import base strings list gmap.

Set Warnings "-register-all".
Open Scope string_scope.
Open Scope list_scope.
Open Scope Z_scope.

(** ** Python values and errors *)

Module Py.

(** Raised errors.  [PyException cls msg] is an instance of [Exception] of
    class [cls]; [PyBaseException cls msg] is an instance of [BaseException]
    that is no [Exception] (SystemExit, KeyboardInterrupt). *)
Inductive exn : Type :=
| PyException (cls msg : string)
| PyBaseException (cls msg : string).

Definition is_Exception (e : exn) : bool :=
  match e with
  | PyException _ _ => true
  | PyBaseException _ _ => false
  end.

(** [except cls:] for a class [cls] below [Exception]. *)
Definition is_instance (cls : string) (e : exn) : bool :=
  match e with
  | PyException c _ => String.eqb c cls
  | PyBaseException _ _ => false
  end.

Inductive result (A : Type) : Type :=
| Ok (a : A)
| Raise (e : exn).
Arguments Ok {A} a.
Arguments Raise {A} e.

Definition bind {A B : Type} (m : result A) (k : A -> result B) : result B :=
  match m with
  | Ok a => k a
  | Raise e => Raise e
  end.

(** Parsed YAML / Python values. *)
Inductive yaml : Type :=
| YNone
| YBool (b : bool)
| YInt (z : Z)
| YStr (s : string)
| YList (l : list yaml)
| YDict (items : list (string * yaml)).

Abbreviation dict := (list (string * yaml)).

Definition AttributeError (what : string) : exn := PyException "AttributeError" what.
Definition TypeError (what : string) : exn := PyException "TypeError" what.

(** [bool(v)] *)
Definition truthy (v : yaml) : bool :=
  match v with
  | YNone => false
  | YBool b => b
  | YInt z => negb (z =? 0)
  | YStr s => negb (String.eqb s "")
  | YList l => match l with [] => false | _ => true end
  | YDict d => match d with [] => false | _ => true end
  end.

Fixpoint dict_get (d : dict) (k : string) : option yaml :=
  match d with
  | [] => None
  | (k', v) :: d' => if String.eqb k' k then Some v else dict_get d' k
  end.

(** [v.get(k, default)]: only a dict has the method. *)
Definition get (v : yaml) (k : string) (default : yaml) : result yaml :=
  match v with
  | YDict d => Ok (match dict_get d k with Some x => x | None => default end)
  | _ => Raise (AttributeError "get")
  end.

(** [v.items()] *)
Definition items (v : yaml) : result dict :=
  match v with
  | YDict d => Ok d
  | _ => Raise (AttributeError "items")
  end.

Fixpoint chars (s : string) : list yaml :=
  match s with
  | EmptyString => []
  | String c s' => YStr (String c EmptyString) :: chars s'
  end.

(** [for x in v]: the sequence a for loop walks. *)
Definition iter (v : yaml) : result (list yaml) :=
  match v with
  | YList l => Ok l
  | YDict d => Ok (map (fun kv => YStr (fst kv)) d)
  | YStr s => Ok (chars s)
  | _ => Raise (TypeError "object is not iterable")
  end.

(** [sep.join(l)] *)
Fixpoint join (sep : string) (l : list string) : string :=
  match l with
  | [] => ""
  | [x] => x
  | x :: rest => x +:+ sep +:+ join sep rest
  end.

End Py.
Export Py.

Declare Scope result_scope.
Delimit Scope result_scope with result.
Notation "x <- e ;; k" := (Py.bind e (fun x => k))
  (at level 100, e at next level, right associativity) : result_scope.
Notation "e1 ;;; e2" := (Py.bind e1 (fun _ => e2))
  (at level 100, right associativity) : result_scope.
Open Scope result_scope.

(** Monadic list traversals in the order a Python loop or comprehension
    evaluates them. *)
Section Traversals.
Context {A B : Type}.

Fixpoint mapM (f : A -> result B) (l : list A) : result (list B) :=
  match l with
  | [] => Ok []
  | x :: l' => y <- f x ;; ys <- mapM f l' ;; Ok (y :: ys)
  end.

Fixpoint filterM (p : A -> result bool) (l : list A) : result (list A) :=
  match l with
  | [] => Ok []
  | x :: l' => b <- p x ;; xs <- filterM p l' ;; Ok (if b then x :: xs else xs)
  end.

Fixpoint foldM (f : B -> A -> result B) (acc : B) (l : list A) : result B :=
  match l with
  | [] => Ok acc
  | x :: l' => acc' <- f acc x ;; foldM f acc' l'
  end.
End Traversals.

(** A generator: the values yielded, then how it ended ([None]: it returned,
    [Some e]: it raised [e]). *)
Definition gen (A : Type) : Type := (list A * option exn)%type.

Definition gen_return {A} : gen A := ([], None).
Definition gen_raise {A} (e : exn) : gen A := ([], Some e).
Definition gen_yield {A} (x : A) : gen A := ([x], None).

(** [g1] runs to its end, then [g2] runs unless [g1] raised. *)
Definition gen_then {A} (g1 g2 : gen A) : gen A :=
  match snd g1 with
  | Some e => g1
  | None => (fst g1 ++ fst g2, snd g2)
  end.

(** ** Collaborators outside the two source files *)

(** Built-ins and third-party functions: [re.fullmatch], [yaml.load] applied
    to the decoded text, [int] on a [str], [urlparse(url).hostname],
    [traceback.format_exc()] while the given error is being handled. *)
Class Builtins : Type := {
  re_fullmatch : string -> string -> result bool;
  yaml_load : string -> result yaml;
  int_of_str : string -> result Z;
  urlparse_hostname : string -> string;
  format_exc : exn -> string;
}.

(** Modelled from the spec: module [util] is not among the sources.
    [merge_dicts] is the deep-merge of section 3 (later layers win; mappings
    merge recursively); its behaviour on other arguments is left to the
    instance.  [util_error what] is the error raised by [util.fail] and by
    the checks [not_none], [not_empty] ([what] names the check or carries the
    message); whether it is an [Exception] is left to the instance. *)
Class Util : Type := {
  merge_dicts : yaml -> yaml -> result yaml;
  util_error : string -> exn;
}.

Section UtilChecks.
Context `{Util}.

Definition not_none (v : yaml) : result yaml :=
  match v with
  | YNone => Raise (util_error "not_none")
  | _ => Ok v
  end.

Definition not_empty (s : string) : result string :=
  if String.eqb s "" then Raise (util_error "not_empty") else Ok s.
End UtilChecks.

(** [int(v)] *)
Definition int `{Builtins} (v : yaml) : result Z :=
  match v with
  | YInt z => Ok z
  | YBool b => Ok (if b then 1 else 0)
  | YStr s => int_of_str s
  | _ => Raise (TypeError "int() argument")
  end.

(** [sorted(l, key=lambda i: i[0])]: Python's sort is stable. *)
Section Sorted.
Context {A : Type}.

Fixpoint insert_by_key (x : Z * A) (l : list (Z * A)) : list (Z * A) :=
  match l with
  | [] => [x]
  | y :: l' => if fst x <=? fst y then x :: y :: l' else y :: insert_by_key x l'
  end.

Fixpoint sorted (l : list (Z * A)) : list (Z * A) :=
  match l with
  | [] => []
  | x :: l' => insert_by_key x (sorted l')
  end.

(** [enumerate(l)], counting from [i]. *)
Fixpoint enumerate_from (i : Z) (l : list A) : list (Z * A) :=
  match l with
  | [] => []
  | x :: l' => (i, x) :: enumerate_from (i + 1) l'
  end.

Definition enumerate (l : list A) : list (Z * A) := enumerate_from 0 l.
End Sorted.

(** ** enumerator.py *)

(** The configuration objects the enumerators and the replicator read:
    a named CI-server configuration, the configuration set and the job
    mapping (classes of the [model] package). *)
Record ConcourseConfig : Type := { cfg_name : string }.
Record ConfigSet : Type := { concourse : ConcourseConfig }.
Record JobMapping : Type := { team_name : string }.
Record GithubConfig : Type := { http_url : string }.

(** [main_repo]: the dict [{'path': .., 'branch': .., 'hostname': ..}] every
    enumerator builds, its three values strings. *)
Record MainRepo : Type := { path : string; branch : string; hostname : string }.

Definition main_repo_dict (m : MainRepo) : yaml :=
  YDict [("path", YStr (path m)); ("branch", YStr (branch m));
         ("hostname", YStr (hostname m))].

(** The value of [override_definitions]: the Python list an enumerator
    builds for a definition, or the tuple ([()]) an error descriptor carries.
    Both are iterated alike; a list alone has [append]. *)
Inductive Overrides : Type :=
| OList (items : list yaml)
| OTuple (items : list yaml).

(** [for override in override_definitions] *)
Definition layers (o : Overrides) : list yaml :=
  match o with
  | OList l => l
  | OTuple l => l
  end.

Module DefinitionDescriptor.

(** [pipeline] is the attribute the renderer sets ([None]: not set). *)
Record t : Type := {
  pipeline_name : string;
  pipeline_definition : yaml;
  main_repo : MainRepo;
  concourse_target_cfg : ConcourseConfig;
  concourse_target_team : string;
  override_definitions : Overrides;
  exception : option exn;
  pipeline : option string;
}.

(** [DefinitionDescriptor.__init__] *)
Definition init `{Util} (pipeline_name : string) (pipeline_definition : yaml)
    (main_repo : MainRepo) (concourse_target_cfg : ConcourseConfig)
    (concourse_target_team : string) (override_definitions : Overrides)
    (exception : option exn) : result t :=
  n <- not_empty pipeline_name ;;
  d <- not_none pipeline_definition ;;
  Ok {| pipeline_name := n;
        pipeline_definition := d;
        main_repo := main_repo;
        concourse_target_cfg := concourse_target_cfg;
        concourse_target_team := concourse_target_team;
        override_definitions := override_definitions;
        exception := exception;
        pipeline := None |}.

Definition template_name (self : t) : result yaml :=
  get (pipeline_definition self) "template" (YStr "default").

Definition concourse_target (self : t) : ConcourseConfig * string :=
  (concourse_target_cfg self, concourse_target_team self).

Definition concourse_target_key (self : t) : string :=
  cfg_name (concourse_target_cfg self) +:+ ":" +:+ concourse_target_team self.

Definition set_pipeline_name (self : t) (n : string) : t :=
  {| pipeline_name := n;
     pipeline_definition := pipeline_definition self;
     main_repo := main_repo self;
     concourse_target_cfg := concourse_target_cfg self;
     concourse_target_team := concourse_target_team self;
     override_definitions := override_definitions self;
     exception := exception self;
     pipeline := pipeline self |}.

Definition set_override_definitions (self : t) (l : Overrides) : t :=
  {| pipeline_name := pipeline_name self;
     pipeline_definition := pipeline_definition self;
     main_repo := main_repo self;
     concourse_target_cfg := concourse_target_cfg self;
     concourse_target_team := concourse_target_team self;
     override_definitions := l;
     exception := exception self;
     pipeline := pipeline self |}.

Definition set_pipeline (self : t) (text : string) : t :=
  {| pipeline_name := pipeline_name self;
     pipeline_definition := pipeline_definition self;
     main_repo := main_repo self;
     concourse_target_cfg := concourse_target_cfg self;
     concourse_target_team := concourse_target_team self;
     override_definitions := override_definitions self;
     exception := exception self;
     pipeline := Some text |}.

End DefinitionDescriptor.

Module DefinitionDescriptorPreprocessor.
Import DefinitionDescriptor.

(** The descriptor object is updated in place and handed back; the value
    returned here is the object's state afterwards. *)
Definition _add_branch_to_pipeline_name (descriptor : t) : t :=
  set_pipeline_name descriptor
    (pipeline_name descriptor +:+ "-" +:+ branch (main_repo descriptor)).

(** [override_definitions.append(..)]: a tuple has no [append]. *)
Definition _inject_main_repo (descriptor : t) : result t :=
  match override_definitions descriptor with
  | OList l =>
      Ok (set_override_definitions descriptor
            (OList (l ++
                    [YDict [("base_definition",
                             YDict [("repo", main_repo_dict (main_repo descriptor))])]])))
  | OTuple _ => Raise (AttributeError "append")
  end.

(** The rename comes first: when the append raises, the object has been
    renamed already. *)
Definition process_definition_descriptor (descriptor : t) : result t :=
  _inject_main_repo (_add_branch_to_pipeline_name descriptor).

End DefinitionDescriptorPreprocessor.

Module BranchCfgEntry.

Record t : Type := { name : string; raw : yaml }.

Definition index (self : t) : result yaml := get (raw self) "index" YNone.

Definition branches (self : t) : result yaml := get (raw self) "branches" YNone.

(** The loop of [branch_matches] over the regular expressions, left to
    right, leaving at the first full match. *)
Fixpoint any_fullmatch `{Builtins} (patterns : list yaml) (branch_name : string)
    : result bool :=
  match patterns with
  | [] => Ok false
  | b :: rest =>
      m <- match b with
           | YStr pattern => re_fullmatch pattern branch_name
           | _ => Raise (TypeError "first argument must be string")
           end ;;
      if (m : bool) then Ok true else any_fullmatch rest branch_name
  end.

Definition branch_matches `{Builtins} (self : t) (branch_name : string) : result bool :=
  bs <- branches self ;;
  patterns <- iter bs ;;
  any_fullmatch patterns branch_name.

Definition override_definitions (self : t) : result yaml :=
  get (raw self) "inherit" (YDict []).

End BranchCfgEntry.

Module BranchCfg.

Record t : Type := { raw : yaml }.

Definition cfg_entries (self : t) : result (list BranchCfgEntry.t) :=
  cfgs <- get (raw self) "cfgs" YNone ;;
  entries <- items cfgs ;;
  Ok (map (fun kv => {| BranchCfgEntry.name := fst kv; BranchCfgEntry.raw := snd kv |})
          entries).

Definition entry_with_idx `{Builtins} (idx : Z) (entry : BranchCfgEntry.t)
    : result (Z * BranchCfgEntry.t) :=
  i <- BranchCfgEntry.index entry ;;
  if truthy i then z <- int i ;; Ok (z, entry) else Ok (idx, entry).

Definition matching_entries `{Builtins} (self : t) (branch_name : string)
    : result (list BranchCfgEntry.t) :=
  entries <- cfg_entries self ;;
  filterM (fun entry => BranchCfgEntry.branch_matches entry branch_name) entries.

(** The entries in the order the merging loop visits them:
    [sorted(indexed_entries, key=lambda i: i[0])] without the keys. *)
Definition merge_order `{Builtins} (matching : list BranchCfgEntry.t)
    : result (list BranchCfgEntry.t) :=
  indexed_entries <- mapM (fun ie => entry_with_idx (fst ie) (snd ie)) (enumerate matching) ;;
  Ok (map snd (sorted indexed_entries)).

Definition cfg_entry_for_branch `{Builtins} `{Util} (self : t) (branch_name : string)
    : result (option BranchCfgEntry.t) :=
  matching <- matching_entries self branch_name ;;
  match matching with
  | [] => Ok None
  | _ =>
      ordered <- merge_order matching ;;
      effective_branch_cfg <-
        foldM (fun eff entry => merge_dicts eff (BranchCfgEntry.raw entry))
              (YDict []) ordered ;;
      Ok (Some {| BranchCfgEntry.name := "merged";
                  BranchCfgEntry.raw := effective_branch_cfg |})
  end.

End BranchCfg.

(** A repository as the source-control client shows it.
    [file_contents path ref] is the decoded text of the file, or the raised
    error ([NotFoundError] when the file is absent on [ref]). *)
Record Repository : Type := {
  repo_name : string;
  default_branch : result string;
  repo_branches : list string;
  file_contents : string -> string -> result string;
}.

Definition NotFoundError : string := "NotFoundError".

Module DefinitionEnumerator.

(** The attributes of an enumerator object that the methods read. *)
Record t : Type := { cfg_set : ConfigSet; job_mapping : JobMapping }.

(** One turn of the loop of [_wrap_into_descriptors]. *)
Definition wrap_one `{Util} (self : t) (repo_path repo_hostname branch_name : string)
    (override_definitions : yaml) (item : string * yaml)
    : result DefinitionDescriptor.t :=
  let name := fst item in
  let pipeline_definition := snd item in
  layer <- get override_definitions name (YDict []) ;;
  DefinitionDescriptor.init name pipeline_definition
    {| path := repo_path; branch := branch_name; hostname := repo_hostname |}
    (concourse (cfg_set self)) (team_name (job_mapping self))
    (OList [layer]) None.

Fixpoint wrap_items `{Util} (self : t) (repo_path repo_hostname branch_name : string)
    (override_definitions : yaml) (l : dict) : gen DefinitionDescriptor.t :=
  match l with
  | [] => gen_return
  | item :: rest =>
      match wrap_one self repo_path repo_hostname branch_name override_definitions item with
      | Raise e => gen_raise e
      | Ok d =>
          gen_then (gen_yield d)
            (wrap_items self repo_path repo_hostname branch_name override_definitions rest)
      end
  end.

Definition _wrap_into_descriptors `{Util} (self : t)
    (repo_path repo_hostname branch_name : string)
    (raw_definitions override_definitions : yaml) : gen DefinitionDescriptor.t :=
  match items raw_definitions with
  | Raise e => gen_raise e
  | Ok l => wrap_items self repo_path repo_hostname branch_name override_definitions l
  end.

End DefinitionEnumerator.

Module GithubDefinitionEnumeratorBase.
Import DefinitionEnumerator.

Section Methods.
Context `{Builtins} `{Util}.

Definition _branch_cfg_or_none (repository : Repository) : result (option BranchCfg.t) :=
  match (text <- file_contents repository "branch.cfg" "refs/meta/ci" ;;
         raw <- yaml_load text ;;
         Ok {| BranchCfg.raw := raw |}) with
  | Ok cfg => Ok (Some cfg)
  | Raise e => if is_instance NotFoundError e then Ok None else Raise e
  end.

(** The loop over [repository.branches()] of [_determine_repository_branches]. *)
Fixpoint configured_branches (branch_cfg : BranchCfg.t) (l : list string)
    : gen (string * option BranchCfgEntry.t) :=
  match l with
  | [] => gen_return
  | branch_name :: rest =>
      match BranchCfg.cfg_entry_for_branch branch_cfg branch_name with
      | Raise e => gen_raise e
      | Ok None => configured_branches branch_cfg rest
      | Ok (Some cfg_entry) =>
          gen_then (gen_yield (branch_name, Some cfg_entry))
                   (configured_branches branch_cfg rest)
      end
  end.

Definition _determine_repository_branches (repository : Repository)
    : gen (string * option BranchCfgEntry.t) :=
  match _branch_cfg_or_none repository with
  | Raise e => gen_raise e
  | Ok None =>
      match default_branch repository with
      | Ok b => gen_yield (b, None)
      | Raise e => if is_Exception e then gen_yield ("master", None) else gen_raise e
      end
  | Ok (Some branch_cfg) => configured_branches branch_cfg (repo_branches repository)
  end.

(** The descriptor yielded for a definitions file that does not parse. *)
Definition invalid_yaml_descriptor (self : t) (repo_path branch_name repo_hostname : string)
    (e : exn) : result DefinitionDescriptor.t :=
  DefinitionDescriptor.init "<invalid YAML>" (YDict [])
    {| path := repo_path; branch := branch_name; hostname := repo_hostname |}
    (concourse (cfg_set self)) (team_name (job_mapping self))
    (OTuple []) (Some e).

(** The loop of [_scan_repository_for_definitions] over the pairs the
    branch generator yields; [tail] is how that generator ends after its
    last pair. *)
Fixpoint scan_branches (self : t) (repository : Repository) (github_cfg : GithubConfig)
    (org_name : string) (pairs : list (string * option BranchCfgEntry.t))
    (tail : option exn) : gen DefinitionDescriptor.t :=
  match pairs with
  | [] => ([], tail)
  | (branch_name, cfg_entry) :: rest =>
      match file_contents repository ".ci/pipeline_definitions" branch_name with
      | Raise e =>
          if is_instance NotFoundError e
          then scan_branches self repository github_cfg org_name rest tail (* continue *)
          else gen_raise e
      | Ok definitions =>
          let repo_hostname := urlparse_hostname (http_url github_cfg) in
          match (match cfg_entry with
                 | Some entry => BranchCfgEntry.override_definitions entry
                 | None => Ok (YDict [])
                 end) with
          | Raise e => gen_raise e
          | Ok override_definitions =>
              match yaml_load definitions with
              | Raise e =>
                  let repo_path := org_name +:+ "/" +:+ repo_name repository in
                  match invalid_yaml_descriptor self repo_path branch_name repo_hostname e with
                  | Raise e' => gen_raise e'
                  | Ok d => gen_yield d (* return *)
                  end
              | Ok definitions =>
                  match merge_dicts definitions override_definitions with
                  | Raise e => gen_raise e
                  | Ok definitions =>
                      gen_then
                        (_wrap_into_descriptors self
                           (org_name +:+ "/" +:+ repo_name repository)
                           repo_hostname branch_name definitions override_definitions)
                        (scan_branches self repository github_cfg org_name rest tail)
                  end
              end
          end
      end
  end.

Definition _scan_repository_for_definitions (self : t) (repository : Repository)
    (github_cfg : GithubConfig) (org_name : string) : gen DefinitionDescriptor.t :=
  let branches := _determine_repository_branches repository in
  scan_branches self repository github_cfg org_name (fst branches) (snd branches).

End Methods.
End GithubDefinitionEnumeratorBase.

(** ** replicator.py *)

(** *** The CI server *)

(** A target: the name of the CI-server configuration and the team. *)
Abbreviation Target := (string * string)%type.

Inductive SetPipelineResult : Type := UPDATED | CREATED.

Record Resource : Type := { resource_name : string; has_webhook_token : bool }.

(** The calls of the CI client. *)
Inductive ApiCall : Type :=
| FromCfg (target : Target)
| SetPipeline (target : Target) (name definition : string)
| UnpausePipeline (target : Target) (name : string)
| ExposePipeline (target : Target) (name : string)
| Pipelines (target : Target)
| DeletePipeline (target : Target) (name : string)
| PipelineResources (target : Target) (name : string)
| TriggerResourceCheck (target : Target) (pipeline_name resource_name : string)
| OrderPipelines (target : Target) (names : list string).

(** The server's state: the pipeline names known to each target, in the
    server's order. *)
Record World : Type := { inventory : gmap Target (list string) }.

Definition pipelines_at (w : World) (target : Target) : list string :=
  match inventory w !! target with
  | Some l => l
  | None => []
  end.

Definition set_pipelines_at (w : World) (target : Target) (l : list string) : World :=
  {| inventory := <[target := l]> (inventory w) |}.

(** Modelled from the spec: package [concourse.client] is not among the
    sources.  The server keeps a list of pipeline names per target (section 6:
    set, unpause, expose, list, delete, reorder, list resources, trigger a
    resource check).  [api_fault c] is the error call [c] raises, if it
    raises; a call that raises changes nothing.  [pipeline_resources_of] are
    the resources of a pipeline. *)
Class ConcourseClient : Type := {
  api_fault : ApiCall -> option exn;
  pipeline_resources_of : Target -> string -> list Resource;
}.

(** Code that calls the CI server: from the server's state to the result,
    the state afterwards and the calls that completed, in order. *)
Definition M (A : Type) : Type := World -> result A * World * list ApiCall.

Definition ret {A} (a : A) : M A := fun w => (Ok a, w, []).

Definition raise {A} (e : exn) : M A := fun w => (Raise e, w, []).

Definition bindM {A B} (m : M A) (k : A -> M B) : M B :=
  fun w =>
    match m w with
    | (Ok a, w1, l1) =>
        match k a w1 with
        | (r, w2, l2) => (r, w2, l1 ++ l2)
        end
    | (Raise e, w1, l1) => (Raise e, w1, l1)
    end.

Declare Scope world_scope.
Delimit Scope world_scope with world.
Notation "x <~ e ;; k" := (bindM e (fun x => k))
  (at level 100, e at next level, right associativity) : world_scope.
Notation "e1 ;~ e2" := (bindM e1 (fun _ => e2))
  (at level 100, right associativity) : world_scope.
Open Scope world_scope.

(** [try: m  except Exception as e: handler e] *)
Definition try_except {A} (m : M A) (handler : exn -> M A) : M A :=
  fun w =>
    match m w with
    | (Ok a, w1, l1) => (Ok a, w1, l1)
    | (Raise e, w1, l1) =>
        if is_Exception e
        then match handler e w1 with
             | (r, w2, l2) => (r, w2, l1 ++ l2)
             end
        else (Raise e, w1, l1)
    end.

(** [for x in l: body x] *)
Fixpoint forM_ {A} (l : list A) (body : A -> M unit) : M unit :=
  match l with
  | [] => ret tt
  | x :: l' => body x ;~ forM_ l' body
  end.

Module client.
Section Api.
Context `{ConcourseClient}.

Definition api_call {A} (c : ApiCall) (effect : World -> A * World) : M A :=
  fun w =>
    match api_fault c with
    | Some e => (Raise e, w, [])
    | None => (Ok (fst (effect w)), snd (effect w), [c])
    end.

Definition from_cfg (concourse_cfg : ConcourseConfig) (team_name : string) : M Target :=
  let target := (cfg_name concourse_cfg, team_name) in
  api_call (FromCfg target) (fun w => (target, w)).

Definition set_pipeline (api : Target) (name pipeline_definition : string)
    : M (option SetPipelineResult) :=
  api_call (SetPipeline api name pipeline_definition)
    (fun w =>
       if bool_decide (name ∈ pipelines_at w api)
       then (Some UPDATED, w)
       else (Some CREATED, set_pipelines_at w api (pipelines_at w api ++ [name]))).

Definition unpause_pipeline (api : Target) (pipeline_name : string) : M unit :=
  api_call (UnpausePipeline api pipeline_name) (fun w => (tt, w)).

Definition expose_pipeline (api : Target) (pipeline_name : string) : M unit :=
  api_call (ExposePipeline api pipeline_name) (fun w => (tt, w)).

Definition pipelines (api : Target) : M (list string) :=
  api_call (Pipelines api) (fun w => (pipelines_at w api, w)).

Definition delete_pipeline (api : Target) (pipeline_name : string) : M unit :=
  api_call (DeletePipeline api pipeline_name)
    (fun w =>
       (tt, set_pipelines_at w api
              (filter (fun p => p ≠ pipeline_name) (pipelines_at w api)))).

Definition pipeline_resources (api : Target) (pipeline_name : string) : M (list Resource) :=
  api_call (PipelineResources api pipeline_name)
    (fun w => (pipeline_resources_of api pipeline_name, w)).

Definition trigger_resource_check (api : Target) (pipeline_name resource_name : string)
    : M unit :=
  api_call (TriggerResourceCheck api pipeline_name resource_name) (fun w => (tt, w)).

(** Reordering keeps the set of pipelines: the known ones among
    [pipeline_names] come first, in the order given. *)
Definition order_pipelines (api : Target) (pipeline_names : list string) : M unit :=
  api_call (OrderPipelines api pipeline_names)
    (fun w =>
       (tt, set_pipelines_at w api
              (filter (fun p => p ∈ pipelines_at w api) pipeline_names ++
               filter (fun p => p ∉ pipeline_names) (pipelines_at w api)))).

(** The error of the first call of [l] that raises. *)
Fixpoint first_fault (l : list ApiCall) : option exn :=
  match l with
  | [] => None
  | c :: l' =>
      match api_fault c with
      | Some e => Some e
      | None => first_fault l'
      end
  end.

End Api.
End client.

(** *** Template retrieval (class [TemplateRetriever] of enumerator.py) *)

(** The file system: [os.walk root] as the visited directories with their
    file names, [os.path.join], [open(path).read()], [os.path.abspath]. *)
Class FileSystem : Type := {
  os_walk : string -> list (string * list string);
  path_join : string -> string -> string;
  open_read : string -> result string;
  abspath : string -> string;
}.

Module TemplateRetriever.
Section Methods.
Context `{FileSystem} `{Util}.

Record t : Type := { template_path : list string }.

Fixpoint find_in_walk (template_file_name : string) (walk : list (string * list string))
    : option string :=
  match walk with
  | [] => None
  | (dirpath, filenames) :: rest =>
      if bool_decide (template_file_name ∈ filenames)
      then Some (path_join dirpath template_file_name)
      else find_in_walk template_file_name rest
  end.

Fixpoint find_in_paths (template_file_name : string) (paths : list string) : option string :=
  match paths with
  | [] => None
  | p :: rest =>
      match find_in_walk template_file_name (os_walk p) with
      | Some f => Some f
      | None => find_in_paths template_file_name rest
      end
  end.

Definition template_file (self : t) (template_name : yaml) : result string :=
  match template_name with
  | YStr n =>
      match find_in_paths (n +:+ ".yaml") (template_path self) with
      | Some f => Ok f
      | None =>
          Raise (util_error ("could not find template " +:+ n +:+ ", tried in "
                             +:+ join "," (template_path self)))
      end
  | _ => Raise (TypeError "template name")
  end.

Definition template_contents (self : t) (template_name : yaml) : result string :=
  f <- template_file self template_name ;;
  open_read f.

End Methods.
End TemplateRetriever.

(** *** Pipeline model and template engine *)

Record RepositoryConfig : Type := { repo_cfg_branch : string }.

(** A job variant of the built pipeline model: [has_main_repository()] is
    [main_repository] being [Some]. *)
Record Variant : Type := {
  variant_name : string;
  main_repository : option RepositoryConfig;
}.

Module PipelineDefinition.
Record t : Type := { variants : list Variant }.
End PipelineDefinition.

Record RawPipelineDefinitionDescriptor : Type := {
  raw_name : string;
  raw_base_definition : yaml;
  raw_variants : yaml;
  raw_template : yaml;
}.

(** The dict [pipeline_metadata] handed to the template. *)
Record PipelineMetadata : Type := {
  md_definition : PipelineDefinition.t;
  md_name : string;
  md_target_team : string;
  md_pipeline_name : string;
}.

(** Package [concourse.factory] and the template engine: building the
    pipeline model from the raw descriptor
    ([DefinitionFactory(..).create_pipeline_definition()]), and
    [Template(contents, lookup).render(instance_args, config_set, pipeline)]. *)
Class Templating : Type := {
  create_pipeline_definition : RawPipelineDefinitionDescriptor -> result PipelineDefinition.t;
  template_render :
    string -> string -> PipelineDefinition.t -> ConfigSet -> PipelineMetadata -> result string;
}.

Module RenderStatus.
Inductive t : Type := SUCCEEDED | FAILED.
End RenderStatus.

Module RenderResult.
Record t : Type := {
  definition_descriptor : DefinitionDescriptor.t;
  render_status : RenderStatus.t;
  error_details : option string;
}.
End RenderResult.

Module Renderer.
Import DefinitionDescriptor.
Section Methods.
Context `{Builtins} `{Util} `{FileSystem} `{Templating}.

(** The constructor's arguments.  [lookup] and [cfg_set] become attributes
    only when [template_include_dir] is truthy. *)
Record t : Type := {
  template_retriever : TemplateRetriever.t;
  template_include_dir : option string;
  cfg_set : ConfigSet;
}.

Definition has_include_dir (self : t) : bool :=
  match template_include_dir self with
  | Some dir => negb (String.eqb dir "")
  | None => false
  end.

Definition lookup (self : t) : result string :=
  match template_include_dir self with
  | Some dir =>
      if negb (String.eqb dir "") then Ok (abspath dir)
      else Raise (AttributeError "lookup")
  | None => Raise (AttributeError "lookup")
  end.

Definition self_cfg_set (self : t) : result ConfigSet :=
  if has_include_dir self then Ok (cfg_set self) else Raise (AttributeError "cfg_set").

(** The for/else of [_render]: the name of the first variant with a main
    repository, suffixed by that repository's branch, else the bare name. *)
Fixpoint derived_pipeline_name (name : string) (vs : list Variant) : string :=
  match vs with
  | [] => name
  | variant :: rest =>
      match main_repository variant with
      | None => derived_pipeline_name name rest
      | Some main_repo => join "-" [name; repo_cfg_branch main_repo]
      end
  end.

(** [effective_definition] after the inheritance loop. *)
Definition effective_definition (definition_descriptor : DefinitionDescriptor.t)
    : result yaml :=
  foldM merge_dicts (pipeline_definition definition_descriptor)
        (layers (override_definitions definition_descriptor)).

(** The local variables of [_render] when the for/else over the variants
    is left, before the template is instantiated. *)
Record Locals : Type := {
  template_contents : string;
  pipeline_definition : RawPipelineDefinitionDescriptor;
  generated_model : PipelineDefinition.t;
  pipeline_metadata : PipelineMetadata;
}.

Definition _render_locals (self : t) (definition_descriptor : DefinitionDescriptor.t)
    : result Locals :=
  effective_definition <- effective_definition definition_descriptor ;;
  template_name <- template_name definition_descriptor ;;
  template_contents <-
    TemplateRetriever.template_contents (template_retriever self) template_name ;;
  let pipeline_name := pipeline_name definition_descriptor in
  jobs <- get effective_definition "jobs" (YDict []) ;;
  variants <- get effective_definition "variants" (YDict []) ;;
  if truthy jobs && truthy variants
  then Raise (PyException "RuntimeError"
                ("Both 'jobs' and 'variants' are defined in pipeline '"
                 +:+ pipeline_name +:+ "'"))
  else
    base_definition <- get effective_definition "base_definition" (YDict []) ;;
    let pipeline_definition :=
      {| raw_name := pipeline_name;
         raw_base_definition := base_definition;
         raw_variants := if truthy jobs then jobs else variants;
         raw_template := template_name |} in
    generated_model <- create_pipeline_definition pipeline_definition ;;
    Ok {| template_contents := template_contents;
          pipeline_definition := pipeline_definition;
          generated_model := generated_model;
          pipeline_metadata :=
            {| md_definition := generated_model;
               md_name := raw_name pipeline_definition;
               md_target_team := concourse_target_team definition_descriptor;
               md_pipeline_name :=
                 derived_pipeline_name (raw_name pipeline_definition)
                   (PipelineDefinition.variants generated_model) |} |}.

Definition _render (self : t) (definition_descriptor : DefinitionDescriptor.t)
    : result DefinitionDescriptor.t :=
  locals <- _render_locals self definition_descriptor ;;
  lookup <- lookup self ;;
  config_set <- self_cfg_set self ;;
  text <- template_render (template_contents locals) lookup (generated_model locals)
            config_set (pipeline_metadata locals) ;;
  Ok (set_pipeline definition_descriptor text).

Definition render (self : t) (definition_descriptor : DefinitionDescriptor.t)
    : result RenderResult.t :=
  match _render self definition_descriptor with
  | Ok rendered =>
      Ok {| RenderResult.definition_descriptor := rendered;
            RenderResult.render_status := RenderStatus.SUCCEEDED;
            RenderResult.error_details := None |}
  | Raise e =>
      if is_Exception e
      then Ok {| RenderResult.definition_descriptor := definition_descriptor;
                 RenderResult.render_status := RenderStatus.FAILED;
                 RenderResult.error_details := Some (format_exc e) |}
      else Raise e
  end.

End Methods.
End Renderer.

Module DeployStatus.
(** An [IntEnum]: the members are integers, combined bitwise. *)
Definition SUCCEEDED : Z := 1.
Definition FAILED : Z := 2.
Definition SKIPPED : Z := 4.
Definition CREATED : Z := 8.
End DeployStatus.

(** [error_details] of a deploy result: a formatted trace, or the error
    object of a descriptor that failed at discovery. *)
Inductive ErrorDetails : Type :=
| Traceback (text : string)
| ExceptionObject (e : exn).

Module DeployResult.
Record t : Type := {
  definition_descriptor : DefinitionDescriptor.t;
  deploy_status : Z;
  error_details : option ErrorDetails;
}.

(** Truth of [deploy_status & flag]. *)
Definition has (self : t) (flag : Z) : bool :=
  negb (Z.land (deploy_status self) flag =? 0).

(** The pipeline name the result carries, and the target its descriptor
    routes to. *)
Definition name (self : t) : string :=
  DefinitionDescriptor.pipeline_name (definition_descriptor self).

Definition target (self : t) : Target :=
  (cfg_name (DefinitionDescriptor.concourse_target_cfg (definition_descriptor self)),
   DefinitionDescriptor.concourse_target_team (definition_descriptor self)).
End DeployResult.

Module ConcourseDeployer.
Import DefinitionDescriptor.
Section Methods.
Context `{Builtins} `{ConcourseClient}.

Record t : Type := { unpause_pipelines : bool; expose_pipelines : bool }.

Definition deploy (self : t) (definition_descriptor : DefinitionDescriptor.t)
    : M DeployResult.t :=
  match pipeline definition_descriptor with
  | None => raise (AttributeError "pipeline")
  | Some pipeline_definition =>
      let pipeline_name := pipeline_name definition_descriptor in
      try_except
        (api <~ client.from_cfg (concourse_target_cfg definition_descriptor)
                                (concourse_target_team definition_descriptor) ;;
         response <~ client.set_pipeline api pipeline_name pipeline_definition ;;
         (if unpause_pipelines self
          then client.unpause_pipeline api pipeline_name else ret tt) ;~
         (if expose_pipelines self
          then client.expose_pipeline api pipeline_name else ret tt) ;~
         let deploy_status := DeployStatus.SUCCEEDED in
         match response with
         | Some CREATED =>
             ret {| DeployResult.definition_descriptor := definition_descriptor;
                    DeployResult.deploy_status :=
                      Z.lor deploy_status DeployStatus.CREATED;
                    DeployResult.error_details := None |}
         | Some UPDATED =>
             ret {| DeployResult.definition_descriptor := definition_descriptor;
                    DeployResult.deploy_status := deploy_status;
                    DeployResult.error_details := None |}
         | None => raise (PyException "NotImplementedError" "")
         end)
        (fun e =>
           ret {| DeployResult.definition_descriptor := definition_descriptor;
                  DeployResult.deploy_status := DeployStatus.FAILED;
                  DeployResult.error_details := Some (Traceback (format_exc e)) |})
  end.

(** The calls [deploy] makes when none of them raises. *)
Definition attempted_calls (self : t) (definition_descriptor : DefinitionDescriptor.t)
    (pipeline_definition : string) : list ApiCall :=
  let target := (cfg_name (concourse_target_cfg definition_descriptor),
                 concourse_target_team definition_descriptor) in
  let pipeline_name := pipeline_name definition_descriptor in
  [FromCfg target; SetPipeline target pipeline_name pipeline_definition] ++
  (if unpause_pipelines self then [UnpausePipeline target pipeline_name] else []) ++
  (if expose_pipelines self then [ExposePipeline target pipeline_name] else []).

End Methods.
End ConcourseDeployer.

(** [list.sort()] on strings: insertion by [String.leb], the order of code
    points. *)
Fixpoint insert_string (x : string) (l : list string) : list string :=
  match l with
  | [] => [x]
  | y :: l' => if String.leb x y then x :: y :: l' else y :: insert_string x l'
  end.

Fixpoint sort_strings (l : list string) : list string :=
  match l with
  | [] => []
  | x :: l' => insert_string x (sort_strings l')
  end.

(** Owner notification: [_notify_broken_definition_owners] resolves the
    recipients through the source-control client and sends one mail; what
    [process_results] sees of it is whether it returned or raised. *)
Class Notification : Type := {
  _notify_broken_definition_owners : DeployResult.t -> result unit;
}.

Module ReplicationResultProcessor.
Import DefinitionDescriptor.
Section Methods.
Context `{ConcourseClient} `{Notification}.

(** The dict [concourse_target_results]: target key to the results in the
    bucket, buckets in insertion order.  A bucket is a Python set of result
    objects, and the results of a run are distinct objects; it is kept as
    the list of its members.  Python walks a set in an order the language
    leaves open: the list is in insertion order, and the member that
    [next(iter(bucket))] gives is taken to be the first one. *)
Fixpoint add_result (buckets : list (string * list DeployResult.t))
    (concourse_target_key : string) (result : DeployResult.t)
    : list (string * list DeployResult.t) :=
  match buckets with
  | [] => [(concourse_target_key, [result])]
  | (k, members) :: rest =>
      if String.eqb k concourse_target_key
      then (k, members ++ [result]) :: rest
      else (k, members) :: add_result rest concourse_target_key result
  end.

Definition concourse_target_results (results : list DeployResult.t)
    : list (string * list DeployResult.t) :=
  fold_left
    (fun buckets result =>
       add_result buckets
         (concourse_target_key (DeployResult.definition_descriptor result)) result)
    results [].

Definition deployed_pipeline_names (concourse_results : list DeployResult.t) : gset string :=
  list_to_set
    (map (fun r => pipeline_name (DeployResult.definition_descriptor r)) concourse_results).

Definition _initialise_new_pipeline_resources (concourse_api : Target)
    (results : list DeployResult.t) : M unit :=
  let newly_deployed_pipeline_names :=
    map (fun result => pipeline_name (DeployResult.definition_descriptor result))
        (List.filter (fun result => DeployResult.has result DeployStatus.CREATED) results) in
  forM_ newly_deployed_pipeline_names
    (fun pipeline_name =>
       client.unpause_pipeline concourse_api pipeline_name ;~
       resources <~ client.pipeline_resources concourse_api pipeline_name ;;
       forM_ (List.filter has_webhook_token resources)
         (fun resource =>
            client.trigger_resource_check concourse_api pipeline_name
              (resource_name resource))).

(** One turn of the loop over the target buckets.  The set
    [pipelines_to_remove] is walked in the order of its [elements], the
    created pipelines in the order of the bucket's list; Python leaves both
    orders open, and what is stated about the calls of a turn is stated up
    to them. *)
Definition reconcile_target (concourse_results : list DeployResult.t) : M unit :=
  match concourse_results with
  | [] => raise (PyException "StopIteration" "")
  | first :: _ =>
      let target := concourse_target (DeployResult.definition_descriptor first) in
      concourse_api <~ client.from_cfg (fst target) (snd target) ;;
      let deployed_pipeline_names := deployed_pipeline_names concourse_results in
      known <~ client.pipelines concourse_api ;;
      let pipelines_to_remove : gset string :=
        list_to_set known ∖ deployed_pipeline_names in
      forM_ (elements pipelines_to_remove)
        (fun pipeline_name => client.delete_pipeline concourse_api pipeline_name) ;~
      _initialise_new_pipeline_resources concourse_api concourse_results ;~
      pipeline_names <~ client.pipelines concourse_api ;;
      client.order_pipelines concourse_api (sort_strings pipeline_names)
  end.

(** The loop over the failed results; [all_notifications_succeeded] is the
    flag so far. *)
Fixpoint notify_all (failed_descriptors : list DeployResult.t)
    (all_notifications_succeeded : bool) : M bool :=
  match failed_descriptors with
  | [] => ret all_notifications_succeeded
  | failed_descriptor :: rest =>
      match _notify_broken_definition_owners failed_descriptor with
      | Ok _ => notify_all rest all_notifications_succeeded
      | Raise e => if is_Exception e then notify_all rest false else raise e
      end
  end.

Definition failed_descriptors (results : list DeployResult.t) : list DeployResult.t :=
  List.filter (fun d => negb (DeployResult.has d DeployStatus.SUCCEEDED)) results.

Definition process_results (results : list DeployResult.t) : M bool :=
  forM_ (concourse_target_results results)
    (fun bucket => reconcile_target (snd bucket)) ;~
  let failed_descriptors := failed_descriptors results in
  let failed_count := length failed_descriptors in
  if (failed_count =? 0)%nat then ret true
  else notify_all failed_descriptors true.

End Methods.
End ReplicationResultProcessor.

Module PipelineReplicator.
Import DefinitionDescriptor.

(** The collaborators handed to the constructor.  The preprocessor and the
    renderer update the descriptor object in place and hand that object
    back (in the render result), as [DefinitionDescriptorPreprocessor] and
    [Renderer] do. *)
Record t : Type := {
  descriptor_preprocessor : DefinitionDescriptor.t -> M DefinitionDescriptor.t;
  definition_renderer : DefinitionDescriptor.t -> M RenderResult.t;
  definition_deployer : DefinitionDescriptor.t -> M DeployResult.t;
}.

Inductive Stage : Type := Preprocessor | Renderer | Deployer.

(** The result, the server's state and calls, and the collaborators invoked,
    in order.  After a FAILED render the result carries the object the
    method was called with; the collaborators have updated that object in
    place and the renderer hands it back, so it is the descriptor of the
    render result. *)
Definition _process_definition_descriptor (self : t)
    (definition_descriptor : DefinitionDescriptor.t) (w : World)
    : result DeployResult.t * World * list ApiCall * list Stage :=
  match exception definition_descriptor with
  | Some e =>
      (Ok {| DeployResult.definition_descriptor := definition_descriptor;
             DeployResult.deploy_status := DeployStatus.SKIPPED;
             DeployResult.error_details := Some (ExceptionObject e) |},
       w, [], [])
  | None =>
      match descriptor_preprocessor self definition_descriptor w with
      | (Raise e, w1, l1) => (Raise e, w1, l1, [Preprocessor])
      | (Ok preprocessed, w1, l1) =>
          match definition_renderer self preprocessed w1 with
          | (Raise e, w2, l2) => (Raise e, w2, l1 ++ l2, [Preprocessor; Renderer])
          | (Ok result, w2, l2) =>
              match RenderResult.render_status result with
              | RenderStatus.SUCCEEDED =>
                  match definition_deployer self
                          (RenderResult.definition_descriptor result) w2 with
                  | (deploy_result, w3, l3) =>
                      (deploy_result, w3, l1 ++ l2 ++ l3,
                       [Preprocessor; Renderer; Deployer])
                  end
              | RenderStatus.FAILED =>
                  (Ok {| DeployResult.definition_descriptor :=
                           RenderResult.definition_descriptor result;
                         DeployResult.deploy_status := DeployStatus.SKIPPED;
                         DeployResult.error_details :=
                           option_map Traceback (RenderResult.error_details result) |},
                   w2, l1 ++ l2, [Preprocessor; Renderer])
              end
          end
      end
  end.

End PipelineReplicator.

Section ReplicatePipelines.
Context `{Builtins} `{Util} `{FileSystem} `{Templating} `{ConcourseClient}.

(** Code that does not call the server. *)
Definition lift {A} (r : result A) : M A := fun w => (r, w, []).

(** The replicator [replicate_pipelines] builds: the preprocessor, a renderer
    over the template path and include directory, and the CI deployer. *)
Definition replicate_pipelines_replicator (cfg_set : ConfigSet)
    (template_path : list string) (template_include_dir : option string)
    (unpause_pipelines expose_pipelines : bool) : PipelineReplicator.t :=
  let renderer :=
    {| Renderer.template_retriever :=
         {| TemplateRetriever.template_path := template_path |};
       Renderer.template_include_dir := template_include_dir;
       Renderer.cfg_set := cfg_set |} in
  let deployer :=
    {| ConcourseDeployer.unpause_pipelines := unpause_pipelines;
       ConcourseDeployer.expose_pipelines := expose_pipelines |} in
  {| PipelineReplicator.descriptor_preprocessor := fun d =>
       lift (DefinitionDescriptorPreprocessor.process_definition_descriptor d);
     PipelineReplicator.definition_renderer := fun d =>
       lift (Renderer.render renderer d);
     PipelineReplicator.definition_deployer := ConcourseDeployer.deploy deployer |}.

End ReplicatePipelines.

(** ** Further classes of the two files *)

(** [util.parse_yaml_file]: the document a file holds, or the raised error. *)
Class YamlFiles : Type := {
  parse_yaml_file : string -> result yaml;
}.

Module SimpleFileDefinitionEnumerator.

(** The attributes the constructor sets; [job_mapping] is the mapping it
    builds for the team. *)
Record t : Type := {
  definition_file : string;
  repo_path : string;
  repo_branch : string;
  repo_host : string;
  cfg_set : ConfigSet;
  job_mapping : JobMapping;
}.

Definition as_enumerator (self : t) : DefinitionEnumerator.t :=
  {| DefinitionEnumerator.cfg_set := cfg_set self;
     DefinitionEnumerator.job_mapping := job_mapping self |}.

(** The except clause: the error descriptor is yielded. *)
Definition yield_invalid `{Util} (self : t) (e : exn) : gen DefinitionDescriptor.t :=
  match DefinitionDescriptor.init "<invalid YAML>" (YDict [])
          {| path := repo_path self; branch := repo_branch self;
             hostname := repo_host self |}
          (concourse (cfg_set self)) (team_name (job_mapping self))
          (OTuple []) (Some e) with
  | Ok d => gen_yield d
  | Raise e' => gen_raise e'
  end.

(** The try block covers the parsing and the whole [yield from]: an error
    raised while descriptors are being wrapped is handled after the
    descriptors yielded so far. *)
Definition enumerate_definition_descriptors `{Util} `{YamlFiles} (self : t)
    : gen DefinitionDescriptor.t :=
  match parse_yaml_file (definition_file self) with
  | Raise e => yield_invalid self e
  | Ok definitions =>
      let wrapped :=
        DefinitionEnumerator._wrap_into_descriptors (as_enumerator self)
          (repo_path self) (repo_host self) (repo_branch self) definitions (YDict []) in
      match snd wrapped with
      | None => wrapped
      | Some e => gen_then (fst wrapped, None) (yield_invalid self e)
      end
  end.

End SimpleFileDefinitionEnumerator.

(** The files a [FilesystemDeployer] writes: path to contents.  Opening a
    file for writing creates or empties it; [open_fault] and [write_fault]
    are the errors [open(path, 'w')] and [f.write] raise, if they raise. *)
Record Disk : Type := { files : gmap string string }.

Class FileWriting : Type := {
  open_fault : string -> option exn;
  write_fault : string -> option exn;
}.

Module FilesystemDeployer.
Import DefinitionDescriptor.
Section Methods.
Context `{FileSystem} `{FileWriting}.

Record t : Type := { base_dir : string }.

Definition failed (definition_descriptor : DefinitionDescriptor.t) : DeployResult.t :=
  {| DeployResult.definition_descriptor := definition_descriptor;
     DeployResult.deploy_status := DeployStatus.FAILED;
     DeployResult.error_details := None |}.

(** [except Exception as e] around the whole body. *)
Definition handle (definition_descriptor : DefinitionDescriptor.t) (e : exn) (disk : Disk)
    : result DeployResult.t * Disk :=
  if is_Exception e then (Ok (failed definition_descriptor), disk) else (Raise e, disk).

Definition deploy (self : t) (definition_descriptor : DefinitionDescriptor.t) (disk : Disk)
    : result DeployResult.t * Disk :=
  let f := path_join (base_dir self) (pipeline_name definition_descriptor) in
  match open_fault f with
  | Some e => handle definition_descriptor e disk
  | None =>
      let opened := {| files := <[f := ""]> (files disk) |} in
      match pipeline definition_descriptor with
      | None => handle definition_descriptor (AttributeError "pipeline") opened
      | Some text =>
          match write_fault f with
          | Some e => handle definition_descriptor e opened
          | None =>
              (Ok {| DeployResult.definition_descriptor := definition_descriptor;
                     DeployResult.deploy_status := DeployStatus.SUCCEEDED;
                     DeployResult.error_details := None |},
               {| files := <[f := text]> (files opened) |})
          end
      end
  end.

End Methods.
End FilesystemDeployer.

(** ** Concrete collaborators

    Instances of the collaborator classes on which the functions above can
    be run. *)

Module Scenario.

(** [d[k] = f(d.get(k))], keeping the position of a key already present. *)
Fixpoint upsert (k : string) (f : option yaml -> yaml) (d : dict) : dict :=
  match d with
  | [] => [(k, f None)]
  | (k', v) :: d' =>
      if String.eqb k' k then (k', f (Some v)) :: d' else (k', v) :: upsert k f d'
  end.

(** Modelled from the spec: the deep-merge of [util.merge_dicts] (sections 3,
    4.4 and 9): the keys of the later layer [other] are merged into [base]
    one by one; where both values are mappings they are merged recursively,
    otherwise the later value overwrites. *)
Fixpoint deep_merge (other base : yaml) {struct other} : yaml :=
  match other, base with
  | YDict od, YDict bd =>
      YDict ((fix merge_items (od : dict) (bd : dict) {struct od} : dict :=
                match od with
                | [] => bd
                | (k, v) :: od' =>
                    merge_items od'
                      (upsert k (fun old => match old with
                                            | Some b => deep_merge v b
                                            | None => v
                                            end) bd)
                end) od bd)
  | _, _ => other
  end.

Definition util : Util :=
  {| merge_dicts := fun base other =>
       match base, other with
       | YDict _, YDict _ => Ok (deep_merge other base)
       | _, _ => Raise (PyException "Failure" "merge_dicts")
       end;
     util_error := fun what => PyException "Failure" what |}.

(** The texts the scenarios read, with what [yaml.load] makes of them. *)
Definition branch_cfg_text : string := "cfgs: {all: {branches: [master, release]}}".
Definition broken_text : string := "p1: {".
Definition p1_text : string := "p1: {}".

Definition branch_cfg_doc : yaml :=
  YDict [("cfgs", YDict [("all", YDict [("branches", YList [YStr "master"; YStr "release"])])])].

Definition parse (text : string) : result yaml :=
  if String.eqb text branch_cfg_text then Ok branch_cfg_doc
  else if String.eqb text p1_text then Ok (YDict [("p1", YDict [])])
  else Raise (PyException "ParserError" "while parsing a flow mapping").

(** The regular expressions of the scenarios are plain words, which match
    themselves only; their strings are no numerals. *)
Definition builtins : Builtins :=
  {| re_fullmatch := fun pattern s => Ok (String.eqb pattern s);
     yaml_load := parse;
     int_of_str := fun _ => Raise (PyException "ValueError" "invalid literal for int()");
     urlparse_hostname := fun url =>
       if String.eqb url "https://github.com" then "github.com" else "";
     format_exc := fun e =>
       match e with
       | PyException cls msg => cls +:+ ": " +:+ msg
       | PyBaseException cls msg => cls +:+ ": " +:+ msg
       end |}.

(** One template root holding [default.yaml]. *)
Definition file_system : FileSystem :=
  {| os_walk := fun root =>
       if String.eqb root "/templates" then [("/templates", ["default.yaml"])] else [];
     path_join := fun a b => a +:+ "/" +:+ b;
     open_read := fun f =>
       if String.eqb f "/templates/default.yaml" then Ok "pipeline: "
       else Raise (PyException "FileNotFoundError" f);
     abspath := fun dir => dir |}.

(** A factory that gives every declared variant the repository of the base
    definition as its main repository, and a template that prints the
    pipeline name of the metadata after the template's text. *)
Definition main_repository_of (base_definition : yaml) : option RepositoryConfig :=
  match get base_definition "repo" YNone with
  | Ok (YDict repo) =>
      match dict_get repo "branch" with
      | Some (YStr b) => Some {| repo_cfg_branch := b |}
      | _ => None
      end
  | _ => None
  end.

Definition templating : Templating :=
  {| create_pipeline_definition := fun raw =>
       vs <- items (raw_variants raw) ;;
       Ok {| PipelineDefinition.variants :=
               map (fun kv => {| variant_name := fst kv;
                                 main_repository :=
                                   main_repository_of (raw_base_definition raw) |}) vs |};
     template_render := fun contents lookup model config_set metadata =>
       Ok (contents +:+ md_pipeline_name metadata) |}.

(** A factory that reads the main repository of each variant from the
    variant's own [repo] entry, with the same template. *)
Definition templating_by_variant : Templating :=
  {| create_pipeline_definition := fun raw =>
       vs <- items (raw_variants raw) ;;
       Ok {| PipelineDefinition.variants :=
               map (fun kv => {| variant_name := fst kv;
                                 main_repository := main_repository_of (snd kv) |}) vs |};
     template_render := fun contents lookup model config_set metadata =>
       Ok (contents +:+ md_pipeline_name metadata) |}.

(** Modelled from the spec: section 4.3 makes a missing template a fatal
    configuration error that aborts the run; [util.fail] raises the
    interpreter's exit, which is no [Exception].  The merge is the one of
    [util]. *)
Definition util_fatal : Util :=
  {| merge_dicts := @merge_dicts util;
     util_error := fun what => PyBaseException "SystemExit" what |}.

(** A CI client whose calls never raise, with no resources. *)
Definition concourse_client : ConcourseClient :=
  {| api_fault := fun _ => None;
     pipeline_resources_of := fun _ _ => [] |}.

(** Notification that always returns. *)
Definition notification : Notification :=
  {| _notify_broken_definition_owners := fun _ => Ok tt |}.

Definition the_cfg_set : ConfigSet := {| concourse := {| cfg_name := "ci" |} |}.

Definition enumerator : DefinitionEnumerator.t :=
  {| DefinitionEnumerator.cfg_set := the_cfg_set;
     DefinitionEnumerator.job_mapping := {| team_name := "team" |} |}.

(** A repository with a branch configuration that selects the branches
    [master] and [release]; the definitions file of [master] does not parse,
    the one of [release] defines the pipeline [p1]. *)
Definition broken_master : Repository :=
  {| repo_name := "repo";
     default_branch := Ok "master";
     repo_branches := ["master"; "release"];
     file_contents := fun path ref =>
       if String.eqb path "branch.cfg" then
         if String.eqb ref "refs/meta/ci" then Ok branch_cfg_text
         else Raise (PyException NotFoundError path)
       else if String.eqb path ".ci/pipeline_definitions" then
         if String.eqb ref "master" then Ok broken_text
         else if String.eqb ref "release" then Ok p1_text
         else Raise (PyException NotFoundError path)
       else Raise (PyException NotFoundError path) |}.

Definition github_com : GithubConfig := {| http_url := "https://github.com" |}.

(** Three entries that all match [master], with the indices 1, 2 and 0 in
    this order; each sets the template of [p1]. *)
Definition entry_indexed (index : Z) (template : string) : yaml :=
  YDict [("branches", YList [YStr "master"]); ("index", YInt index);
         ("inherit", YDict [("p1", YDict [("template", YStr template)])])].

(** An entry that matches [master] and has no index. *)
Definition entry_plain : yaml :=
  YDict [("branches", YList [YStr "master"]);
         ("inherit", YDict [("p1", YDict [("template", YStr "plain")])])].

(** Matching entries with the indices 2, none and 1, in this order. *)
Definition entries_2_none_1 : list BranchCfgEntry.t :=
  [{| BranchCfgEntry.name := "two"; BranchCfgEntry.raw := entry_indexed 2 "two" |};
   {| BranchCfgEntry.name := "plain"; BranchCfgEntry.raw := entry_plain |};
   {| BranchCfgEntry.name := "one"; BranchCfgEntry.raw := entry_indexed 1 "one" |}].

Definition index_zero_cfg : BranchCfg.t :=
  {| BranchCfg.raw :=
       YDict [("cfgs", YDict [("one", entry_indexed 1 "one");
                              ("two", entry_indexed 2 "two");
                              ("zero", entry_indexed 0 "zero")])] |}.

(** The descriptors, renderer, replicator, results and server states of the
    scenarios. *)
Definition main_repo_main : MainRepo :=
  {| path := "org/repo"; branch := "main"; hostname := "github.com" |}.

Definition descriptor (name : string) (definition : yaml) : DefinitionDescriptor.t :=
  {| DefinitionDescriptor.pipeline_name := name;
     DefinitionDescriptor.pipeline_definition := definition;
     DefinitionDescriptor.main_repo := main_repo_main;
     DefinitionDescriptor.concourse_target_cfg := concourse the_cfg_set;
     DefinitionDescriptor.concourse_target_team := "team";
     DefinitionDescriptor.override_definitions := OList [YDict []];
     DefinitionDescriptor.exception := None;
     DefinitionDescriptor.pipeline := None |}.

(** [{"p1": {"jobs": {"v1": {}}}}] on branch [main] of [github.com]. *)
Definition p1_jobs : DefinitionDescriptor.t :=
  descriptor "p1" (YDict [("jobs", YDict [("v1", YDict [])])]).

Definition p1_both : DefinitionDescriptor.t :=
  descriptor "p1" (YDict [("jobs", YDict [("j1", YDict [])]);
                          ("variants", YDict [("v1", YDict [])])]).

(** Three variants: the first without a repository of its own, the second
    on branch [rel-1], the third on branch [rel-2]. *)
Definition p3_variants : DefinitionDescriptor.t :=
  descriptor "p3"
    (YDict [("variants",
             YDict [("bare", YDict []);
                    ("first", YDict [("repo", YDict [("branch", YStr "rel-1")])]);
                    ("second", YDict [("repo", YDict [("branch", YStr "rel-2")])])])]).

Definition p1_invalid : DefinitionDescriptor.t :=
  {| DefinitionDescriptor.pipeline_name := "<invalid YAML>";
     DefinitionDescriptor.pipeline_definition := YDict [];
     DefinitionDescriptor.main_repo := main_repo_main;
     DefinitionDescriptor.concourse_target_cfg := concourse the_cfg_set;
     DefinitionDescriptor.concourse_target_team := "team";
     DefinitionDescriptor.override_definitions := OTuple [];
     DefinitionDescriptor.exception :=
       Some (PyException "ParserError" "while parsing a flow mapping");
     DefinitionDescriptor.pipeline := None |}.

Definition renderer : Renderer.t :=
  {| Renderer.template_retriever := {| TemplateRetriever.template_path := ["/templates"] |};
     Renderer.template_include_dir := Some "/templates/include";
     Renderer.cfg_set := the_cfg_set |}.

(** A renderer whose template root holds no template. *)
Definition renderer_without_templates : Renderer.t :=
  {| Renderer.template_retriever := {| TemplateRetriever.template_path := ["/elsewhere"] |};
     Renderer.template_include_dir := Some "/templates/include";
     Renderer.cfg_set := the_cfg_set |}.

Definition deployer : ConcourseDeployer.t :=
  {| ConcourseDeployer.unpause_pipelines := true;
     ConcourseDeployer.expose_pipelines := true |}.

Definition replicator : PipelineReplicator.t :=
  @replicate_pipelines_replicator builtins util file_system templating concourse_client
    the_cfg_set ["/templates"] (Some "/templates/include") true true.

Definition result (name : string) (status : Z) : DeployResult.t :=
  {| DeployResult.definition_descriptor := descriptor name (YDict []);
     DeployResult.deploy_status := status;
     DeployResult.error_details := None |}.

(** This run's results: [A] succeeded, [B] failed. *)
Definition results_ab : list DeployResult.t :=
  [result "A" DeployStatus.SUCCEEDED; result "B" DeployStatus.FAILED].

(** A descriptor of [descriptor] after preprocessing: renamed, with the
    layer of the main repository appended. *)
Definition preprocessed (d : DefinitionDescriptor.t) : DefinitionDescriptor.t :=
  DefinitionDescriptor.set_override_definitions
    (DefinitionDescriptorPreprocessor._add_branch_to_pipeline_name d)
    (OList [YDict [];
            YDict [("base_definition", YDict [("repo", main_repo_dict main_repo_main)])]]).

(** [p1] preprocessed and rendered. *)
Definition p1_rendered : DefinitionDescriptor.t :=
  DefinitionDescriptor.set_pipeline (preprocessed p1_jobs) "pipeline: p1-main-main".

Definition ci_team : Target := ("ci", "team").

(** Target inventory [{A, B, C}]. *)
Definition world_abc : World := {| inventory := {[ ci_team := ["A"; "B"; "C"] ]} |}.

Definition empty_world : World := {| inventory := ∅ |}.

(** Further repositories: one without branch configuration whose default
    branch [master] defines [p1]; one without branch configuration and
    without definitions; one whose branch configuration does not load. *)
Definition plain_repo : Repository :=
  {| repo_name := "repo";
     default_branch := Ok "master";
     repo_branches := ["master"];
     file_contents := fun path ref =>
       if String.eqb path ".ci/pipeline_definitions" then
         if String.eqb ref "master" then Ok p1_text
         else Raise (PyException NotFoundError path)
       else Raise (PyException NotFoundError path) |}.

Definition bare_repo : Repository :=
  {| repo_name := "repo";
     default_branch := Ok "master";
     repo_branches := ["master"];
     file_contents := fun path ref => Raise (PyException NotFoundError path) |}.

Definition broken_cfg_repo : Repository :=
  {| repo_name := "repo";
     default_branch := Ok "master";
     repo_branches := ["master"];
     file_contents := fun path ref =>
       if String.eqb path "branch.cfg" then Ok broken_text
       else Raise (PyException NotFoundError path) |}.

(** A renderer constructed without template include directory. *)
Definition renderer_without_include : Renderer.t :=
  {| Renderer.template_retriever := {| TemplateRetriever.template_path := ["/templates"] |};
     Renderer.template_include_dir := None;
     Renderer.cfg_set := the_cfg_set |}.

(** A CI client whose calls never raise; every pipeline has the resources
    [source], with webhook token, and [image], without. *)
Definition webhook_client : ConcourseClient :=
  {| api_fault := fun _ => None;
     pipeline_resources_of := fun _ _ =>
       [{| resource_name := "source"; has_webhook_token := true |};
        {| resource_name := "image"; has_webhook_token := false |}] |}.

(** This run's results: [N] was created, [B] failed. *)
Definition results_nb : list DeployResult.t :=
  [result "N" (Z.lor DeployStatus.SUCCEEDED DeployStatus.CREATED);
   result "B" DeployStatus.FAILED].

Definition other_team : Target := ("ci", "other").

End Scenario.

(** * Properties *)

(** ** Vocabulary *)

Section Vocabulary.
Context `{Builtins} `{Util} `{FileSystem} `{Templating}.

(** The renderer attaches the rendered text and, as the descriptor's name,
    the name derived from the first variant with a main repository. *)
Definition attaches_derived_name (self : Renderer.t) (d : DefinitionDescriptor.t) : Prop :=
  forall res,
    Renderer.render self d = Ok res ->
    RenderResult.render_status res = RenderStatus.SUCCEEDED ->
    exists locals text,
      Renderer._render_locals self d = Ok locals /\
      DefinitionDescriptor.pipeline (RenderResult.definition_descriptor res) = Some text /\
      DefinitionDescriptor.pipeline_name (RenderResult.definition_descriptor res) =
        md_pipeline_name (Renderer.pipeline_metadata locals).

End Vocabulary.

Section ProcessorVocabulary.
Import ReplicationResultProcessor DefinitionDescriptor.
Context `{ConcourseClient} `{Notification}.

(** A computation that changes nothing at the server and deletes nothing. *)
Definition quiet {A} (m : M A) : Prop :=
  forall w r w' l,
    m w = (r, w', l) -> w' = w /\ forall c, c ∈ l -> forall t p, c ≠ DeletePipeline t p.

(** A computation that returns in every state of the server. *)
Definition returns {A} (m : M A) : Prop :=
  forall w, exists a w' l, m w = (Ok a, w', l).

Definition result_key (r : DeployResult.t) : string :=
  concourse_target_key (DeployResult.definition_descriptor r).

Definition target_key (t : Target) : string := fst t +:+ ":" +:+ snd t.

(** The target whose client the turn for a bucket uses. *)
Definition bucket_target (members : list DeployResult.t) : Target :=
  match members with
  | first :: _ => DeployResult.target first
  | [] => ("", "")
  end.

(** The buckets have pairwise distinct keys, none is empty, each holds
    results of its key only, and every result is in the bucket of its key. *)
Definition grouped (results : list DeployResult.t)
    (bs : list (string * list DeployResult.t)) : Prop :=
  NoDup (map fst bs) /\
  (forall k ms, (k, ms) ∈ bs ->
     ms ≠ [] /\ forall x, x ∈ ms -> result_key x = k /\ x ∈ results) /\
  (forall r, r ∈ results -> exists ms, (result_key r, ms) ∈ bs /\ r ∈ ms).

(** Whether the notification for a result returns. *)
Definition notified (f : DeployResult.t) : bool :=
  match _notify_broken_definition_owners f with
  | Ok _ => true
  | Raise _ => false
  end.

End ProcessorVocabulary.

Section MergeOrderVocabulary.

(** An entry with an integer index, and that index. *)
Definition has_index (entry : BranchCfgEntry.t) : bool :=
  match BranchCfgEntry.index entry with
  | Ok (YInt _) => true
  | _ => false
  end.

Definition index_of (entry : BranchCfgEntry.t) : Z :=
  match BranchCfgEntry.index entry with
  | Ok (YInt z) => z
  | _ => 0
  end.

(** The index is omitted (or null), or an integer other than 0. *)
Definition well_indexed (entry : BranchCfgEntry.t) : Prop :=
  BranchCfgEntry.index entry = Ok YNone \/
  exists z, z ≠ 0 /\ BranchCfgEntry.index entry = Ok (YInt z).

(** The sort keys of well-indexed entries: the index, else the position. *)
Definition keyed_from (i : Z) (l : list BranchCfgEntry.t) : list (Z * BranchCfgEntry.t) :=
  map (fun ie => (if has_index (snd ie) then index_of (snd ie) else fst ie, snd ie))
      (enumerate_from i l).

End MergeOrderVocabulary.

Section WrapVocabulary.
Import DefinitionEnumerator.

(** The descriptor [_wrap_into_descriptors] builds for one definition. *)
Definition wrapped (self : DefinitionEnumerator.t) (repo_path repo_hostname branch_name : string)
    (overrides : dict) (item : string * yaml) : DefinitionDescriptor.t :=
  {| DefinitionDescriptor.pipeline_name := fst item;
     DefinitionDescriptor.pipeline_definition := snd item;
     DefinitionDescriptor.main_repo :=
       {| path := repo_path; branch := branch_name; hostname := repo_hostname |};
     DefinitionDescriptor.concourse_target_cfg := concourse (cfg_set self);
     DefinitionDescriptor.concourse_target_team := team_name (job_mapping self);
     DefinitionDescriptor.override_definitions :=
       OList [match dict_get overrides (fst item) with Some o => o | None => YDict [] end];
     DefinitionDescriptor.exception := None;
     DefinitionDescriptor.pipeline := None |}.

End WrapVocabulary.

Section ScanVocabulary.
Import DefinitionEnumerator.
Context `{Builtins}.

(** The properties of a descriptor the scan of a repository yields. *)
Definition scanned (self : DefinitionEnumerator.t) (repository : Repository)
    (github_cfg : GithubConfig) (org_name : string) (d : DefinitionDescriptor.t) : Prop :=
  path (DefinitionDescriptor.main_repo d) = org_name +:+ "/" +:+ repo_name repository /\
  hostname (DefinitionDescriptor.main_repo d) = urlparse_hostname (http_url github_cfg) /\
  DefinitionDescriptor.concourse_target_cfg d = concourse (cfg_set self) /\
  DefinitionDescriptor.concourse_target_team d = team_name (job_mapping self) /\
  DefinitionDescriptor.pipeline d = None /\
  DefinitionDescriptor.pipeline_name d ≠ "" /\
  (DefinitionDescriptor.exception d = None \/
   DefinitionDescriptor.pipeline_name d = "<invalid YAML>" /\
   DefinitionDescriptor.pipeline_definition d = YDict [] /\
   DefinitionDescriptor.override_definitions d = OTuple []).

End ScanVocabulary.

Section SimpleFileVocabulary.
Import SimpleFileDefinitionEnumerator.

(** The error descriptor of the single-file enumerator. *)
Definition invalid_descriptor (self : SimpleFileDefinitionEnumerator.t) (e : exn)
    : DefinitionDescriptor.t :=
  {| DefinitionDescriptor.pipeline_name := "<invalid YAML>";
     DefinitionDescriptor.pipeline_definition := YDict [];
     DefinitionDescriptor.main_repo :=
       {| path := repo_path self; branch := repo_branch self; hostname := repo_host self |};
     DefinitionDescriptor.concourse_target_cfg := concourse (cfg_set self);
     DefinitionDescriptor.concourse_target_team := team_name (job_mapping self);
     DefinitionDescriptor.override_definitions := OTuple [];
     DefinitionDescriptor.exception := Some e;
     DefinitionDescriptor.pipeline := None |}.

End SimpleFileVocabulary.

Section ClientVocabulary.
Import DefinitionDescriptor.

(** The target of the calls a deploy of [d] makes. *)
Definition deploy_target (d : DefinitionDescriptor.t) : Target :=
  (cfg_name (concourse_target_cfg d), concourse_target_team d).

(** The target a call of the CI client is made at. *)
Definition call_target (c : ApiCall) : Target :=
  match c with
  | FromCfg t | SetPipeline t _ _ | UnpausePipeline t _ | ExposePipeline t _
  | Pipelines t | DeletePipeline t _ | PipelineResources t _
  | TriggerResourceCheck t _ _ | OrderPipelines t _ => t
  end.

End ClientVocabulary.

Section ProcessorTraceVocabulary.
Import ReplicationResultProcessor.
Context `{ConcourseClient}.

(** The calls that initialise the pipelines the results of a bucket report
    as created, when none of them raises. *)
Definition initialise_calls (t : Target) (members : list DeployResult.t) : list ApiCall :=
  flat_map
    (fun p =>
       [UnpausePipeline t p; PipelineResources t p] ++
       map (fun resource => TriggerResourceCheck t p (resource_name resource))
           (List.filter has_webhook_token (pipeline_resources_of t p)))
    (map DeployResult.name
       (List.filter (fun r => DeployResult.has r DeployStatus.CREATED) members)).

(** The names removed for a bucket, in the order of the elements of the set
    difference, and the names kept, in the server's order. *)
Definition stale_names (known : list string) (members : list DeployResult.t) : list string :=
  elements (list_to_set known ∖ deployed_pipeline_names members : gset string).

Definition kept_names (known : list string) (members : list DeployResult.t) : list string :=
  filter (fun p => p ∈ map DeployResult.name members) known.

(** The calls of one turn of the loop over the buckets, when none of them
    raises; [known] are the pipelines the target lists at the start. *)
Definition reconcile_calls (known : list string) (members : list DeployResult.t)
    : list ApiCall :=
  let t := bucket_target members in
  [FromCfg t] ++ [Pipelines t] ++
  map (DeletePipeline t) (stale_names known members) ++
  initialise_calls t members ++
  [Pipelines t] ++ [OrderPipelines t (sort_strings (kept_names known members))].

Definition replication_calls (results : list DeployResult.t) (w : World) : list ApiCall :=
  flat_map
    (fun bucket =>
       reconcile_calls (pipelines_at w (bucket_target (snd bucket))) (snd bucket))
    (concourse_target_results results).

(** The calls that initialise one created pipeline, when none of them
    raises. *)
Definition initialise_pipeline_calls (t : Target) (p : string) : list ApiCall :=
  [UnpausePipeline t p; PipelineResources t p] ++
  map (fun resource => TriggerResourceCheck t p (resource_name resource))
      (List.filter has_webhook_token (pipeline_resources_of t p)).

(** The names of the pipelines the members of a bucket report as created,
    one for each such member. *)
Definition created_names (members : list DeployResult.t) : list string :=
  map DeployResult.name
    (List.filter (fun r => DeployResult.has r DeployStatus.CREATED) members).

(** The calls of a turn at the target [t] that removes the names [stale] in
    this order, initialises the pipelines [created] in this order and hands
    [ordered] to the reordering. *)
Definition turn_calls (t : Target) (stale created ordered : list string) : list ApiCall :=
  [FromCfg t] ++ [Pipelines t] ++
  map (DeletePipeline t) stale ++
  flat_map (initialise_pipeline_calls t) created ++
  [Pipelines t] ++ [OrderPipelines t ordered].

(** [calls] are the calls of a turn for the bucket [members] in the state
    [w], up to what Python leaves open when it walks a set: the member whose
    descriptor gives the target, the order of the removals and the order in
    which the created pipelines are initialised. *)
Definition turn_of (w : World) (members : list DeployResult.t) (calls : list ApiCall)
    : Prop :=
  exists member stale created,
    member ∈ members /\
    stale ≡ₚ stale_names (pipelines_at w (DeployResult.target member)) members /\
    created ≡ₚ created_names members /\
    calls = turn_calls (DeployResult.target member) stale created
              (sort_strings
                 (kept_names (pipelines_at w (DeployResult.target member)) members)).

(** [calls] are the calls of a run over [results] from the state [w]: one
    turn for every bucket, in the order of the buckets. *)
Definition run_of (results : list DeployResult.t) (w : World) (calls : list ApiCall)
    : Prop :=
  exists turns,
    Forall2 (fun bucket turn => turn_of w (snd bucket) turn)
            (concourse_target_results results) turns /\
    calls = concat turns.

End ProcessorTraceVocabulary.

(** ** The descriptor preprocessor *)

Section PreprocessorFacts.
Import DefinitionDescriptor DefinitionDescriptorPreprocessor.

(** On a list of overrides the preprocessor returns the object renamed, with
    the layer of the main repository appended; on a tuple it raises. *)
Lemma process_definition_descriptor_list (d : DefinitionDescriptor.t) (l : list yaml) :
  override_definitions d = OList l ->
  process_definition_descriptor d =
    Ok (set_override_definitions (_add_branch_to_pipeline_name d)
          (OList (l ++ [YDict [("base_definition",
                                YDict [("repo", main_repo_dict (main_repo d))])]]))).
Proof.
  intros Hl. unfold process_definition_descriptor, _inject_main_repo. cbn.
  now rewrite Hl.
Qed.

Lemma process_definition_descriptor_tuple (d : DefinitionDescriptor.t) (l : list yaml) :
  override_definitions d = OTuple l ->
  process_definition_descriptor d = Raise (AttributeError "append").
Proof.
  intros Hl. unfold process_definition_descriptor, _inject_main_repo. cbn.
  now rewrite Hl.
Qed.

(** C9 as amended: on a descriptor whose [override_definitions] is a list the
    preprocessor returns the descriptor with [pipeline_name] rewritten to
    ["<name>-<branch>"] (the branch of the main repository) and exactly one
    layer [{base_definition: {repo: main_repo}}] appended at the end of
    [override_definitions]; [pipeline_definition], [main_repo] and the other
    attributes stay as they were. *)
Theorem preprocessor_renames_and_injects (d : DefinitionDescriptor.t) (l : list yaml) :
  override_definitions d = OList l ->
  exists d',
    process_definition_descriptor d = Ok d' /\
    pipeline_name d' = pipeline_name d +:+ "-" +:+ branch (main_repo d) /\
    override_definitions d' =
      OList (l ++ [YDict [("base_definition",
                           YDict [("repo", main_repo_dict (main_repo d))])]]) /\
    length (layers (override_definitions d')) = S (length l) /\
    pipeline_definition d' = pipeline_definition d /\
    main_repo d' = main_repo d /\
    concourse_target d' = concourse_target d /\
    exception d' = exception d /\
    pipeline d' = pipeline d.
Proof.
  intros Hl. eexists. split; [exact (process_definition_descriptor_list d l Hl) |].
  cbn. repeat split; try reflexivity.
  rewrite length_app. cbn. lia.
Qed.

End PreprocessorFacts.

(** ** The orchestrator *)

Section OrchestratorFacts.
Import PipelineReplicator.
Variable self : PipelineReplicator.t.

(** C6: a descriptor that carries a discovery exception yields a SKIPPED
    result with that exception as error detail, and no collaborator is
    invoked (the server is left alone); a descriptor without exception whose
    render result is FAILED yields a SKIPPED result with the render error
    detail, and the deployer is not invoked. *)
Theorem skipped_without_deploying (d : DefinitionDescriptor.t) (w : World) :
  (forall e, DefinitionDescriptor.exception d = Some e ->
     _process_definition_descriptor self d w =
       (Ok {| DeployResult.definition_descriptor := d;
              DeployResult.deploy_status := DeployStatus.SKIPPED;
              DeployResult.error_details := Some (ExceptionObject e) |},
        w, [], [])) /\
  (DefinitionDescriptor.exception d = None ->
   forall preprocessed w1 l1 rendered w2 l2,
     descriptor_preprocessor self d w = (Ok preprocessed, w1, l1) ->
     definition_renderer self preprocessed w1 = (Ok rendered, w2, l2) ->
     RenderResult.render_status rendered = RenderStatus.FAILED ->
     exists deploy_result stages,
       _process_definition_descriptor self d w = (Ok deploy_result, w2, l1 ++ l2, stages) /\
       DeployResult.deploy_status deploy_result = DeployStatus.SKIPPED /\
       DeployResult.error_details deploy_result =
         option_map Traceback (RenderResult.error_details rendered) /\
       Deployer ∉ stages).
Proof.
  split.
  - intros e He. unfold _process_definition_descriptor. now rewrite He.
  - intros Hnone preprocessed w1 l1 rendered w2 l2 Hpre Hren Hfailed.
    unfold _process_definition_descriptor.
    rewrite Hnone, Hpre, Hren, Hfailed.
    eexists _, _. repeat split.
    intros Hin. repeat (apply elem_of_cons in Hin as [Hin | Hin]; [discriminate |]).
    now apply elem_of_nil in Hin.
Qed.

End OrchestratorFacts.

(** ** The CI deployer *)

Section DeployerFacts.
Import ConcourseDeployer DefinitionDescriptor.
Context `{Builtins} `{ConcourseClient}.

(** C8: a deploy whose calls all complete returns SUCCEEDED|CREATED when
    [set_pipeline] reports CREATED and exactly SUCCEEDED when it reports
    UPDATED, after unpausing and exposing the pipeline when so configured;
    an exception raised by any call of the sequence yields FAILED with the
    formatted trace as error detail. *)
Theorem deploy_status_by_response (self : ConcourseDeployer.t)
    (d : DefinitionDescriptor.t) (text : string) (w : World) :
  pipeline d = Some text ->
  let target := (cfg_name (concourse_target_cfg d), concourse_target_team d) in
  let attempted := attempted_calls self d text in
  (forall response w1 l1,
     client.first_fault attempted = None ->
     client.set_pipeline target (pipeline_name d) text w = (Ok (Some response), w1, l1) ->
     deploy self d w =
       (Ok {| DeployResult.definition_descriptor := d;
              DeployResult.deploy_status :=
                match response with
                | CREATED => Z.lor DeployStatus.SUCCEEDED DeployStatus.CREATED
                | UPDATED => DeployStatus.SUCCEEDED
                end;
              DeployResult.error_details := None |},
        w1, attempted) /\
     (unpause_pipelines self = true ->
      UnpausePipeline target (pipeline_name d) ∈ attempted) /\
     (expose_pipelines self = true ->
      ExposePipeline target (pipeline_name d) ∈ attempted)) /\
  (forall e,
     client.first_fault attempted = Some e ->
     is_Exception e = true ->
     exists w' l,
       deploy self d w =
         (Ok {| DeployResult.definition_descriptor := d;
                DeployResult.deploy_status := DeployStatus.FAILED;
                DeployResult.error_details := Some (Traceback (format_exc e)) |},
          w', l)).
Proof.
  intros Htext target attempted. split.
  - intros response w1 l1 Hnone Hset. split; [| split].
    + unfold deploy. rewrite Htext.
      unfold attempted, attempted_calls in Hnone. cbn in Hnone.
      fold target in Hnone.
      unfold try_except, bindM, client.from_cfg. fold target.
      unfold client.api_call at 1.
      destruct (api_fault (FromCfg target)); [discriminate |]. cbn [fst snd].
      rewrite Hset.
      unfold client.set_pipeline, client.api_call in Hset.
      destruct (api_fault (SetPipeline target _ _)); [discriminate |].
      injection Hset as Hresp Hw Hl. subst l1.
      unfold attempted, attempted_calls. fold target.
      destruct (unpause_pipelines self), (expose_pipelines self); cbn in Hnone |- *;
        unfold client.unpause_pipeline, client.expose_pipeline, client.api_call, ret;
        repeat match type of Hnone with
               | context [api_fault ?c] => destruct (api_fault c); [discriminate |]
               end;
        cbn; destruct response; reflexivity.
    + intros Hu. unfold attempted, attempted_calls. rewrite Hu. fold target.
      set_solver.
    + intros He. unfold attempted, attempted_calls. rewrite He. fold target.
      set_solver.
  - intros e Hfault Hexc.
    unfold deploy. rewrite Htext.
    unfold attempted, attempted_calls in Hfault. cbn in Hfault. fold target in Hfault.
    unfold try_except, bindM, client.from_cfg. fold target.
    unfold client.api_call at 1.
    destruct (api_fault (FromCfg target)) as [e0 |].
    { injection Hfault as ->. rewrite Hexc. cbn. eauto. }
    cbn [fst snd].
    unfold client.set_pipeline, client.api_call.
    destruct (api_fault (SetPipeline target _ _)) as [e0 |].
    { injection Hfault as ->. rewrite Hexc. cbn. eauto. }
    cbn [fst snd].
    destruct (unpause_pipelines self), (expose_pipelines self); cbn in Hfault |- *;
      unfold client.unpause_pipeline, client.expose_pipeline, client.api_call, ret;
      repeat match type of Hfault with
             | context [api_fault ?c] =>
                 destruct (api_fault c) as [e0 |];
                 [injection Hfault as ->; rewrite Hexc; cbn; eauto |]
             end;
      try discriminate.
Qed.

End DeployerFacts.

(** ** The renderer *)

Section RendererFacts.
Import Renderer DefinitionDescriptor.
Context `{Builtins} `{Util} `{FileSystem} `{Templating}.

(** [render] lets an error through only if it is no [Exception]. *)
Lemma render_raises_no_Exception (self : Renderer.t) (d : DefinitionDescriptor.t) (e : exn) :
  render self d = Raise e -> is_Exception e = false.
Proof.
  unfold render. destruct (_render self d) as [d' | e']; [discriminate |].
  destruct (is_Exception e') eqn:He'; [discriminate |].
  now intros [= <-].
Qed.

(** With both a non-empty [jobs] mapping and a non-empty [variants] mapping
    in the merged definition, [_render] raises: the error of the template
    name or of template retrieval, or else the RuntimeError that names the
    pipeline. *)
Lemma _render_raises_on_jobs_and_variants (self : Renderer.t)
    (d : DefinitionDescriptor.t) (eff : dict) (j v : string * yaml) (js vs : dict) :
  effective_definition d = Ok (YDict eff) ->
  dict_get eff "jobs" = Some (YDict (j :: js)) ->
  dict_get eff "variants" = Some (YDict (v :: vs)) ->
  _render self d =
    match (name <- template_name d ;;
           TemplateRetriever.template_contents (template_retriever self) name) with
    | Raise e => Raise e
    | Ok _ =>
        Raise (PyException "RuntimeError"
                 ("Both 'jobs' and 'variants' are defined in pipeline '"
                  +:+ pipeline_name d +:+ "'"))
    end.
Proof.
  intros Heff Hjobs Hvariants.
  unfold _render, _render_locals. rewrite Heff. cbn [bind].
  destruct (template_name d) as [name | e]; cbn [bind]; [| reflexivity].
  destruct (TemplateRetriever.template_contents (template_retriever self) name)
    as [contents | e]; cbn [bind get]; [| reflexivity].
  now rewrite Hjobs, Hvariants.
Qed.

(** C7 as amended: when the merged definition holds both a non-empty [jobs]
    mapping and a non-empty [variants] mapping, every result [render]
    returns is FAILED with an error detail, never SUCCEEDED.  Either
    [render] returns such a result, or template retrieval (which runs before
    the check) raises an error that is no [Exception], and that error
    escapes [render]; [render] raises in that case only.  With the template
    at hand the error detail is the trace of the RuntimeError that names the
    pipeline. *)
Theorem render_fails_on_jobs_and_variants (self : Renderer.t)
    (d : DefinitionDescriptor.t) (eff : dict) (j v : string * yaml) (js vs : dict) :
  effective_definition d = Ok (YDict eff) ->
  dict_get eff "jobs" = Some (YDict (j :: js)) ->
  dict_get eff "variants" = Some (YDict (v :: vs)) ->
  (forall res,
     render self d = Ok res ->
     exists details,
       res = {| RenderResult.definition_descriptor := d;
                RenderResult.render_status := RenderStatus.FAILED;
                RenderResult.error_details := Some details |}) /\
  ((exists details,
      render self d =
        Ok {| RenderResult.definition_descriptor := d;
              RenderResult.render_status := RenderStatus.FAILED;
              RenderResult.error_details := Some details |}) \/
   (exists name e,
      template_name d = Ok name /\
      TemplateRetriever.template_contents (template_retriever self) name = Raise e /\
      is_Exception e = false /\
      render self d = Raise e)) /\
  (forall e,
     render self d = Raise e <->
     exists name,
       template_name d = Ok name /\
       TemplateRetriever.template_contents (template_retriever self) name = Raise e /\
       is_Exception e = false) /\
  (forall name contents,
     template_name d = Ok name ->
     TemplateRetriever.template_contents (template_retriever self) name = Ok contents ->
     render self d =
       Ok {| RenderResult.definition_descriptor := d;
             RenderResult.render_status := RenderStatus.FAILED;
             RenderResult.error_details :=
               Some (format_exc
                       (PyException "RuntimeError"
                          ("Both 'jobs' and 'variants' are defined in pipeline '"
                           +:+ pipeline_name d +:+ "'"))) |}).
Proof.
  intros Heff Hjobs Hvariants.
  pose proof (_render_raises_on_jobs_and_variants self d eff j v js vs
                Heff Hjobs Hvariants) as Hraise.
  split; [| split; [| split]].
  - intros res Hres. unfold render in Hres.
    destruct (_render self d) as [d' | e].
    + destruct (name <- template_name d ;;
                TemplateRetriever.template_contents (template_retriever self) name);
        discriminate.
    + destruct (is_Exception e); [| discriminate].
      injection Hres as <-. eauto.
  - unfold render. rewrite Hraise.
    destruct (template_name d) as [name | e] eqn:Hname; cbn [bind].
    + destruct (TemplateRetriever.template_contents (template_retriever self) name)
        as [contents | e] eqn:Hcontents.
      * cbn. eauto.
      * destruct (is_Exception e) eqn:He; [eauto |].
        right. exists name, e. auto.
    + unfold template_name, get in Hname.
      destruct (pipeline_definition d); try discriminate;
        injection Hname as <-; cbn; eauto.
  - intros e. unfold render. rewrite Hraise.
    destruct (template_name d) as [name | e0] eqn:Hname; cbn [bind].
    + destruct (TemplateRetriever.template_contents (template_retriever self) name)
        as [contents | e0] eqn:Hcontents.
      * cbn. split; [discriminate |]. intros (name' & [= <-] & Hc & _). congruence.
      * destruct (is_Exception e0) eqn:He.
        -- split; [discriminate |]. intros (name' & [= <-] & Hc & He'). congruence.
        -- split.
           ++ intros [= <-]. exists name. auto.
           ++ intros (name' & [= <-] & Hc & _). congruence.
    + split.
      * unfold template_name, get in Hname.
        destruct (pipeline_definition d); try discriminate;
          injection Hname as <-; cbn; discriminate.
      * intros (name' & [=] & _).
  - intros name contents Hname Hcontents.
    unfold render. rewrite Hraise, Hname. cbn [bind]. rewrite Hcontents. reflexivity.
Qed.

(** The for/else over the variants: the first variant with a main
    repository gives ["<name>-<branch>"], whatever follows it; without such
    a variant the name stays bare. *)
Lemma derived_pipeline_name_first (name : string) (before after : list Variant)
    (variant : Variant) (repo : RepositoryConfig) :
  (forall v, In v before -> main_repository v = None) ->
  main_repository variant = Some repo ->
  derived_pipeline_name name (before ++ variant :: after)
  = name +:+ "-" +:+ repo_cfg_branch repo.
Proof.
  intros Hbefore Hrepo. induction before as [| v before IH]; cbn.
  - now rewrite Hrepo.
  - rewrite (Hbefore v) by now left. apply IH. intros v' Hv'. apply Hbefore. now right.
Qed.

Lemma derived_pipeline_name_bare (name : string) (vs : list Variant) :
  (forall v, In v vs -> main_repository v = None) ->
  derived_pipeline_name name vs = name.
Proof.
  intros Hnone. induction vs as [| v vs IH]; cbn; [reflexivity |].
  rewrite (Hnone v) by now left. apply IH. intros v' Hv'. apply Hnone. now right.
Qed.

(** C3 as amended: a successful render attaches the rendered text to the
    descriptor and leaves [pipeline_name] as it was.  The name handed to the
    template as [pipeline_name] of the metadata is
    ["<definition-name>-<branch>"] with the branch of the first variant (in
    the order of the generated model) that has a main repository, and the
    bare definition name when no variant has one. *)
Theorem render_attaches_text_only (self : Renderer.t) (d : DefinitionDescriptor.t)
    (res : RenderResult.t) :
  render self d = Ok res ->
  RenderResult.render_status res = RenderStatus.SUCCEEDED ->
  exists locals lookup text,
    _render_locals self d = Ok locals /\
    md_pipeline_name (pipeline_metadata locals) =
      derived_pipeline_name (pipeline_name d)
        (PipelineDefinition.variants (generated_model locals)) /\
    (forall before variant after repo,
       PipelineDefinition.variants (generated_model locals)
         = before ++ variant :: after ->
       (forall v, In v before -> main_repository v = None) ->
       main_repository variant = Some repo ->
       md_pipeline_name (pipeline_metadata locals)
         = pipeline_name d +:+ "-" +:+ repo_cfg_branch repo) /\
    ((forall v, In v (PipelineDefinition.variants (generated_model locals)) ->
        main_repository v = None) ->
     md_pipeline_name (pipeline_metadata locals) = pipeline_name d) /\
    template_render (template_contents locals) lookup (generated_model locals)
      (Renderer.cfg_set self) (pipeline_metadata locals) = Ok text /\
    RenderResult.definition_descriptor res = set_pipeline d text /\
    pipeline (RenderResult.definition_descriptor res) = Some text /\
    pipeline_name (RenderResult.definition_descriptor res) = pipeline_name d.
Proof.
  intros Hrender Hstatus.
  unfold render in Hrender.
  destruct (_render self d) as [d' | e] eqn:Hr.
  - injection Hrender as <-. cbn.
    unfold _render in Hr.
    destruct (_render_locals self d) as [locals | e] eqn:Hlocals; [| discriminate].
    cbn [bind] in Hr.
    destruct (lookup self) as [lk | e]; [| discriminate]. cbn [bind] in Hr.
    unfold self_cfg_set in Hr.
    destruct (has_include_dir self); [| discriminate]. cbn [bind] in Hr.
    destruct (template_render _ _ _ _ _) as [text | e] eqn:Htext; [| discriminate].
    injection Hr as <-.
    assert (Hname : md_pipeline_name (pipeline_metadata locals) =
                      derived_pipeline_name (pipeline_name d)
                        (PipelineDefinition.variants (generated_model locals))).
    { clear Htext. unfold _render_locals in Hlocals.
      repeat match type of Hlocals with
             | bind ?m _ = Ok _ => destruct m; [cbn [bind] in Hlocals | discriminate]
             | (if ?b then _ else _) = Ok _ => destruct b; [discriminate |]
             end.
      injection Hlocals as <-. reflexivity. }
    exists locals, lk, text.
    split; [reflexivity |]. split; [exact Hname |]. split; [| split].
    + intros before variant after repo Hvariants Hbefore Hrepo.
      rewrite Hname, Hvariants. now apply derived_pipeline_name_first.
    + intros Hnone. rewrite Hname. now apply derived_pipeline_name_bare.
    + repeat split; assumption.
  - destruct (is_Exception e); [| discriminate].
    injection Hrender as <-. discriminate.
Qed.

End RendererFacts.

(** ** The result processor *)

Section WorldMonadFacts.
Context `{ConcourseClient}.

Lemma bindM_inv {A B} (m : M A) (k : A -> M B) w r w' l :
  bindM m k w = (r, w', l) ->
  (exists a w1 l1 l2,
     m w = (Ok a, w1, l1) /\ k a w1 = (r, w', l2) /\ l = l1 ++ l2) \/
  (exists e, m w = (Raise e, w', l) /\ r = Raise e).
Proof.
  unfold bindM. destruct (m w) as [[[a | e] w1] l1].
  - destruct (k a w1) as [[r2 w2] l2] eqn:Hk. intros [= <- <- <-].
    left. eauto 10.
  - intros [= <- <- <-]. right. eauto.
Qed.

Lemma api_call_inv {A} (c : ApiCall) (effect : World -> A * World) w r w' l :
  client.api_call c effect w = (r, w', l) ->
  (api_fault c = None /\ r = Ok (fst (effect w)) /\ w' = snd (effect w) /\ l = [c]) \/
  (exists e, api_fault c = Some e /\ r = Raise e /\ w' = w /\ l = []).
Proof.
  unfold client.api_call. destruct (api_fault c) as [e |].
  - intros [= <- <- <-]. right. eauto.
  - intros [= <- <- <-]. left. auto.
Qed.

Lemma pipelines_at_set_same w t l : pipelines_at (set_pipelines_at w t l) t = l.
Proof. unfold pipelines_at, set_pipelines_at. cbn. now rewrite lookup_insert_eq. Qed.

Lemma pipelines_at_set_other w t t' l :
  t' ≠ t -> pipelines_at (set_pipelines_at w t l) t' = pipelines_at w t'.
Proof.
  intros Hne. unfold pipelines_at, set_pipelines_at. cbn.
  now rewrite lookup_insert_ne by congruence.
Qed.

End WorldMonadFacts.

Section ReconcileFacts.
Import ReplicationResultProcessor DefinitionDescriptor.
Context `{ConcourseClient} `{Notification}.

Lemma quiet_ret {A} (a : A) : quiet (ret a).
Proof.
  intros w r w' l [= <- <- <-]. split; [reflexivity |].
  intros c Hc. now apply elem_of_nil in Hc.
Qed.

Lemma quiet_bind {A B} (m : M A) (k : A -> M B) :
  quiet m -> (forall a, quiet (k a)) -> quiet (bindM m k).
Proof.
  intros Hm Hk w r w' l Hrun.
  apply bindM_inv in Hrun as [(a & w1 & l1 & l2 & Hm1 & Hk1 & ->) | (e & Hm1 & ->)].
  - apply Hm in Hm1 as [-> Hl1]. apply Hk in Hk1 as [-> Hl2].
    split; [reflexivity |].
    intros c Hc. apply elem_of_app in Hc as [Hc | Hc]; auto.
  - now apply Hm in Hm1.
Qed.

Lemma quiet_forM {A} (l : list A) (body : A -> M unit) :
  (forall x, quiet (body x)) -> quiet (forM_ l body).
Proof.
  intros Hbody. induction l as [| x l IH]; cbn.
  - apply quiet_ret.
  - apply quiet_bind; auto.
Qed.

Lemma quiet_api_call {A} (c : ApiCall) (a : World -> A) :
  (forall t p, c ≠ DeletePipeline t p) ->
  quiet (client.api_call c (fun w => (a w, w))).
Proof.
  intros Hc w r w' l Hrun.
  apply api_call_inv in Hrun as [(_ & _ & -> & ->) | (e & _ & _ & -> & ->)]; cbn.
  - split; [reflexivity |]. intros c' Hin.
    apply list_elem_of_singleton in Hin as ->. exact Hc.
  - split; [reflexivity |]. intros c' Hin. now apply elem_of_nil in Hin.
Qed.

Lemma quiet_initialise (api : Target) (results : list DeployResult.t) :
  quiet (_initialise_new_pipeline_resources api results).
Proof.
  unfold _initialise_new_pipeline_resources.
  apply quiet_forM. intros name.
  apply quiet_bind; [apply quiet_api_call; discriminate |]. intros _.
  apply quiet_bind; [apply quiet_api_call; discriminate |]. intros resources.
  apply quiet_forM. intros resource. apply quiet_api_call. discriminate.
Qed.

(** The deleting loop: it deletes names of [ns] at [t] only, all of them
    when it runs to its end, and leaves the other targets alone. *)
Lemma delete_loop_spec (t : Target) (ns : list string) w r w' l :
  forM_ ns (fun pipeline_name => client.delete_pipeline t pipeline_name) w = (r, w', l) ->
  (forall c, c ∈ l -> exists p, c = DeletePipeline t p /\ p ∈ ns) /\
  (r = Ok tt -> forall p, p ∈ ns -> DeletePipeline t p ∈ l) /\
  (forall t', t' ≠ t -> pipelines_at w' t' = pipelines_at w t').
Proof.
  revert w r w' l. induction ns as [| n ns IH]; intros w r w' l Hrun; cbn in Hrun.
  - injection Hrun as <- <- <-. repeat split.
    + intros c Hc. now apply elem_of_nil in Hc.
    + intros _ p Hp. now apply elem_of_nil in Hp.
  - apply bindM_inv in Hrun as [(a & w1 & l1 & l2 & Hd & Hrest & ->) | (e & Hd & ->)].
    + apply api_call_inv in Hd as [(_ & _ & -> & ->) | (e & _ & [=] & _)].
      apply IH in Hrest as (Hsound & Hcomplete & Hframe). repeat split.
      * intros c Hc. apply elem_of_cons in Hc as [-> | Hc].
        -- exists n. split; [reflexivity | left].
        -- destruct (Hsound c Hc) as (p & -> & Hp). exists p. split; [reflexivity | now right].
      * intros Hok p Hp. apply elem_of_cons in Hp as [-> | Hp]; [left | right; auto].
      * intros t' Hne. rewrite (Hframe t' Hne). cbn.
        now apply pipelines_at_set_other.
    + apply api_call_inv in Hd as [(_ & [=] & _) | (e' & _ & _ & -> & ->)].
      repeat split.
      * intros c Hc. now apply elem_of_nil in Hc.
      * discriminate.
Qed.

(** What follows the deleting loop in one turn: it deletes nothing and
    leaves the other targets alone. *)
Lemma after_deleting_spec (t : Target) (members : list DeployResult.t) w r w' l :
  (_initialise_new_pipeline_resources t members ;~
   pipeline_names <~ client.pipelines t ;;
   client.order_pipelines t (sort_strings pipeline_names)) w = (r, w', l) ->
  (forall c, c ∈ l -> forall t' p, c ≠ DeletePipeline t' p) /\
  (forall t', t' ≠ t -> pipelines_at w' t' = pipelines_at w t').
Proof.
  intros Hrun.
  apply bindM_inv in Hrun as [(a & w1 & l1 & l2 & Hinit & Hrun & ->) | (e & Hinit & ->)].
  2: { apply quiet_initialise in Hinit as [-> Hl]. split; auto. }
  apply quiet_initialise in Hinit as [-> Hl1].
  apply bindM_inv in Hrun as [(ps & w2 & l2' & l3 & Hps & Hrun & ->) | (e & Hps & ->)].
  2: { apply (quiet_api_call (Pipelines t) (fun w => pipelines_at w t)) in Hps as [-> Hl2];
         [| discriminate].
       split; [| auto]. intros c Hc. apply elem_of_app in Hc as [Hc | Hc]; auto. }
  apply (quiet_api_call (Pipelines t) (fun w => pipelines_at w t)) in Hps as [-> Hl2];
    [| discriminate].
  apply api_call_inv in Hrun as [(_ & _ & -> & ->) | (e & _ & _ & -> & ->)].
  - split.
    + intros c Hc. apply elem_of_app in Hc as [Hc | Hc]; [auto |].
      apply elem_of_app in Hc as [Hc | Hc]; [auto |].
      apply list_elem_of_singleton in Hc as ->. discriminate.
    + intros t' Hne. cbn. now apply pipelines_at_set_other.
  - split; [| auto].
    intros c Hc. apply elem_of_app in Hc as [Hc | Hc]; [auto |].
    apply elem_of_app in Hc as [Hc | Hc]; [auto |]. now apply elem_of_nil in Hc.
Qed.

Lemma reconcile_target_spec (first : DeployResult.t) (rest : list DeployResult.t) w r w' l :
  reconcile_target (first :: rest) w = (r, w', l) ->
  let t := DeployResult.target first in
  let names := map DeployResult.name (first :: rest) in
  (forall t' p, DeletePipeline t' p ∈ l ->
     t' = t /\ p ∈ pipelines_at w t /\ p ∉ names) /\
  (r = Ok tt -> forall p, p ∈ pipelines_at w t -> p ∉ names -> DeletePipeline t p ∈ l) /\
  (forall t', t' ≠ t -> pipelines_at w' t' = pipelines_at w t').
Proof.
  intros Hrun t names.
  assert (Hdiff : forall p,
             p ∈ elements (list_to_set (pipelines_at w t) ∖
                           deployed_pipeline_names (first :: rest)) <->
             p ∈ pipelines_at w t /\ p ∉ names).
  { intros p. rewrite elem_of_elements, elem_of_difference, elem_of_list_to_set.
    unfold deployed_pipeline_names. rewrite elem_of_list_to_set. reflexivity. }
  unfold reconcile_target in Hrun.
  change (client.from_cfg _ _) with
    (client.api_call (FromCfg t) (fun w => (t, w))) in Hrun.
  apply bindM_inv in Hrun as [(a & w1 & l1 & l2 & Hcfg & Hrun & ->) | (e & Hcfg & ->)].
  2: { apply api_call_inv in Hcfg as [(_ & [=] & _) | (e' & _ & _ & -> & ->)].
       split; [| split]; [| discriminate | reflexivity].
       intros t' p Hin. now apply elem_of_nil in Hin. }
  apply api_call_inv in Hcfg as [(_ & [= ->] & -> & ->) | (e' & _ & [=] & _)].
  cbn beta iota delta [fst snd] in Hrun.
  apply bindM_inv in Hrun as [(known & w2 & l2' & l3 & Hps & Hrun & ->) | (e & Hps & ->)].
  2: { apply api_call_inv in Hps as [(_ & [=] & _) | (e' & _ & _ & -> & ->)].
       split; [| split]; [| discriminate | reflexivity].
       intros t' p Hin. apply list_elem_of_singleton in Hin. discriminate. }
  apply api_call_inv in Hps as [(_ & [= ->] & -> & ->) | (e' & _ & [=] & _)].
  cbn beta iota delta [fst snd] in Hrun.
  assert (Hsound_of : forall ld lrest,
             (forall c, c ∈ ld -> exists p, c = DeletePipeline t p /\
                p ∈ elements (list_to_set (pipelines_at w t) ∖
                              deployed_pipeline_names (first :: rest))) ->
             (forall c, c ∈ lrest -> forall t' p, c ≠ DeletePipeline t' p) ->
             forall t' p, DeletePipeline t' p ∈ [FromCfg t] ++ [Pipelines t] ++ ld ++ lrest ->
               t' = t /\ p ∈ pipelines_at w t /\ p ∉ names).
  { intros ld lrest Hld Hlrest t' p Hin.
    apply elem_of_cons in Hin as [[=] | Hin].
    apply elem_of_cons in Hin as [[=] | Hin].
    apply elem_of_app in Hin as [Hin | Hin].
    - destruct (Hld _ Hin) as (q & [= -> ->] & Hq). apply Hdiff in Hq. tauto.
    - now destruct (Hlrest _ Hin t' p). }
  apply bindM_inv in Hrun as [(u & w3 & l3' & l4 & Hdel & Hrun & ->) | (e & Hdel & ->)].
  - apply delete_loop_spec in Hdel as (Hsound & Hcomplete & Hframe).
    apply after_deleting_spec in Hrun as (Hnodel & Hframe').
    split; [| split].
    + now apply Hsound_of.
    + intros Hok p Hp Hnot. do 2 right. apply elem_of_app. left.
      apply Hcomplete; [destruct u; reflexivity |]. apply Hdiff. auto.
    + intros t' Hne. rewrite (Hframe' t' Hne). now apply Hframe.
  - apply delete_loop_spec in Hdel as (Hsound & _ & Hframe).
    split; [| split]; [| discriminate | exact Hframe].
    intros t' p Hin. apply (Hsound_of l3 []); [exact Hsound | | now rewrite app_nil_r].
    intros c Hc. now apply elem_of_nil in Hc.
Qed.

(** *** Grouping by target key *)

Lemma result_key_target (r : DeployResult.t) :
  result_key r = target_key (DeployResult.target r).
Proof. reflexivity. Qed.

Lemma add_result_keys bs k r :
  map fst (add_result bs k r) =
  if bool_decide (k ∈ map fst bs) then map fst bs else map fst bs ++ [k].
Proof.
  induction bs as [| [k1 m1] bs IH]; cbn.
  - reflexivity.
  - destruct (String.eqb k1 k) eqn:Hk.
    + apply String.eqb_eq in Hk as ->. cbn.
      rewrite bool_decide_eq_true_2 by left. reflexivity.
    + apply String.eqb_neq in Hk. cbn. rewrite IH.
      destruct (bool_decide (k ∈ map fst bs)) eqn:Hin.
      * apply bool_decide_eq_true_1 in Hin.
        rewrite bool_decide_eq_true_2 by now right. reflexivity.
      * apply bool_decide_eq_false_1 in Hin.
        rewrite bool_decide_eq_false_2; [reflexivity |].
        intros Hc. apply elem_of_cons in Hc as [-> | Hc]; tauto.
Qed.

Lemma add_result_elem bs k r k' ms :
  (k', ms) ∈ add_result bs k r ->
  (k', ms) ∈ bs \/
  (k' = k /\ r ∈ ms /\ forall x, x ∈ ms -> x = r \/ exists ms0, (k, ms0) ∈ bs /\ x ∈ ms0).
Proof.
  induction bs as [| [k1 m1] bs IH]; cbn.
  - intros Hin. apply list_elem_of_singleton in Hin as [= -> ->]. right.
    split; [reflexivity |]. split; [left |].
    intros x Hx. apply list_elem_of_singleton in Hx. auto.
  - destruct (String.eqb k1 k) eqn:Hk.
    + apply String.eqb_eq in Hk as ->. intros Hin.
      apply elem_of_cons in Hin as [[= -> ->] | Hin].
      * right. split; [reflexivity |]. split; [apply elem_of_app; right; left |].
        intros x Hx. apply elem_of_app in Hx as [Hx | Hx].
        -- right. exists m1. split; [left | exact Hx].
        -- apply list_elem_of_singleton in Hx. auto.
      * left. now right.
    + intros Hin. apply elem_of_cons in Hin as [[= -> ->] | Hin].
      * left. left.
      * destruct (IH Hin) as [Hold | (-> & Hr & Hms)].
        -- left. now right.
        -- right. split; [reflexivity |]. split; [exact Hr |].
           intros x Hx. destruct (Hms x Hx) as [-> | (ms0 & Hms0 & Hx0)]; [auto |].
           right. exists ms0. split; [now right | exact Hx0].
Qed.

Lemma add_result_keeps bs k r k' ms x :
  (k', ms) ∈ bs -> x ∈ ms -> exists ms', (k', ms') ∈ add_result bs k r /\ x ∈ ms'.
Proof.
  induction bs as [| [k1 m1] bs IH]; cbn.
  - intros Hin. now apply elem_of_nil in Hin.
  - intros Hin Hx. destruct (String.eqb k1 k) eqn:Hk.
    + apply elem_of_cons in Hin as [[= -> ->] | Hin].
      * exists (m1 ++ [r]). split; [left | apply elem_of_app; now left].
      * exists ms. split; [now right | exact Hx].
    + apply elem_of_cons in Hin as [[= -> ->] | Hin].
      * exists m1. split; [left | exact Hx].
      * destruct (IH Hin Hx) as (ms' & Hms' & Hx'). exists ms'. split; [now right | exact Hx'].
Qed.

Lemma add_result_has bs k r : exists ms, (k, ms) ∈ add_result bs k r /\ r ∈ ms.
Proof.
  induction bs as [| [k1 m1] bs IH]; cbn.
  - exists [r]. split; left.
  - destruct (String.eqb k1 k) eqn:Hk.
    + apply String.eqb_eq in Hk as ->. exists (m1 ++ [r]).
      split; [left | apply elem_of_app; right; left].
    + destruct IH as (ms & Hms & Hr). exists ms. split; [now right | exact Hr].
Qed.

Lemma grouped_add done bs r :
  grouped done bs -> grouped (done ++ [r]) (add_result bs (result_key r) r).
Proof.
  intros (Hnodup & Hmembers & Hall). split; [| split].
  - rewrite add_result_keys. case_bool_decide as Hin; [exact Hnodup |].
    apply NoDup_app. split; [exact Hnodup |]. split.
    + intros k Hk Hk'. apply list_elem_of_singleton in Hk' as ->. contradiction.
    + apply NoDup_singleton.
  - intros k ms Hin. apply add_result_elem in Hin as [Hold | (-> & Hr & Hms)].
    + destruct (Hmembers k ms Hold) as [Hne Hkeys]. split; [exact Hne |].
      intros x Hx. destruct (Hkeys x Hx). split; [assumption |].
      apply elem_of_app. now left.
    + split; [intros ->; now apply elem_of_nil in Hr |].
      intros x Hx. destruct (Hms x Hx) as [-> | (ms0 & Hms0 & Hx0)].
      * split; [reflexivity | apply elem_of_app; right; left].
      * destruct (Hmembers _ _ Hms0) as [_ Hkeys]. destruct (Hkeys x Hx0).
        split; [assumption | apply elem_of_app; now left].
  - intros x Hx. apply elem_of_app in Hx as [Hx | Hx].
    + destruct (Hall x Hx) as (ms & Hms & Hxms).
      now apply add_result_keeps with (ms := ms).
    + apply list_elem_of_singleton in Hx as ->. apply add_result_has.
Qed.

Lemma grouped_fold results : forall done bs,
  grouped done bs ->
  grouped (done ++ results)
    (fold_left (fun buckets result => add_result buckets (result_key result) result)
               results bs).
Proof.
  induction results as [| r results IH]; intros done bs Hg; cbn.
  - now rewrite app_nil_r.
  - replace (done ++ r :: results) with ((done ++ [r]) ++ results)
      by now rewrite <- app_assoc.
    apply IH. now apply grouped_add.
Qed.

Lemma concourse_target_results_grouped (results : list DeployResult.t) :
  grouped results (concourse_target_results results).
Proof.
  apply (grouped_fold results [] []). split; [constructor | split].
  - intros k ms Hin. now apply elem_of_nil in Hin.
  - intros r Hr. now apply elem_of_nil in Hr.
Qed.

Lemma NoDup_map_inj {A B} (f : A -> B) (l : list A) x y :
  NoDup (map f l) -> x ∈ l -> y ∈ l -> f x = f y -> x = y.
Proof.
  induction l as [| a l IH]; intros Hnd Hx Hy Hf.
  - now apply elem_of_nil in Hx.
  - cbn in Hnd. apply NoDup_cons in Hnd as [Ha Hnd].
    apply elem_of_cons in Hx as [-> | Hx]; apply elem_of_cons in Hy as [-> | Hy].
    + reflexivity.
    + exfalso. apply Ha. rewrite Hf. apply list_elem_of_fmap. now exists y.
    + exfalso. apply Ha. rewrite <- Hf. apply list_elem_of_fmap. now exists x.
    + now apply IH.
Qed.

(** Distinct buckets are reconciled at distinct targets. *)
Lemma grouped_targets_NoDup results bs :
  grouped results bs -> NoDup (map (fun b => bucket_target (snd b)) bs).
Proof.
  intros (Hnodup & Hmembers & _).
  assert (Hkeys : map fst bs = map target_key (map (fun b => bucket_target (snd b)) bs)).
  { rewrite map_map. apply map_ext_in. intros [k ms] Hin.
    apply list_elem_of_In in Hin. destruct (Hmembers k ms Hin) as [Hne Hk].
    destruct ms as [| first rest]; [contradiction |].
    cbn. destruct (Hk first) as [<- _]; [left | reflexivity]. }
  rewrite Hkeys in Hnodup. revert Hnodup.
  generalize (map (fun b => bucket_target (snd b)) bs). intros l.
  induction l as [| t l IH]; cbn; intros Hnd; [constructor |].
  apply NoDup_cons in Hnd as [Ht Hnd]. apply NoDup_cons. split; [| auto].
  intros Hin. apply Ht. apply list_elem_of_fmap. now exists t.
Qed.

(** The loop over the buckets. *)
Lemma reconcile_all_spec (bs : list (string * list DeployResult.t)) :
  (forall k ms, (k, ms) ∈ bs -> ms ≠ []) ->
  NoDup (map (fun b => bucket_target (snd b)) bs) ->
  forall w r w' l,
    forM_ bs (fun bucket => reconcile_target (snd bucket)) w = (r, w', l) ->
    (forall t p, DeletePipeline t p ∈ l ->
       exists k ms, (k, ms) ∈ bs /\ t = bucket_target ms /\
                    p ∈ pipelines_at w t /\ p ∉ map DeployResult.name ms) /\
    (r = Ok tt -> forall k ms, (k, ms) ∈ bs ->
       forall p, p ∈ pipelines_at w (bucket_target ms) ->
                 p ∉ map DeployResult.name ms ->
                 DeletePipeline (bucket_target ms) p ∈ l) /\
    (forall t, (forall k ms, (k, ms) ∈ bs -> bucket_target ms ≠ t) ->
       pipelines_at w' t = pipelines_at w t).
Proof.
  induction bs as [| [k0 ms0] bs IH]; intros Hne Hnd w r w' l Hrun; cbn in Hrun.
  - injection Hrun as <- <- <-. split; [| split].
    + intros t p Hin. now apply elem_of_nil in Hin.
    + intros _ k ms Hin. now apply elem_of_nil in Hin.
    + reflexivity.
  - cbn in Hnd. apply NoDup_cons in Hnd as [Hfresh Hnd].
    assert (Hne' : forall k ms, (k, ms) ∈ bs -> ms ≠ []).
    { intros k ms Hin. apply (Hne k). now right. }
    assert (Hother : forall k ms, (k, ms) ∈ bs -> bucket_target ms ≠ bucket_target ms0).
    { intros k ms Hin Heq. apply Hfresh. rewrite <- Heq.
      apply list_elem_of_fmap. now exists (k, ms). }
    destruct ms0 as [| first rest]; [now destruct (Hne k0 []); [left |] |].
    apply bindM_inv in Hrun as [(u & w1 & l1 & l2 & Hhead & Htail & ->) | (e & Hhead & ->)].
    + apply reconcile_target_spec in Hhead as (Hsound1 & Hcomplete1 & Hframe1).
      apply (IH Hne' Hnd) in Htail as (Hsound2 & Hcomplete2 & Hframe2).
      split; [| split].
      * intros t p Hin. apply elem_of_app in Hin as [Hin | Hin].
        -- destruct (Hsound1 t p Hin) as (-> & Hp & Hnot).
           exists k0, (first :: rest). split; [left | auto].
        -- destruct (Hsound2 t p Hin) as (k & ms & Hb & -> & Hp & Hnot).
           exists k, ms. split; [now right |]. split; [reflexivity |].
           rewrite <- (Hframe1 (bucket_target ms)); [auto |]. now apply (Hother k).
      * intros Hok k ms Hin p Hp Hnot. apply elem_of_app.
        apply elem_of_cons in Hin as [[= -> ->] | Hin].
        -- left. apply Hcomplete1; [destruct u; reflexivity | exact Hp | exact Hnot].
        -- right. apply (Hcomplete2 Hok k ms Hin); [| exact Hnot].
           rewrite (Hframe1 (bucket_target ms)); [exact Hp |]. now apply (Hother k).
      * intros t Ht. rewrite Hframe2.
        -- apply Hframe1. intros ->. now apply (Ht k0 (first :: rest)); [left |].
        -- intros k ms Hin. apply (Ht k). now right.
    + apply reconcile_target_spec in Hhead as (Hsound1 & _ & Hframe1).
      split; [| split].
      * intros t p Hin. destruct (Hsound1 t p Hin) as (-> & Hp & Hnot).
        exists k0, (first :: rest). split; [left | auto].
      * discriminate.
      * intros t Ht. apply Hframe1. intros ->. now apply (Ht k0 (first :: rest)); [left |].
Qed.

(** The notification loop never calls the server; when it returns, its value
    tells whether the flag was set and every notification returned. *)
Lemma notify_all_spec (failed : list DeployResult.t) : forall flag w r w' l,
  notify_all failed flag w = (r, w', l) ->
  l = [] /\ w' = w /\ forall b, r = Ok b -> b = flag && forallb notified failed.
Proof.
  induction failed as [| f failed IH]; intros flag w r w' l Hrun; cbn in Hrun.
  - injection Hrun as <- <- <-. split; [reflexivity |]. split; [reflexivity |].
    intros b [= <-]. cbn. now rewrite andb_true_r.
  - destruct (_notify_broken_definition_owners f) as [u | e] eqn:Hf.
    + assert (Hn : notified f = true) by (unfold notified; now rewrite Hf).
      apply IH in Hrun as (-> & -> & Hb). split; [reflexivity |]. split; [reflexivity |].
      intros b Hr. cbn [forallb]. rewrite Hn. exact (Hb b Hr).
    + assert (Hn : notified f = false) by (unfold notified; now rewrite Hf).
      destruct (is_Exception e).
      * apply IH in Hrun as (-> & -> & Hb). split; [reflexivity |]. split; [reflexivity |].
        intros b Hr. cbn [forallb]. rewrite Hn, (Hb b Hr). cbn. now rewrite andb_false_r.
      * injection Hrun as <- <- <-. split; [reflexivity |]. split; [reflexivity |].
        discriminate.
Qed.

(** [process_results] makes the calls of the loop over the buckets and no
    others; when it returns, that loop ran to its end and the value tells
    whether every notification for a failed result returned. *)
Lemma process_results_inv (results : list DeployResult.t) w r w' l :
  process_results results w = (r, w', l) ->
  exists r1,
    forM_ (concourse_target_results results)
      (fun bucket => reconcile_target (snd bucket)) w = (r1, w', l) /\
    forall b, r = Ok b ->
      r1 = Ok tt /\ b = forallb notified (failed_descriptors results).
Proof.
  intros Hrun. unfold process_results in Hrun.
  apply bindM_inv in Hrun as [(u & w1 & l1 & l2 & Hsweep & Htail & ->) | (e & Hsweep & ->)].
  - destruct u.
    destruct (failed_descriptors results) as [| f failed] eqn:Hfailed;
      cbn [length Nat.eqb] in Htail.
    + injection Htail as <- <- <-. rewrite app_nil_r. exists (Ok tt).
      split; [exact Hsweep |]. intros b [= <-]. auto.
    + apply notify_all_spec in Htail as (-> & -> & Hb). rewrite app_nil_r.
      exists (Ok tt). split; [exact Hsweep |]. intros b Hr. split; [reflexivity |].
      now rewrite (Hb b Hr).
  - exists (Raise e). split; [exact Hsweep | discriminate].
Qed.

(** C4: when [process_results] returns, it returns true if and only if no
    result lacks the SUCCEEDED bit or the notification for every failed
    result returned; failed results alone do not make it false. *)
Theorem process_results_true_iff (results : list DeployResult.t) w b w' l :
  process_results results w = (Ok b, w', l) ->
  (b = true <->
   (forall r, r ∈ results -> DeployResult.has r DeployStatus.SUCCEEDED = true) \/
   (forall r, r ∈ results -> DeployResult.has r DeployStatus.SUCCEEDED = false ->
      _notify_broken_definition_owners r = Ok tt)).
Proof.
  intros Hrun. apply process_results_inv in Hrun as (r1 & _ & Hb).
  destruct (Hb b eq_refl) as [_ ->].
  assert (Hall : forallb notified (failed_descriptors results) = true <->
                 forall r, r ∈ results ->
                   DeployResult.has r DeployStatus.SUCCEEDED = false ->
                   _notify_broken_definition_owners r = Ok tt).
  { rewrite forallb_forall. unfold failed_descriptors. split.
    - intros Hn r Hr Hfailed.
      assert (Hnr : notified r = true).
      { apply Hn. apply filter_In. split; [now apply list_elem_of_In |].
        now rewrite Hfailed. }
      unfold notified in Hnr.
      destruct (_notify_broken_definition_owners r) as [[] |]; [reflexivity | discriminate].
    - intros Hn r Hr. apply filter_In in Hr as [Hr Hfailed].
      apply negb_true_iff in Hfailed. unfold notified.
      now rewrite (Hn r (proj2 (list_elem_of_In _ _) Hr) Hfailed). }
  rewrite Hall. split; [auto |].
  intros [Hsucceeded | Hnotified]; [| exact Hnotified].
  intros r Hr Hfailed. rewrite (Hsucceeded r Hr) in Hfailed. discriminate.
Qed.


(** C10: the names shielded from removal are those of all results of the
    bucket, whatever their status; so the pipeline named by a result of the
    run (FAILED and SKIPPED ones included) is never deleted at the target of
    that result, however the run ends. *)
Theorem carried_names_are_never_deleted (results : list DeployResult.t) w r :
  r ∈ results ->
  (exists members,
     (result_key r, members) ∈ concourse_target_results results /\
     DeployResult.name r ∈ deployed_pipeline_names members) /\
  DeletePipeline (DeployResult.target r) (DeployResult.name r)
    ∉ snd (process_results results w).
Proof.
  intros Hr.
  pose proof (concourse_target_results_grouped results) as Hg.
  pose proof (grouped_targets_NoDup _ _ Hg) as Hnd.
  destruct Hg as (Hkeys & Hmembers & Hall).
  destruct (Hall r Hr) as (members & Hbucket & Hin).
  assert (Hname : DeployResult.name r ∈ map DeployResult.name members).
  { apply list_elem_of_fmap. now exists r. }
  split.
  - exists members. split; [exact Hbucket |].
    unfold deployed_pipeline_names. now apply elem_of_list_to_set.
  - destruct (process_results results w) as [[res w'] l] eqn:Hrun. cbn [snd].
    apply process_results_inv in Hrun as (r1 & Hsweep & _).
    apply reconcile_all_spec in Hsweep as (Hsound & _ & _);
      [| intros k ms Hms; now destruct (Hmembers k ms Hms) | exact Hnd].
    intros Hdel. destruct (Hsound _ _ Hdel) as (k & ms & Hb & Ht & _ & Hnot).
    assert (Hk : k = result_key r).
    { destruct (Hmembers k ms Hb) as [Hne Hms].
      destruct ms as [| first rest]; [contradiction |].
      destruct (Hms first) as [<- _]; [left |].
      cbn in Ht. now rewrite !result_key_target, Ht. }
    subst k.
    assert (Heq : (result_key r, ms) = (result_key r, members)).
    { apply (NoDup_map_inj fst (concourse_target_results results)); auto. }
    injection Heq as ->. contradiction.
Qed.

(** *** Returning *)

Lemma returns_ret {A} (a : A) : returns (ret a).
Proof. intros w. now exists a, w, []. Qed.

Lemma returns_bind {A B} (m : M A) (k : A -> M B) :
  returns m -> (forall a, returns (k a)) -> returns (bindM m k).
Proof.
  intros Hm Hk w. destruct (Hm w) as (a & w1 & l1 & Hm1).
  destruct (Hk a w1) as (b & w2 & l2 & Hk1).
  exists b, w2, (l1 ++ l2). unfold bindM. now rewrite Hm1, Hk1.
Qed.

Lemma returns_forM {A} (l : list A) (body : A -> M unit) :
  (forall x, x ∈ l -> returns (body x)) -> returns (forM_ l body).
Proof.
  induction l as [| x l IH]; intros Hbody; cbn.
  - apply returns_ret.
  - apply returns_bind; [apply Hbody; left |].
    intros _. apply IH. intros y Hy. apply Hbody. now right.
Qed.

Lemma returns_api_call {A} (c : ApiCall) (effect : World -> A * World) :
  api_fault c = None -> returns (client.api_call c effect).
Proof.
  intros Hc w. unfold client.api_call. rewrite Hc. eauto.
Qed.

Lemma reconcile_target_returns (first : DeployResult.t) (rest : list DeployResult.t) :
  (forall c, api_fault c = None) -> returns (reconcile_target (first :: rest)).
Proof.
  intros Hno. unfold reconcile_target.
  apply returns_bind; [now apply returns_api_call |]. intros api.
  apply returns_bind; [now apply returns_api_call |]. intros known.
  apply returns_bind.
  { apply returns_forM. intros p _. now apply returns_api_call. }
  intros _. apply returns_bind.
  { unfold _initialise_new_pipeline_resources. apply returns_forM. intros name _.
    apply returns_bind; [now apply returns_api_call |]. intros _.
    apply returns_bind; [now apply returns_api_call |]. intros resources.
    apply returns_forM. intros resource _. now apply returns_api_call. }
  intros _. apply returns_bind; [now apply returns_api_call |]. intros names.
  now apply returns_api_call.
Qed.

Lemma notify_all_returns (failed : list DeployResult.t) :
  (forall r e, _notify_broken_definition_owners r = Raise e -> is_Exception e = true) ->
  forall flag, returns (notify_all failed flag).
Proof.
  intros Hexc. induction failed as [| f failed IH]; intros flag; cbn.
  - apply returns_ret.
  - destruct (_notify_broken_definition_owners f) as [u | e] eqn:Hf; [apply IH |].
    rewrite (Hexc f e Hf). apply IH.
Qed.

(** X3: [process_results] returns when no call of the CI client raises and
    the notifications raise nothing but [Exception]s. *)
Lemma process_results_returns (results : list DeployResult.t) :
  (forall c, api_fault c = None) ->
  (forall r e, _notify_broken_definition_owners r = Raise e -> is_Exception e = true) ->
  returns (process_results results).
Proof.
  intros Hno Hexc. unfold process_results.
  apply returns_bind.
  - apply returns_forM. intros [k ms] Hin.
    destruct (concourse_target_results_grouped results) as (_ & Hmembers & _).
    destruct (Hmembers k ms Hin) as [Hne _].
    destruct ms as [| first rest]; [contradiction |].
    now apply reconcile_target_returns.
  - intros _. destruct (length (failed_descriptors results) =? 0)%nat.
    + apply returns_ret.
    + now apply notify_all_returns.
Qed.

End ReconcileFacts.

(** ** The repository enumerator and the branch configuration *)

Section EnumeratorFacts.
Import GithubDefinitionEnumeratorBase.
Context `{Builtins} `{Util}.

(** After a definitions file that does not parse, the scan yields the error
    descriptor of that branch and returns: the branches that follow are not
    scanned. *)
Lemma scan_returns_after_unparsable (self : DefinitionEnumerator.t)
    (repository : Repository) (github_cfg : GithubConfig) (org_name branch_name : string)
    (cfg_entry : option BranchCfgEntry.t) (rest : list (string * option BranchCfgEntry.t))
    (tail : option exn) (text : string) (overrides : yaml) (e : exn)
    (d : DefinitionDescriptor.t) :
  file_contents repository ".ci/pipeline_definitions" branch_name = Ok text ->
  match cfg_entry with
  | Some entry => BranchCfgEntry.override_definitions entry
  | None => Ok (YDict [])
  end = Ok overrides ->
  yaml_load text = Raise e ->
  invalid_yaml_descriptor self (org_name +:+ "/" +:+ repo_name repository) branch_name
    (urlparse_hostname (http_url github_cfg)) e = Ok d ->
  scan_branches self repository github_cfg org_name ((branch_name, cfg_entry) :: rest) tail
  = ([d], None).
Proof.
  intros Hfile Hoverrides Hload Hd. cbn [scan_branches].
  now rewrite Hfile, Hoverrides, Hload, Hd.
Qed.

(** Some matching entry: the result, if any, is the merge of the entries in
    the order of [merge_order]. *)
Lemma cfg_entry_for_branch_some (self : BranchCfg.t) (branch_name : string)
    (entry : BranchCfgEntry.t) (entries : list BranchCfgEntry.t) :
  BranchCfg.matching_entries self branch_name = Ok (entry :: entries) ->
  BranchCfg.cfg_entry_for_branch self branch_name =
    (ordered <- BranchCfg.merge_order (entry :: entries) ;;
     effective <- foldM (fun eff e => merge_dicts eff (BranchCfgEntry.raw e))
                        (YDict []) ordered ;;
     Ok (Some {| BranchCfgEntry.name := "merged"; BranchCfgEntry.raw := effective |})).
Proof. intros Hm. unfold BranchCfg.cfg_entry_for_branch. now rewrite Hm. Qed.

End EnumeratorFacts.

(** ** Sorting by key *)

Section SortedFacts.
Context {A : Type}.
Implicit Types (x : Z * A) (l : list (Z * A)).

Lemma insert_by_key_Permutation x l : Permutation (insert_by_key x l) (x :: l).
Proof.
  induction l as [| y l IH]; cbn; [reflexivity |].
  destruct (fst x <=? fst y); [reflexivity |].
  rewrite IH. apply perm_swap.
Qed.

Lemma sorted_Permutation l : Permutation (sorted l) l.
Proof.
  induction l as [| x l IH]; cbn; [reflexivity |].
  rewrite insert_by_key_Permutation. now rewrite IH.
Qed.

Lemma insert_by_key_sorted x l :
  StronglySorted Z.le (map fst l) -> StronglySorted Z.le (map fst (insert_by_key x l)).
Proof.
  induction l as [| y l IH]; cbn; intros Hs.
  - repeat constructor.
  - apply StronglySorted_inv in Hs as [Hs Hy].
    destruct (fst x <=? fst y) eqn:Hle; cbn.
    + apply Z.leb_le in Hle. constructor; [now constructor |].
      constructor; [exact Hle |].
      eapply List.Forall_impl; [| exact Hy]. cbn. lia.
    + apply Z.leb_gt in Hle. constructor; [now apply IH |].
      apply List.Forall_forall. intros k Hk.
      apply (Permutation_in _ (Permutation_map fst (insert_by_key_Permutation x l))) in Hk.
      destruct Hk as [<- | Hk]; [lia |].
      rewrite List.Forall_forall in Hy. now apply Hy.
Qed.

Lemma sorted_keys_ascend l : StronglySorted Z.le (map fst (sorted l)).
Proof.
  induction l as [| x l IH]; cbn; [constructor | now apply insert_by_key_sorted].
Qed.

Lemma filter_insert_by_key (P : Z * A -> bool) x l :
  (P x = true -> forall y, In y l -> P y = true -> fst x <= fst y) ->
  List.filter P (insert_by_key x l) = List.filter P (x :: l).
Proof.
  intros Hx. induction l as [| y l IH]; cbn; [reflexivity |].
  destruct (fst x <=? fst y) eqn:Hle; [reflexivity |].
  apply Z.leb_gt in Hle. cbn. rewrite IH.
  - cbn. destruct (P x) eqn:HPx; [| reflexivity].
    destruct (P y) eqn:HPy; [| reflexivity].
    specialize (Hx eq_refl y (or_introl eq_refl) HPy). lia.
  - intros HPx z Hz. apply Hx; [exact HPx | now right].
Qed.

(** The sort is stable on elements that are in key order already. *)
Lemma sorted_keeps_ordered (P : Z * A -> bool) l :
  StronglySorted Z.le (map fst (List.filter P l)) ->
  List.filter P (sorted l) = List.filter P l.
Proof.
  induction l as [| x l IH]; cbn; [reflexivity |].
  intros Hs. rewrite filter_insert_by_key.
  - cbn. destruct (P x); cbn in Hs.
    + apply StronglySorted_inv in Hs as [Hs _]. now rewrite IH.
    + now apply IH.
  - intros HPx y Hy HPy. rewrite HPx in Hs. cbn in Hs.
    apply StronglySorted_inv in Hs as [Hs Hall].
    rewrite List.Forall_forall in Hall. apply Hall. apply in_map.
    rewrite <- (IH Hs). apply filter_In. auto.
Qed.

Lemma StronglySorted_filter (P : Z * A -> bool) l :
  StronglySorted Z.le (map fst l) -> StronglySorted Z.le (map fst (List.filter P l)).
Proof.
  induction l as [| x l IH]; cbn; intros Hs; [constructor |].
  apply StronglySorted_inv in Hs as [Hs Hall].
  destruct (P x); cbn; [| now apply IH].
  constructor; [now apply IH |].
  rewrite List.Forall_forall in Hall |- *. intros k Hk. apply Hall.
  apply in_map_iff in Hk as (y & <- & Hy). apply in_map.
  now apply filter_In in Hy as [Hy _].
Qed.

End SortedFacts.

(** ** The merge order of the branch configuration *)
Section MergeOrderFacts.
Context `{Builtins}.

Lemma entry_with_idx_well_indexed (idx : Z) (entry : BranchCfgEntry.t) :
  well_indexed entry ->
  BranchCfg.entry_with_idx idx entry =
    Ok (if has_index entry then index_of entry else idx, entry).
Proof.
  unfold well_indexed, BranchCfg.entry_with_idx, has_index, index_of.
  intros [-> | (z & Hz & ->)]; cbn; [reflexivity |].
  destruct (z =? 0) eqn:E; [apply Z.eqb_eq in E; contradiction | reflexivity].
Qed.

Lemma mapM_entry_with_idx (l : list BranchCfgEntry.t) : forall i,
  (forall e, In e l -> well_indexed e) ->
  mapM (fun ie => BranchCfg.entry_with_idx (fst ie) (snd ie)) (enumerate_from i l)
  = Ok (keyed_from i l).
Proof.
  induction l as [| e l IH]; intros i Hwf; cbn; [reflexivity |].
  rewrite entry_with_idx_well_indexed by (apply Hwf; now left). cbn.
  rewrite IH by (intros e' He'; apply Hwf; now right). reflexivity.
Qed.

Lemma map_snd_keyed_from (l : list BranchCfgEntry.t) : forall i,
  map snd (keyed_from i l) = l.
Proof.
  induction l as [| e l IH]; intros i; cbn; [reflexivity |].
  f_equal. apply IH.
Qed.

Lemma keyed_from_indexed (l : list BranchCfgEntry.t) : forall i x,
  In x (keyed_from i l) -> has_index (snd x) = true -> fst x = index_of (snd x).
Proof.
  induction l as [| e l IH]; intros i x Hx Hix; cbn in Hx; [contradiction |].
  destruct Hx as [<- | Hx]; [cbn in *; now rewrite Hix | eauto].
Qed.

Lemma keyed_from_unindexed_bound (l : list BranchCfgEntry.t) : forall i k,
  In k (map fst (List.filter (fun x => negb (has_index (snd x))) (keyed_from i l))) ->
  i <= k.
Proof.
  induction l as [| e l IH]; intros i k Hk; cbn in Hk; [contradiction |].
  destruct (has_index e); cbn in Hk.
  - apply IH in Hk. lia.
  - destruct Hk as [<- | Hk]; [lia |]. apply IH in Hk. lia.
Qed.

Lemma keyed_from_unindexed_sorted (l : list BranchCfgEntry.t) : forall i,
  StronglySorted Z.le
    (map fst (List.filter (fun x => negb (has_index (snd x))) (keyed_from i l))).
Proof.
  induction l as [| e l IH]; intros i; cbn; [constructor |].
  destruct (has_index e); cbn; [apply IH |].
  constructor; [apply IH |].
  apply List.Forall_forall. intros k Hk. apply keyed_from_unindexed_bound in Hk. lia.
Qed.

Lemma filter_map_snd (P : BranchCfgEntry.t -> bool) (s : list (Z * BranchCfgEntry.t)) :
  List.filter P (map snd s) = map snd (List.filter (fun x => P (snd x)) s).
Proof.
  induction s as [| x s IH]; cbn; [reflexivity |].
  destruct (P (snd x)); cbn; now rewrite IH.
Qed.

Lemma indexed_keys (s : list (Z * BranchCfgEntry.t)) :
  (forall x, In x s -> has_index (snd x) = true -> fst x = index_of (snd x)) ->
  map index_of (List.filter has_index (map snd s))
  = map fst (List.filter (fun x => has_index (snd x)) s).
Proof.
  induction s as [| x s IH]; intros Hkeys; cbn; [reflexivity |].
  destruct (has_index (snd x)) eqn:Hx; cbn.
  - rewrite (Hkeys x (or_introl eq_refl) Hx). f_equal. apply IH.
    intros y Hy. apply Hkeys. now right.
  - apply IH. intros y Hy. apply Hkeys. now right.
Qed.

(** X1: when every matching entry omits its index or has an integer index
    other than 0, [merge_order] returns the matching entries rearranged so that
    the indexed ones ascend by index and the ones without index keep their
    encounter order. *)
Theorem merge_order_ascends (matching : list BranchCfgEntry.t) :
  (forall e, In e matching -> well_indexed e) ->
  exists ordered,
    BranchCfg.merge_order matching = Ok ordered /\
    Permutation ordered matching /\
    StronglySorted Z.le (map index_of (List.filter has_index ordered)) /\
    List.filter (fun e => negb (has_index e)) ordered
    = List.filter (fun e => negb (has_index e)) matching.
Proof.
  intros Hwf. exists (map snd (sorted (keyed_from 0 matching))).
  split; [| split; [| split]].
  - unfold BranchCfg.merge_order, enumerate.
    now rewrite mapM_entry_with_idx.
  - rewrite (Permutation_map snd (sorted_Permutation (keyed_from 0 matching))).
    now rewrite map_snd_keyed_from.
  - rewrite indexed_keys.
    + apply StronglySorted_filter, sorted_keys_ascend.
    + intros x Hx. apply (keyed_from_indexed matching 0).
      now apply (Permutation_in _ (sorted_Permutation _)).
  - rewrite (filter_map_snd (fun e => negb (has_index e))).
    rewrite (sorted_keeps_ordered (fun x => negb (has_index (snd x)))).
    + rewrite <- (filter_map_snd (fun e => negb (has_index e))).
      now rewrite map_snd_keyed_from.
    + apply keyed_from_unindexed_sorted.
Qed.

End MergeOrderFacts.

(** ** Matching a branch *)

Section BranchMatchFacts.
Context `{Builtins}.

Lemma any_fullmatch_false (patterns : list yaml) (branch_name : string) :
  BranchCfgEntry.any_fullmatch patterns branch_name = Ok false <->
  forall q, In q patterns ->
    exists s, q = YStr s /\ re_fullmatch s branch_name = Ok false.
Proof.
  induction patterns as [| q patterns IH]; cbn [BranchCfgEntry.any_fullmatch].
  - split; [intros _ q [] | reflexivity].
  - destruct q as [| | | s | |]; cbn [bind];
      try (split; [discriminate | intros Hall;
                   destruct (Hall _ (or_introl eq_refl)) as (s & [=] & _)]).
    destruct (re_fullmatch s branch_name) as [[|] | e] eqn:Hm; cbn [bind].
    + split; [discriminate |]. intros Hall.
      destruct (Hall _ (or_introl eq_refl)) as (s' & [= <-] & Hs). congruence.
    + rewrite IH. split.
      * intros Hall q [<- | Hq]; [eauto | auto].
      * intros Hall q Hq. apply Hall. now right.
    + split; [discriminate |]. intros Hall.
      destruct (Hall _ (or_introl eq_refl)) as (s' & [= <-] & Hs). congruence.
Qed.

Lemma any_fullmatch_true (patterns : list yaml) (branch_name : string) :
  BranchCfgEntry.any_fullmatch patterns branch_name = Ok true <->
  exists before p after,
    patterns = before ++ YStr p :: after /\
    re_fullmatch p branch_name = Ok true /\
    forall q, In q before ->
      exists s, q = YStr s /\ re_fullmatch s branch_name = Ok false.
Proof.
  induction patterns as [| q patterns IH]; cbn [BranchCfgEntry.any_fullmatch].
  - split; [discriminate |]. intros (before & p & after & Hp & _).
    now destruct before.
  - assert (Hhead : forall before p after,
               q :: patterns = before ++ YStr p :: after ->
               (forall q', In q' before ->
                  exists s, q' = YStr s /\ re_fullmatch s branch_name = Ok false) ->
               (before = [] /\ q = YStr p /\ patterns = after) \/
               (exists before' s, before = YStr s :: before' /\ q = YStr s /\
                  re_fullmatch s branch_name = Ok false /\
                  patterns = before' ++ YStr p :: after)).
    { intros before p after Hp Hbefore. destruct before as [| q' before'].
      - injection Hp as -> ->. now left.
      - injection Hp as <- ->. right.
        destruct (Hbefore _ (or_introl eq_refl)) as (s & -> & Hs).
        exists before', s. auto. }
    destruct q as [| | | s | |]; cbn [bind];
      try (split; [discriminate |];
           intros (before & p & after & Hp & _ & Hbefore);
           destruct (Hhead _ _ _ Hp Hbefore)
             as [(_ & [=] & _) | (before' & s & _ & [=] & _)]).
    destruct (re_fullmatch s branch_name) as [[|] | e] eqn:Hm; cbn [bind].
    + split; [intros _ | reflexivity].
      exists [], s, patterns. split; [reflexivity |]. split; [exact Hm | intros q []].
    + rewrite IH. split.
      * intros (before & p & after & -> & Hp & Hbefore).
        exists (YStr s :: before), p, after. split; [reflexivity |]. split; [exact Hp |].
        intros q [<- | Hq]; [eauto | auto].
      * intros (before & p & after & Hp & Hmatch & Hbefore).
        destruct (Hhead _ _ _ Hp Hbefore)
          as [(_ & [= ->] & _) | (before' & s' & -> & [= <-] & _ & ->)]; [congruence |].
        exists before', p, after. split; [reflexivity |]. split; [exact Hmatch |].
        intros q Hq. apply Hbefore. now right.
    + split; [discriminate |].
      intros (before & p & after & Hp & Hmatch & Hbefore).
      destruct (Hhead _ _ _ Hp Hbefore)
        as [(_ & [= ->] & _) | (before' & s' & _ & [= <-] & Hs & _)]; congruence.
Qed.

(** X22: for an entry whose [branches] is a list, [branch_matches] is true
    exactly when some element is a regular expression that full-matches the
    branch and every element before it is a regular expression that does
    not (the elements after the first match are not looked at, so one that
    would raise does no harm there); it is false exactly when every element
    is a regular expression that does not full-match; otherwise it
    raises. *)
Theorem branch_matches_at_the_first_full_match (entry : BranchCfgEntry.t)
    (patterns : list yaml) (branch_name : string) :
  BranchCfgEntry.branches entry = Ok (YList patterns) ->
  (BranchCfgEntry.branch_matches entry branch_name = Ok true <->
   exists before p after,
     patterns = before ++ YStr p :: after /\
     re_fullmatch p branch_name = Ok true /\
     forall q, In q before ->
       exists s, q = YStr s /\ re_fullmatch s branch_name = Ok false) /\
  (BranchCfgEntry.branch_matches entry branch_name = Ok false <->
   forall q, In q patterns ->
     exists s, q = YStr s /\ re_fullmatch s branch_name = Ok false).
Proof.
  intros Hbranches. unfold BranchCfgEntry.branch_matches. rewrite Hbranches. cbn [bind iter].
  split; [apply any_fullmatch_true | apply any_fullmatch_false].
Qed.

End BranchMatchFacts.

(** ** Wrapping definitions into descriptors *)

Section WrapFacts.
Import DefinitionEnumerator.
Context `{Util}.

Lemma wrap_one_ok self repo_path repo_hostname branch_name overrides item :
  fst item ≠ "" -> snd item ≠ YNone ->
  wrap_one self repo_path repo_hostname branch_name (YDict overrides) item
  = Ok (wrapped self repo_path repo_hostname branch_name overrides item).
Proof.
  intros Hname Hdef.
  unfold wrap_one, wrapped, DefinitionDescriptor.init, not_empty, not_none. cbn.
  destruct (String.eqb (fst item) "") eqn:E; [now apply String.eqb_eq in E |].
  cbn. destruct (snd item) eqn:Hs; try reflexivity. contradiction.
Qed.

Lemma wrap_items_ok self repo_path repo_hostname branch_name overrides (l : dict) :
  (forall item, In item l -> fst item ≠ "" /\ snd item ≠ YNone) ->
  wrap_items self repo_path repo_hostname branch_name (YDict overrides) l
  = (map (wrapped self repo_path repo_hostname branch_name overrides) l, None).
Proof.
  induction l as [| item l IH]; intros Hwf; cbn [wrap_items map]; [reflexivity |].
  destruct (Hwf item (or_introl eq_refl)) as [Hname Hdef].
  rewrite wrap_one_ok by assumption.
  rewrite IH by (intros i Hi; apply Hwf; now right). reflexivity.
Qed.

(** X4: for a mapping of definitions whose names are non-empty and whose
    values are not null, [_wrap_into_descriptors] yields one descriptor per
    definition, in the order of the mapping, and returns; each carries the
    name, the definition, the repository and branch, the enumerator's
    target, the one override layer found under its name (else the empty
    mapping) and no exception.  A document that is no mapping yields nothing
    and raises AttributeError. *)
Theorem wrap_yields_one_descriptor_per_definition
    (self : DefinitionEnumerator.t) (repo_path repo_hostname branch_name : string)
    (definitions overrides : dict) :
  (forall item, In item definitions -> fst item ≠ "" /\ snd item ≠ YNone) ->
  _wrap_into_descriptors self repo_path repo_hostname branch_name
    (YDict definitions) (YDict overrides)
  = (map (wrapped self repo_path repo_hostname branch_name overrides) definitions, None) /\
  (forall document,
     (forall d, document ≠ YDict d) ->
     _wrap_into_descriptors self repo_path repo_hostname branch_name
       document (YDict overrides)
     = ([], Some (AttributeError "items"))).
Proof.
  intros Hwf. split.
  - unfold _wrap_into_descriptors. cbn. now apply wrap_items_ok.
  - intros document Hno. unfold _wrap_into_descriptors.
    destruct document as [| | | | | its]; try reflexivity. now destruct (Hno its).
Qed.

(** Whatever the documents, every descriptor yielded carries the repository,
    the branch and the enumerator's target, no exception and no rendered
    text, and is named by a key of the definitions. *)
Lemma wrap_items_yields self repo_path repo_hostname branch_name overrides (l : dict) d :
  In d (fst (wrap_items self repo_path repo_hostname branch_name overrides l)) ->
  DefinitionDescriptor.main_repo d =
    {| path := repo_path; branch := branch_name; hostname := repo_hostname |} /\
  DefinitionDescriptor.concourse_target_cfg d = concourse (cfg_set self) /\
  DefinitionDescriptor.concourse_target_team d = team_name (job_mapping self) /\
  DefinitionDescriptor.exception d = None /\
  DefinitionDescriptor.pipeline d = None /\
  In (DefinitionDescriptor.pipeline_name d, DefinitionDescriptor.pipeline_definition d) l /\
  DefinitionDescriptor.pipeline_name d ≠ "".
Proof.
  induction l as [| item l IH]; cbn [wrap_items]; [intros [] |].
  destruct (wrap_one self repo_path repo_hostname branch_name overrides item)
    as [d0 | e] eqn:Hone; [| intros []].
  unfold gen_then, gen_yield. cbn [fst snd app]. intros [<- | Hin].
  - unfold wrap_one, DefinitionDescriptor.init, not_empty, not_none in Hone.
    destruct (get overrides (fst item) (YDict [])); [| discriminate]. cbn [bind] in Hone.
    destruct (String.eqb (fst item) "") eqn:E; [discriminate |]. cbn [bind] in Hone.
    apply String.eqb_neq in E.
    destruct (snd item) eqn:Hs; try discriminate; injection Hone as <-; cbn;
      repeat split; try assumption; left; destruct item; cbn in *; congruence.
  - destruct (IH Hin) as (? & ? & ? & ? & ? & ? & ?). repeat split; auto. now right.
Qed.

End WrapFacts.

(** ** The repository scan *)

Section ScanFacts.
Import GithubDefinitionEnumeratorBase DefinitionEnumerator.
Context `{Builtins} `{Util}.

Lemma gen_then_return {A} (g : gen A) : gen_then g ([], None) = g.
Proof.
  unfold gen_then. destruct g as [l [e |]]; cbn; [reflexivity |].
  now rewrite app_nil_r.
Qed.

Lemma gen_then_yields {A} (g1 g2 : gen A) x :
  In x (fst (gen_then g1 g2)) -> In x (fst g1) \/ In x (fst g2).
Proof.
  unfold gen_then. destruct (snd g1); cbn; [auto |].
  intros Hin. now apply in_app_or in Hin.
Qed.

(** The loop over the branches of the configuration yields names of the
    repository's branches, in their order, each with the entry
    [cfg_entry_for_branch] returns for it; when the loop runs to its end,
    the branches left out are those for which it returns none. *)
Lemma configured_branches_spec (branch_cfg : BranchCfg.t) (l : list string) :
  let g := configured_branches branch_cfg l in
  sublist (map fst (fst g)) l /\
  (forall b e, In (b, e) (fst g) ->
     exists entry, e = Some entry /\
                   BranchCfg.cfg_entry_for_branch branch_cfg b = Ok (Some entry)) /\
  (snd g = None ->
   forall b, In b l ->
     BranchCfg.cfg_entry_for_branch branch_cfg b = Ok None \/
     exists entry, In (b, Some entry) (fst g)).
Proof.
  induction l as [| b l (IHsub & IHin & IHall)]; cbn [configured_branches].
  - cbn. split; [constructor |]. split; [intros ? ? [] | intros _ ? []].
  - destruct (BranchCfg.cfg_entry_for_branch branch_cfg b) as [[entry |] | e] eqn:Hb.
    + unfold gen_then, gen_yield. cbn [fst snd app map].
      split; [now constructor |]. split.
      * intros b' e' [[= <- <-] | Hin]; eauto.
      * intros Hend b' [<- | Hb']; [right; exists entry; now left |].
        destruct (IHall Hend b' Hb') as [Hnone | (entry' & Hin)]; [auto |].
        right. exists entry'. now right.
    + split; [now constructor |]. split; [exact IHin |].
      intros Hend b' [<- | Hb']; [now left | auto].
    + cbn. split; [apply sublist_nil_l |]. split; [intros ? ? [] | discriminate].
Qed.

(** X5: with a branch configuration, [_determine_repository_branches] yields
    names of the repository's branches in their order, each together with
    the merged entry [cfg_entry_for_branch] returns for it; when it runs to
    its end, exactly the branches for which [cfg_entry_for_branch] returns
    none are left out. *)
Theorem determined_branches_are_configured (repository : Repository)
    (text : string) (document : yaml) :
  file_contents repository "branch.cfg" "refs/meta/ci" = Ok text ->
  yaml_load text = Ok document ->
  let branch_cfg := {| BranchCfg.raw := document |} in
  let g := _determine_repository_branches repository in
  sublist (map fst (fst g)) (repo_branches repository) /\
  (forall b e, In (b, e) (fst g) ->
     exists entry, e = Some entry /\
                   BranchCfg.cfg_entry_for_branch branch_cfg b = Ok (Some entry)) /\
  (snd g = None ->
   forall b, In b (repo_branches repository) ->
     BranchCfg.cfg_entry_for_branch branch_cfg b = Ok None \/
     exists entry, In (b, Some entry) (fst g)).
Proof.
  intros Hfile Hload branch_cfg g. subst g.
  unfold _determine_repository_branches, _branch_cfg_or_none.
  rewrite Hfile. cbn [bind]. rewrite Hload. cbn [bind].
  apply configured_branches_spec.
Qed.

Lemma scan_branches_yields (self : DefinitionEnumerator.t) (repository : Repository)
    (github_cfg : GithubConfig) (org_name : string)
    (pairs : list (string * option BranchCfgEntry.t)) (tail : option exn) d :
  In d (fst (scan_branches self repository github_cfg org_name pairs tail)) ->
  scanned self repository github_cfg org_name d /\
  exists pair, In pair pairs /\ fst pair = branch (DefinitionDescriptor.main_repo d).
Proof.
  induction pairs as [| [branch_name cfg_entry] pairs IH]; cbn [scan_branches];
    [intros [] |].
  assert (Hrest : In d (fst (scan_branches self repository github_cfg org_name pairs tail)) ->
                  scanned self repository github_cfg org_name d /\
                  exists pair, In pair ((branch_name, cfg_entry) :: pairs) /\
                               fst pair = branch (DefinitionDescriptor.main_repo d)).
  { intros Hin. destruct (IH Hin) as (Hs & pair & Hp & Hb).
    split; [exact Hs |]. exists pair. split; [now right | exact Hb]. }
  destruct (file_contents repository ".ci/pipeline_definitions" branch_name) as [text | e].
  2: { destruct (is_instance NotFoundError e); [exact Hrest | intros []]. }
  destruct (match cfg_entry with
            | Some entry => BranchCfgEntry.override_definitions entry
            | None => Ok (YDict [])
            end) as [overrides | e]; [| intros []].
  destruct (yaml_load text) as [document | e].
  - destruct (merge_dicts document overrides) as [definitions | e]; [| intros []].
    intros Hin. apply gen_then_yields in Hin as [Hin | Hin]; [| auto].
    unfold _wrap_into_descriptors in Hin.
    destruct (items definitions) as [l | e]; [| destruct Hin].
    apply wrap_items_yields in Hin as (Hrepo & Hcfg & Hteam & Hexc & Hpipe & _ & Hname).
    split.
    + unfold scanned. rewrite Hrepo. cbn. auto 10.
    + exists (branch_name, cfg_entry). split; [now left |]. now rewrite Hrepo.
  - unfold invalid_yaml_descriptor, DefinitionDescriptor.init, not_empty, not_none.
    cbn. intros [<- | []]. split.
    + unfold scanned. cbn. repeat split; try discriminate. right. auto.
    + exists (branch_name, cfg_entry). split; [now left | reflexivity].
Qed.

(** X6: every descriptor the scan of a repository yields carries the path
    [org/repository], the host of the source-control configuration and the
    enumerator's target, a non-empty name and no rendered text; its branch
    is one that [_determine_repository_branches] yields; and it either has
    no exception or is the descriptor named [<invalid YAML>] with an empty
    definition and no override layer. *)
Theorem scanned_descriptors_belong_to_the_repository
    (self : DefinitionEnumerator.t) (repository : Repository)
    (github_cfg : GithubConfig) (org_name : string) (d : DefinitionDescriptor.t) :
  In d (fst (_scan_repository_for_definitions self repository github_cfg org_name)) ->
  scanned self repository github_cfg org_name d /\
  In (branch (DefinitionDescriptor.main_repo d))
     (map fst (fst (_determine_repository_branches repository))).
Proof.
  unfold _scan_repository_for_definitions. intros Hin.
  apply scan_branches_yields in Hin as (Hs & pair & Hp & <-).
  split; [exact Hs | now apply in_map].
Qed.

(** X7: when the definitions file is absent on every branch that
    [_determine_repository_branches] yields, the scan yields no descriptor,
    no error descriptor either, and ends as the branch generator ends. *)
Theorem scan_of_branches_without_definitions (self : DefinitionEnumerator.t)
    (repository : Repository) (github_cfg : GithubConfig) (org_name : string) :
  (forall pair, In pair (fst (_determine_repository_branches repository)) ->
     exists e, file_contents repository ".ci/pipeline_definitions" (fst pair) = Raise e /\
               is_instance NotFoundError e = true) ->
  _scan_repository_for_definitions self repository github_cfg org_name
  = ([], snd (_determine_repository_branches repository)).
Proof.
  unfold _scan_repository_for_definitions.
  generalize (snd (_determine_repository_branches repository)) as tail.
  induction (fst (_determine_repository_branches repository)) as [| [b e] pairs IH];
    intros tail Habsent; cbn [scan_branches]; [reflexivity |].
  destruct (Habsent (b, e) (or_introl eq_refl)) as (err & Hfile & Hnf).
  cbn [fst] in Hfile. rewrite Hfile, Hnf.
  apply IH. intros pair Hp. apply Habsent. now right.
Qed.

(** X8: without a branch configuration the scan is the scan of the default
    branch alone (of [master] when reading the default branch raises an
    [Exception]): the descriptors wrapped from the definitions file of that
    branch, with empty override layers. *)
Theorem scan_without_branch_cfg (self : DefinitionEnumerator.t)
    (repository : Repository) (github_cfg : GithubConfig) (org_name : string)
    (e0 : exn) (b text : string) (document definitions : yaml) :
  file_contents repository "branch.cfg" "refs/meta/ci" = Raise e0 ->
  is_instance NotFoundError e0 = true ->
  (default_branch repository = Ok b \/
   exists e, default_branch repository = Raise e /\ is_Exception e = true /\ b = "master") ->
  file_contents repository ".ci/pipeline_definitions" b = Ok text ->
  yaml_load text = Ok document ->
  merge_dicts document (YDict []) = Ok definitions ->
  _determine_repository_branches repository = ([(b, None)], None) /\
  _scan_repository_for_definitions self repository github_cfg org_name
  = _wrap_into_descriptors self (org_name +:+ "/" +:+ repo_name repository)
      (urlparse_hostname (http_url github_cfg)) b definitions (YDict []).
Proof.
  intros Hcfg Hnf Hdefault Hfile Hload Hmerge.
  assert (Hbranches : _determine_repository_branches repository = ([(b, None)], None)).
  { unfold _determine_repository_branches, _branch_cfg_or_none.
    rewrite Hcfg. cbn [bind]. rewrite Hnf.
    destruct Hdefault as [-> | (e & -> & -> & ->)]; reflexivity. }
  split; [exact Hbranches |].
  unfold _scan_repository_for_definitions. rewrite Hbranches. cbn [fst snd scan_branches].
  rewrite Hfile, Hload, Hmerge. apply gen_then_return.
Qed.

(** X9: a branch configuration that is present but does not load makes the
    scan raise the loader's error without yielding anything (the error is
    not turned into an error descriptor). *)
Theorem scan_raises_on_unloadable_branch_cfg (self : DefinitionEnumerator.t)
    (repository : Repository) (github_cfg : GithubConfig) (org_name text : string)
    (e : exn) :
  file_contents repository "branch.cfg" "refs/meta/ci" = Ok text ->
  yaml_load text = Raise e ->
  is_instance NotFoundError e = false ->
  _scan_repository_for_definitions self repository github_cfg org_name = ([], Some e).
Proof.
  intros Hfile Hload Hnf.
  unfold _scan_repository_for_definitions, _determine_repository_branches,
    _branch_cfg_or_none.
  rewrite Hfile. cbn [bind]. rewrite Hload. cbn [bind]. now rewrite Hnf.
Qed.

End ScanFacts.

(** ** The single-file enumerator *)

Section SimpleFileFacts.
Import SimpleFileDefinitionEnumerator.
Context `{Util} `{YamlFiles}.

Lemma yield_invalid_yields self e : yield_invalid self e = ([invalid_descriptor self e], None).
Proof. reflexivity. Qed.

(** X10: the single-file enumerator never raises.  When the file does not
    parse it yields exactly the error descriptor carrying the parser's
    error; when it parses to a mapping of non-empty names to non-null
    definitions it yields one descriptor per definition and no error
    descriptor; and when wrapping raises after some descriptors, these are
    followed by one error descriptor carrying that error. *)
Theorem single_file_enumerator_never_raises (self : SimpleFileDefinitionEnumerator.t) :
  snd (enumerate_definition_descriptors self) = None /\
  (forall e,
     parse_yaml_file (definition_file self) = Raise e ->
     enumerate_definition_descriptors self = ([invalid_descriptor self e], None)) /\
  (forall definitions,
     parse_yaml_file (definition_file self) = Ok (YDict definitions) ->
     (forall item, In item definitions -> fst item ≠ "" /\ snd item ≠ YNone) ->
     enumerate_definition_descriptors self
     = (map (wrapped (as_enumerator self) (repo_path self) (repo_host self)
               (repo_branch self) []) definitions, None)) /\
  (forall document yielded e,
     parse_yaml_file (definition_file self) = Ok document ->
     DefinitionEnumerator._wrap_into_descriptors (as_enumerator self)
       (repo_path self) (repo_host self) (repo_branch self) document (YDict [])
     = (yielded, Some e) ->
     enumerate_definition_descriptors self
     = (yielded ++ [invalid_descriptor self e], None)).
Proof.
  split; [| split; [| split]].
  - unfold enumerate_definition_descriptors.
    destruct (parse_yaml_file (definition_file self)) as [document | e];
      [| now rewrite yield_invalid_yields].
    destruct (DefinitionEnumerator._wrap_into_descriptors _ _ _ _ _ _) as [l [e |]];
      cbn [snd fst]; [| reflexivity].
    now rewrite yield_invalid_yields.
  - intros e Hparse. unfold enumerate_definition_descriptors.
    now rewrite Hparse, yield_invalid_yields.
  - intros definitions Hparse Hwf. unfold enumerate_definition_descriptors.
    rewrite Hparse. unfold DefinitionEnumerator._wrap_into_descriptors. cbn [items].
    now rewrite wrap_items_ok.
  - intros document yielded e Hparse Hwrap. unfold enumerate_definition_descriptors.
    rewrite Hparse, Hwrap. cbn [snd fst]. now rewrite yield_invalid_yields.
Qed.

End SimpleFileFacts.

(** ** Matching entries of the branch configuration *)

Section MatchingFacts.
Context `{Builtins} `{Util}.

Lemma filterM_nil {A} (p : A -> result bool) (l : list A) :
  filterM p l = Ok [] <-> forall x, In x l -> p x = Ok false.
Proof.
  induction l as [| x l IH]; cbn; [split; [intros _ ? [] | reflexivity] |].
  destruct (p x) as [[|] | e] eqn:Hp; cbn.
  - split.
    + destruct (filterM p l); discriminate.
    + intros Hall. specialize (Hall x (or_introl eq_refl)). congruence.
  - split.
    + intros Hf. destruct (filterM p l) as [xs |] eqn:Hl; [| discriminate].
      injection Hf as ->. intros y [<- | Hy]; [exact Hp | now apply IH].
    + intros Hall. assert (Hl : filterM p l = Ok []).
      { apply IH. intros y Hy. apply Hall. now right. }
      now rewrite Hl.
  - split; [discriminate |].
    intros Hall. specialize (Hall x (or_introl eq_refl)). congruence.
Qed.

Lemma cfg_entry_for_branch_none_iff (self : BranchCfg.t) (branch_name : string)
    (entries : list BranchCfgEntry.t) :
  BranchCfg.cfg_entries self = Ok entries ->
  (BranchCfg.cfg_entry_for_branch self branch_name = Ok None <->
   forall entry, In entry entries ->
     BranchCfgEntry.branch_matches entry branch_name = Ok false).
Proof.
  intros Hentries. rewrite <- filterM_nil.
  unfold BranchCfg.cfg_entry_for_branch, BranchCfg.matching_entries.
  rewrite Hentries. cbn [bind].
  destruct (filterM _ entries) as [[| entry matching] | e]; cbn [bind].
  - tauto.
  - split; [| discriminate].
    destruct (BranchCfg.merge_order (entry :: matching)); cbn [bind]; [| discriminate].
    destruct (foldM _ _ _); discriminate.
  - split; discriminate.
Qed.

(** [branch_matches] is false exactly when the [branches] of the entry can
    be iterated and every element is a regular expression that does not
    full-match the branch. *)
Lemma branch_matches_false (entry : BranchCfgEntry.t) (branch_name : string) :
  BranchCfgEntry.branch_matches entry branch_name = Ok false <->
  exists bs patterns,
    BranchCfgEntry.branches entry = Ok bs /\
    iter bs = Ok patterns /\
    forall q, In q patterns ->
      exists s, q = YStr s /\ re_fullmatch s branch_name = Ok false.
Proof.
  unfold BranchCfgEntry.branch_matches.
  destruct (BranchCfgEntry.branches entry) as [bs | e]; cbn [bind].
  - destruct (iter bs) as [patterns | e] eqn:Hiter; cbn [bind].
    + rewrite any_fullmatch_false. split.
      * intros Hall. exists bs, patterns. auto.
      * intros (bs' & patterns' & [= <-] & Hiter' & Hall).
        rewrite Hiter in Hiter'. now injection Hiter' as <-.
    + split; [discriminate |].
      intros (bs' & patterns' & [= <-] & Hiter' & _). congruence.
  - split; [discriminate |]. intros (bs' & patterns' & [=] & _).
Qed.

(** X11: for a branch configuration whose entries can be listed,
    [cfg_entry_for_branch] returns none exactly when [branch_matches] is
    false for every entry; in particular an entry whose test raises makes the
    call raise rather than return none. *)
Theorem cfg_entry_is_none_iff_nothing_matches (self : BranchCfg.t) (branch_name : string)
    (entries : list BranchCfgEntry.t) :
  BranchCfg.cfg_entries self = Ok entries ->
  (BranchCfg.cfg_entry_for_branch self branch_name = Ok None <->
   forall entry, In entry entries ->
     BranchCfgEntry.branch_matches entry branch_name = Ok false).
Proof.
  intros Hentries. rewrite <- filterM_nil.
  unfold BranchCfg.cfg_entry_for_branch, BranchCfg.matching_entries.
  rewrite Hentries. cbn [bind].
  destruct (filterM _ entries) as [[| entry matching] | e]; cbn [bind].
  - tauto.
  - split; [| discriminate].
    destruct (BranchCfg.merge_order (entry :: matching)); cbn [bind]; [| discriminate].
    destruct (foldM _ _ _); discriminate.
  - split; discriminate.
Qed.

(** X2: for a branch configuration whose entries can be listed,
    [cfg_entry_for_branch] returns none exactly when no regular expression
    of any entry full-matches the branch at a test that returns: the
    [branches] of every entry can be iterated, and each of its elements is a
    regular expression whose full-match test on the branch returns false. *)
Theorem cfg_entry_is_none_iff_no_regex_matches (self : BranchCfg.t) (branch_name : string)
    (entries : list BranchCfgEntry.t) :
  BranchCfg.cfg_entries self = Ok entries ->
  (BranchCfg.cfg_entry_for_branch self branch_name = Ok None <->
   forall entry, In entry entries ->
     exists bs patterns,
       BranchCfgEntry.branches entry = Ok bs /\
       iter bs = Ok patterns /\
       forall q, In q patterns ->
         exists s, q = YStr s /\ re_fullmatch s branch_name = Ok false).
Proof.
  intros Hentries. rewrite (cfg_entry_for_branch_none_iff self branch_name entries Hentries).
  split; intros Hall entry Hentry; specialize (Hall entry Hentry).
  - now apply branch_matches_false.
  - now apply branch_matches_false.
Qed.

End MatchingFacts.

(** ** Template retrieval *)

Section TemplateFacts.
Import TemplateRetriever.
Context `{FileSystem} `{Util}.

Lemma find_in_walk_Some file walk f :
  find_in_walk file walk = Some f <->
  exists before dirpath filenames after,
    walk = before ++ (dirpath, filenames) :: after /\
    (forall d fs, In (d, fs) before -> file ∉ fs) /\
    file ∈ filenames /\ f = path_join dirpath file.
Proof.
  induction walk as [| [d fs] walk IH]; cbn.
  - split; [discriminate |]. intros (before & ? & ? & ? & Heq & _).
    now destruct before.
  - case_bool_decide as Hin.
    + split.
      * intros [= <-]. exists [], d, fs, walk.
        split; [reflexivity |]. split; [intros ? ? [] | auto].
      * intros (before & d' & fs' & after & Heq & Hbefore & Hin' & ->).
        destruct before as [| [d0 fs0] before]; cbn in Heq.
        -- now injection Heq as <- <- <-.
        -- injection Heq as -> -> ->. now destruct (Hbefore d0 fs0 (or_introl eq_refl)).
    + rewrite IH. split.
      * intros (before & d' & fs' & after & -> & Hbefore & Hin' & ->).
        exists ((d, fs) :: before), d', fs', after.
        split; [reflexivity |]. split; [| auto].
        intros d0 fs0 [[= <- <-] | Hb]; eauto.
      * intros (before & d' & fs' & after & Heq & Hbefore & Hin' & ->).
        destruct before as [| [d0 fs0] before]; cbn in Heq.
        -- injection Heq as <- <- <-. contradiction.
        -- injection Heq as -> -> ->. exists before, d', fs', after.
           split; [reflexivity |]. split; [| auto].
           intros d1 fs1 Hb. apply (Hbefore d1 fs1). now right.
Qed.

Lemma find_in_walk_None file walk :
  find_in_walk file walk = None <-> forall d fs, In (d, fs) walk -> file ∉ fs.
Proof.
  induction walk as [| [d fs] walk IH]; cbn; [split; [intros _ ? ? [] | reflexivity] |].
  case_bool_decide as Hin.
  - split; [discriminate |]. intros Hall. now destruct (Hall d fs (or_introl eq_refl)).
  - rewrite IH. split.
    + intros Hall d0 fs0 [[= <- <-] | Hb]; eauto.
    + intros Hall d0 fs0 Hb. apply (Hall d0 fs0). now right.
Qed.

Lemma find_in_paths_Some file paths f :
  find_in_paths file paths = Some f <->
  exists earlier root later,
    paths = earlier ++ root :: later /\
    (forall r d fs, In r earlier -> In (d, fs) (os_walk r) -> file ∉ fs) /\
    find_in_walk file (os_walk root) = Some f.
Proof.
  induction paths as [| p paths IH]; cbn.
  - split; [discriminate |]. intros (earlier & ? & ? & Heq & _). now destruct earlier.
  - destruct (find_in_walk file (os_walk p)) as [f0 |] eqn:Hp.
    + split.
      * intros [= <-]. exists [], p, paths.
        split; [reflexivity |]. split; [intros ? ? ? [] | exact Hp].
      * intros (earlier & root & later & Heq & Hearlier & Hroot).
        destruct earlier as [| r0 earlier]; cbn in Heq.
        -- injection Heq as <- <-. congruence.
        -- injection Heq as -> ->.
           apply find_in_walk_Some in Hp as (b & d & fs & a & Hw & _ & Hin & _).
           destruct (Hearlier r0 d fs (or_introl eq_refl)); [| exact Hin].
           rewrite Hw. apply in_elt.
    + rewrite IH. split.
      * intros (earlier & root & later & -> & Hearlier & Hroot).
        exists (p :: earlier), root, later.
        split; [reflexivity |]. split; [| exact Hroot].
        intros r d fs [<- | Hr] Hd; [| eauto].
        now apply (proj1 (find_in_walk_None file (os_walk p)) Hp d fs).
      * intros (earlier & root & later & Heq & Hearlier & Hroot).
        destruct earlier as [| r0 earlier]; cbn in Heq.
        -- injection Heq as <- <-. congruence.
        -- injection Heq as -> ->. exists earlier, root, later.
           split; [reflexivity |]. split; [| exact Hroot].
           intros r d fs Hr. apply Hearlier. now right.
Qed.

Lemma find_in_paths_None file paths :
  find_in_paths file paths = None <->
  forall r d fs, In r paths -> In (d, fs) (os_walk r) -> file ∉ fs.
Proof.
  induction paths as [| p paths IH]; cbn; [split; [intros _ ? ? ? [] | reflexivity] |].
  destruct (find_in_walk file (os_walk p)) as [f0 |] eqn:Hp.
  - split; [discriminate |]. intros Hall.
    apply find_in_walk_Some in Hp as (b & d & fs & a & Hw & _ & Hin & _).
    destruct (Hall p d fs (or_introl eq_refl)); [| exact Hin]. rewrite Hw. apply in_elt.
  - rewrite IH. split.
    + intros Hall r d fs [<- | Hr] Hd; [| eauto].
      now apply (proj1 (find_in_walk_None file (os_walk p)) Hp d fs).
    + intros Hall r d fs Hr. apply Hall. now right.
Qed.

(** X12: [template_file name] returns the path of [<name>.yaml] in the first
    directory, in walk order, of the first root of [template_path] that
    holds a file of that name; it raises the error of [util.fail] exactly
    when no walked directory of any root holds one. *)
Theorem template_file_is_the_first_match (self : TemplateRetriever.t) (name : string) :
  let file := name +:+ ".yaml" in
  (forall f,
     template_file self (YStr name) = Ok f <->
     exists earlier root later before dirpath filenames after,
       template_path self = earlier ++ root :: later /\
       (forall r d fs, In r earlier -> In (d, fs) (os_walk r) -> file ∉ fs) /\
       os_walk root = before ++ (dirpath, filenames) :: after /\
       (forall d fs, In (d, fs) before -> file ∉ fs) /\
       file ∈ filenames /\ f = path_join dirpath file) /\
  ((exists e, template_file self (YStr name) = Raise e) <->
   forall r d fs, In r (template_path self) -> In (d, fs) (os_walk r) -> file ∉ fs).
Proof.
  intros file. split.
  - intros f. unfold template_file. fold file.
    destruct (find_in_paths file (template_path self)) as [f0 |] eqn:Hfind.
    + split.
      * intros [= <-]. apply find_in_paths_Some in Hfind
          as (earlier & root & later & Hp & Hearlier & Hroot).
        apply find_in_walk_Some in Hroot as (before & d & fs & after & Hw & Hb & Hin & ->).
        exists earlier, root, later, before, d, fs, after. auto 10.
      * intros (earlier & root & later & before & d & fs & after
                & Hp & Hearlier & Hw & Hb & Hin & ->).
        assert (Hf : find_in_paths file (template_path self) = Some (path_join d file)).
        { apply find_in_paths_Some. exists earlier, root, later.
          split; [exact Hp |]. split; [exact Hearlier |].
          apply find_in_walk_Some. exists before, d, fs, after. auto. }
        congruence.
    + split; [discriminate |].
      intros (earlier & root & later & before & d & fs & after
              & Hp & Hearlier & Hw & Hb & Hin & ->).
      assert (Hf : find_in_paths file (template_path self) = Some (path_join d file)).
      { apply find_in_paths_Some. exists earlier, root, later.
        split; [exact Hp |]. split; [exact Hearlier |].
        apply find_in_walk_Some. exists before, d, fs, after. auto. }
      congruence.
  - rewrite <- find_in_paths_None. unfold template_file. fold file.
    destruct (find_in_paths file (template_path self)).
    + split; [intros [e [=]] | discriminate].
    + split; [reflexivity | eauto].
Qed.

End TemplateFacts.

(** ** The boundary of the renderer *)

Section RendererBoundaryFacts.
Import Renderer DefinitionDescriptor.
Context `{Builtins} `{Util} `{FileSystem} `{Templating}.

Lemma _render_attaches (self : Renderer.t) (d d' : DefinitionDescriptor.t) :
  _render self d = Ok d' ->
  has_include_dir self = true /\ exists text, d' = set_pipeline d text.
Proof.
  unfold _render, self_cfg_set. intros Hr.
  destruct (_render_locals self d) as [locals | e]; [cbn [bind] in Hr | discriminate].
  destruct (lookup self) as [lk | e]; [cbn [bind] in Hr | discriminate].
  destruct (has_include_dir self); [cbn [bind] in Hr | discriminate].
  destruct (template_render _ _ _ _ _) as [text | e]; [| discriminate].
  injection Hr as <-. eauto.
Qed.

Lemma render_returns_cases (self : Renderer.t) (d : DefinitionDescriptor.t)
    (res : RenderResult.t) :
  render self d = Ok res ->
  (exists text,
     res = {| RenderResult.definition_descriptor := set_pipeline d text;
              RenderResult.render_status := RenderStatus.SUCCEEDED;
              RenderResult.error_details := None |}) \/
  (exists e,
     _render self d = Raise e /\ is_Exception e = true /\
     res = {| RenderResult.definition_descriptor := d;
              RenderResult.render_status := RenderStatus.FAILED;
              RenderResult.error_details := Some (format_exc e) |}).
Proof.
  unfold render. intros Hres. destruct (_render self d) as [d' | e] eqn:Hr.
  - apply _render_attaches in Hr as [_ [text ->]]. injection Hres as <-.
    left. eauto.
  - destruct (is_Exception e) eqn:He; [| discriminate].
    injection Hres as <-. right. eauto.
Qed.

(** X13: whatever [render] returns is either a SUCCEEDED result without error
    detail whose descriptor is the given one with the rendered text
    attached, or a FAILED result with the trace of an [Exception] as error
    detail and the given descriptor unchanged; and an error [render] raises
    is the error [_render] raised and is no [Exception]. *)
Theorem render_result_shape (self : Renderer.t) (d : DefinitionDescriptor.t) :
  (forall res,
     render self d = Ok res ->
     (exists text,
        res = {| RenderResult.definition_descriptor := set_pipeline d text;
                 RenderResult.render_status := RenderStatus.SUCCEEDED;
                 RenderResult.error_details := None |}) \/
     (exists e,
        _render self d = Raise e /\ is_Exception e = true /\
        res = {| RenderResult.definition_descriptor := d;
                 RenderResult.render_status := RenderStatus.FAILED;
                 RenderResult.error_details := Some (format_exc e) |})) /\
  (forall e,
     render self d = Raise e <-> _render self d = Raise e /\ is_Exception e = false).
Proof.
  split; [apply render_returns_cases |].
  unfold render. intros e. destruct (_render self d) as [d' | e'] eqn:Hr.
  - split; [discriminate | intros [[=] _]].
  - destruct (is_Exception e') eqn:He.
    + split; [discriminate | intros [[= ->] Hn]; congruence].
    + split; [intros [= ->]; auto | intros [[= ->] _]; reflexivity].
Qed.

(** X14: a renderer constructed without template include directory (none, or
    the empty string) has no template lookup, so it never renders
    successfully: every result it returns is FAILED and carries the given
    descriptor unchanged. *)
Theorem render_without_include_dir_fails (self : Renderer.t)
    (d : DefinitionDescriptor.t) (res : RenderResult.t) :
  has_include_dir self = false ->
  render self d = Ok res ->
  RenderResult.render_status res = RenderStatus.FAILED /\
  RenderResult.definition_descriptor res = d /\
  exists details, RenderResult.error_details res = Some details.
Proof.
  intros Hdir Hres. unfold render in Hres.
  destruct (_render self d) as [d' | e] eqn:Hr.
  - apply _render_attaches in Hr as [Hdir' _]. congruence.
  - destruct (is_Exception e); [| discriminate].
    injection Hres as <-. cbn. eauto.
Qed.

End RendererBoundaryFacts.

(** ** The boundaries of the deployers *)

Section DeployerBoundaryFacts.
Import DefinitionDescriptor.
Context `{Builtins} `{ConcourseClient}.

Lemma deploy_rendered_cases (self : ConcourseDeployer.t) (d : DefinitionDescriptor.t)
    (w : World) (text : string) r w' l :
  pipeline d = Some text ->
  ConcourseDeployer.deploy self d w = (r, w', l) ->
  (forall e, r = Raise e -> is_Exception e = false) /\
  (forall res, r = Ok res ->
     DeployResult.definition_descriptor res = d /\
     ((DeployResult.deploy_status res = DeployStatus.SUCCEEDED \/
       DeployResult.deploy_status res
       = Z.lor DeployStatus.SUCCEEDED DeployStatus.CREATED) /\
      DeployResult.error_details res = None /\
      l = ConcourseDeployer.attempted_calls self d text \/
      DeployResult.deploy_status res = DeployStatus.FAILED /\
      exists e, is_Exception e = true /\
                DeployResult.error_details res = Some (Traceback (format_exc e)))) /\
  (forall c, In c l -> call_target c = deploy_target d) /\
  (forall t, t ≠ deploy_target d -> pipelines_at w' t = pipelines_at w t).
Proof.
  intros Htext. unfold ConcourseDeployer.deploy. rewrite Htext.
  unfold try_except, bindM, client.from_cfg, client.set_pipeline,
    client.unpause_pipeline, client.expose_pipeline, client.api_call, ret, raise,
    ConcourseDeployer.attempted_calls.
  fold (deploy_target d).
  assert (Hset : forall t, t ≠ deploy_target d ->
            pipelines_at (set_pipelines_at w (deploy_target d)
                            (pipelines_at w (deploy_target d) ++ [pipeline_name d])) t
            = pipelines_at w t).
  { intros t Ht. now apply pipelines_at_set_other. }
  assert (Hleaf : forall (r0 : result DeployResult.t) (w0 : World) (l0 : list ApiCall),
            (forall e, r0 = Raise e -> is_Exception e = false) ->
            (forall res, r0 = Ok res ->
               DeployResult.definition_descriptor res = d /\
               ((DeployResult.deploy_status res = DeployStatus.SUCCEEDED \/
                 DeployResult.deploy_status res
        = Z.lor DeployStatus.SUCCEEDED DeployStatus.CREATED) /\
                DeployResult.error_details res = None /\
                l0 = [FromCfg (deploy_target d);
                      SetPipeline (deploy_target d) (pipeline_name d) text] ++
                     (if ConcourseDeployer.unpause_pipelines self
                      then [UnpausePipeline (deploy_target d) (pipeline_name d)]
                      else []) ++
                     (if ConcourseDeployer.expose_pipelines self
                      then [ExposePipeline (deploy_target d) (pipeline_name d)]
                      else []) \/
                DeployResult.deploy_status res = DeployStatus.FAILED /\
                exists e, is_Exception e = true /\
                          DeployResult.error_details res
                          = Some (Traceback (format_exc e)))) ->
            (forall c, In c l0 -> call_target c = deploy_target d) ->
            (forall t, t ≠ deploy_target d -> pipelines_at w0 t = pipelines_at w t) ->
            (r0, w0, l0) = (r, w', l) ->
            (forall e, r = Raise e -> is_Exception e = false) /\
            (forall res, r = Ok res ->
               DeployResult.definition_descriptor res = d /\
               ((DeployResult.deploy_status res = DeployStatus.SUCCEEDED \/
                 DeployResult.deploy_status res
        = Z.lor DeployStatus.SUCCEEDED DeployStatus.CREATED) /\
                DeployResult.error_details res = None /\
                l = [FromCfg (deploy_target d);
                     SetPipeline (deploy_target d) (pipeline_name d) text] ++
                    (if ConcourseDeployer.unpause_pipelines self
                     then [UnpausePipeline (deploy_target d) (pipeline_name d)]
                     else []) ++
                    (if ConcourseDeployer.expose_pipelines self
                     then [ExposePipeline (deploy_target d) (pipeline_name d)]
                     else []) \/
                DeployResult.deploy_status res = DeployStatus.FAILED /\
                exists e, is_Exception e = true /\
                          DeployResult.error_details res
                          = Some (Traceback (format_exc e)))) /\
            (forall c, In c l -> call_target c = deploy_target d) /\
            (forall t, t ≠ deploy_target d -> pipelines_at w' t = pipelines_at w t)).
  { intros r0 w0 l0 H1 H2 H3 H4 [= <- <- <-]. auto. }
  destruct (api_fault (FromCfg (deploy_target d))) as [e0 |].
  { destruct (is_Exception e0) eqn:E0;
      (apply Hleaf;
       [ intros e' He'; first [discriminate He' | injection He' as <-; assumption]
       | intros res Hres;
         first [ discriminate Hres
               | injection Hres as <-; cbn; split; [reflexivity |]; right; eauto ]
       | intros c []
       | reflexivity ]). }
  cbn [fst snd].
  destruct (api_fault (SetPipeline (deploy_target d) (pipeline_name d) text)) as [e1 |].
  { destruct (is_Exception e1) eqn:E1;
      (apply Hleaf;
       [ intros e' He'; first [discriminate He' | injection He' as <-; assumption]
       | intros res Hres;
         first [ discriminate Hres
               | injection Hres as <-; cbn; split; [reflexivity |]; right; eauto ]
       | intros c [<- | []]; reflexivity
       | reflexivity ]). }
  cbn [fst snd].
  destruct (bool_decide (pipeline_name d ∈ pipelines_at w (deploy_target d)));
    cbn [fst snd];
    destruct (ConcourseDeployer.unpause_pipelines self);
    destruct (ConcourseDeployer.expose_pipelines self);
    repeat match goal with
           | |- context [api_fault ?c] =>
               let e := fresh "e" in
               let E := fresh "E" in
               destruct (api_fault c) as [e |];
               [destruct (is_Exception e) eqn:E |]
           end;
    cbn;
    (apply Hleaf;
     [ intros e' He'; first [discriminate He' | injection He' as <-; assumption]
     | intros res Hres;
       first [ discriminate Hres
             | injection Hres as <-; cbn; split; [reflexivity |];
               first [ left; repeat split; auto; fail | right; eauto ] ]
     | intros c Hc; cbn in Hc; intuition (subst; reflexivity)
     | intros t Ht; auto ]).
Qed.

(** X15: [ConcourseDeployer.deploy] on a descriptor without rendered text
    raises AttributeError before any call (the attribute is read outside
    the try block).  On a rendered descriptor every [Exception] becomes a
    FAILED result with the trace as error detail; a returned result carries
    the given descriptor and has status SUCCEEDED or SUCCEEDED|CREATED
    without error detail, or FAILED; a raised error is no [Exception]; all
    calls are made at the descriptor's target and the pipelines of the other
    targets stay as they are. *)
Theorem deploy_boundary (self : ConcourseDeployer.t) (d : DefinitionDescriptor.t)
    (w : World) :
  (pipeline d = None ->
   ConcourseDeployer.deploy self d w = (Raise (AttributeError "pipeline"), w, [])) /\
  (forall text r w' l,
     pipeline d = Some text ->
     ConcourseDeployer.deploy self d w = (r, w', l) ->
     (forall e, r = Raise e -> is_Exception e = false) /\
     (forall res, r = Ok res ->
        DeployResult.definition_descriptor res = d /\
        ((DeployResult.deploy_status res = DeployStatus.SUCCEEDED \/
          DeployResult.deploy_status res
          = Z.lor DeployStatus.SUCCEEDED DeployStatus.CREATED) /\
         DeployResult.error_details res = None /\
         l = ConcourseDeployer.attempted_calls self d text \/
         DeployResult.deploy_status res = DeployStatus.FAILED /\
         exists e, is_Exception e = true /\
                   DeployResult.error_details res = Some (Traceback (format_exc e)))) /\
     (forall c, In c l -> call_target c = deploy_target d) /\
     (forall t, t ≠ deploy_target d -> pipelines_at w' t = pipelines_at w t)).
Proof.
  split.
  - intros Hnone. unfold ConcourseDeployer.deploy. now rewrite Hnone.
  - intros text r w' l. apply deploy_rendered_cases.
Qed.

End DeployerBoundaryFacts.

(** ** The replicator that [replicate_pipelines] builds *)

Section WiredReplicatorFacts.
Import DefinitionDescriptor.
Context `{Builtins} `{Util} `{FileSystem} `{Templating} `{ConcourseClient}.

(** X21: one descriptor through the preprocessor, the renderer and the CI
    deployer.  An error that escapes is no [Exception], unless the
    descriptor has no discovery exception and a tuple of overrides (built
    nowhere in the two files), on which the preprocessor raises
    AttributeError before any call; a returned result is routed to the
    descriptor's target and names the pipeline [<name>-<branch>] (the
    descriptor's own name when it failed at discovery), with status SKIPPED,
    FAILED, SUCCEEDED or SUCCEEDED|CREATED; a SKIPPED result made no call;
    every call is made at the descriptor's target and the other targets keep
    their pipelines. *)
Theorem replicated_descriptor_boundary (cfg_set : ConfigSet) (template_path : list string)
    (template_include_dir : option string) (unpause_pipelines expose_pipelines : bool)
    (d : DefinitionDescriptor.t) (w : World) r w' l stages :
  PipelineReplicator._process_definition_descriptor
    (replicate_pipelines_replicator cfg_set template_path template_include_dir
       unpause_pipelines expose_pipelines) d w = (r, w', l, stages) ->
  (forall e, r = Raise e ->
     is_Exception e = false \/
     exception d = None /\ (exists items, override_definitions d = OTuple items) /\
     e = AttributeError "append" /\ l = [] /\ w' = w) /\
  (forall res, r = Ok res ->
     DeployResult.target res = deploy_target d /\
     DeployResult.name res =
       match exception d with
       | None => pipeline_name d +:+ "-" +:+ branch (main_repo d)
       | Some _ => pipeline_name d
       end /\
     (DeployResult.deploy_status res = DeployStatus.SKIPPED /\ l = [] /\ w' = w \/
      DeployResult.deploy_status res = DeployStatus.FAILED \/
      DeployResult.deploy_status res = DeployStatus.SUCCEEDED \/
      DeployResult.deploy_status res
      = Z.lor DeployStatus.SUCCEEDED DeployStatus.CREATED)) /\
  (forall c, c ∈ l -> call_target c = deploy_target d) /\
  (forall t, t ≠ deploy_target d -> pipelines_at w' t = pipelines_at w t).
Proof.
  unfold PipelineReplicator._process_definition_descriptor, replicate_pipelines_replicator.
  cbn [PipelineReplicator.descriptor_preprocessor PipelineReplicator.definition_renderer
       PipelineReplicator.definition_deployer].
  destruct (exception d) as [e0 |] eqn:Hexc.
  { intros [= <- <- <- <-]. split; [discriminate |]. split; [| split].
    - intros res [= <-]. cbn. unfold DeployResult.name, DeployResult.target. cbn.
      split; [reflexivity |]. split; [reflexivity | auto].
    - intros c Hc. now apply elem_of_nil in Hc.
    - reflexivity. }
  unfold lift.
  destruct (override_definitions d) as [items | items] eqn:Hitems.
  2: { rewrite (process_definition_descriptor_tuple d items Hitems).
       intros [= <- <- <- <-]. split; [| split; [discriminate | split]].
       - intros e' [= <-]. right. eauto 10.
       - intros c Hc. now apply elem_of_nil in Hc.
       - reflexivity. }
  rewrite (process_definition_descriptor_list d items Hitems).
  set (processed :=
         set_override_definitions
           (DefinitionDescriptorPreprocessor._add_branch_to_pipeline_name d) _).
  destruct (Renderer.render _ processed) as [result | e] eqn:Hrender.
  2: { intros [= <- <- <- <-]. split; [| split; [discriminate | split]].
       - intros e' [= <-]. left. exact (render_raises_no_Exception _ _ _ Hrender).
       - intros c Hc. now apply elem_of_nil in Hc.
       - reflexivity. }
  apply render_returns_cases in Hrender as [[text ->] | (e & _ & _ & ->)];
    cbn [RenderResult.render_status RenderResult.definition_descriptor
         RenderResult.error_details].
  - destruct (ConcourseDeployer.deploy _ _ w) as [[r3 w3] l3] eqn:Hdeploy.
    intros [= <- <- <- <-].
    apply (deploy_rendered_cases _ _ _ text) in Hdeploy
      as (Hraise & Hres & Hcalls & Hframe); [| reflexivity].
    split; [intros e He; left; exact (Hraise e He) |]. split; [| split].
    + intros res Hr. destruct (Hres res Hr) as [Hd Hstatus].
      unfold DeployResult.name, DeployResult.target. rewrite Hd. cbn.
      split; [reflexivity |]. split; [reflexivity |].
      destruct Hstatus as [([-> | ->] & _) | [-> _]]; auto.
    + intros c Hc. cbn in Hc. apply list_elem_of_In in Hc. exact (Hcalls c Hc).
    + exact Hframe.
  - intros [= <- <- <- <-]. split; [discriminate |]. split; [| split].
    + intros res [= <-]. unfold DeployResult.name, DeployResult.target. cbn.
      split; [reflexivity |]. split; [reflexivity | auto].
    + intros c Hc. now apply elem_of_nil in Hc.
    + reflexivity.
Qed.

End WiredReplicatorFacts.

Section FilesystemDeployerFacts.
Import DefinitionDescriptor FilesystemDeployer.
Context `{FileSystem} `{FileWriting}.

(** X16: [FilesystemDeployer.deploy] turns every [Exception] into a FAILED
    result and raises nothing but other errors; its results carry the given
    descriptor and never an error detail, with status exactly SUCCEEDED or
    FAILED; on SUCCEEDED the file [<base_dir>/<pipeline_name>] holds the
    rendered text; no other file changes; and a descriptor without rendered
    text gives FAILED after the file has been opened for writing, which
    leaves it empty. *)
Theorem filesystem_deploy_boundary (self : FilesystemDeployer.t)
    (d : DefinitionDescriptor.t) (disk : Disk) :
  let f := path_join (base_dir self) (pipeline_name d) in
  let run := deploy self d disk in
  (forall e, fst run = Raise e -> is_Exception e = false) /\
  (forall res, fst run = Ok res ->
     DeployResult.definition_descriptor res = d /\
     DeployResult.error_details res = None /\
     (DeployResult.deploy_status res = DeployStatus.SUCCEEDED /\
      (exists text, pipeline d = Some text /\ files (snd run) !! f = Some text) \/
      DeployResult.deploy_status res = DeployStatus.FAILED)) /\
  (forall f', f' ≠ f -> files (snd run) !! f' = files disk !! f') /\
  (pipeline d = None -> open_fault f = None ->
   run = (Ok (failed d), {| files := <[f := ""]> (files disk) |})).
Proof.
  intros f run. subst run. unfold deploy, handle. fold f.
  destruct (open_fault f) as [e |].
  { destruct (is_Exception e) eqn:E; cbn;
      (split; [intros e' [=]; subst; assumption || discriminate |]);
      (split; [intros res [=]; subst; cbn; auto |]);
      (split; [reflexivity | discriminate]). }
  destruct (pipeline d) as [text |].
  - destruct (write_fault f) as [e |].
    + destruct (is_Exception e) eqn:E; cbn;
        (split; [intros e' [=]; subst; assumption || discriminate |]);
        (split; [intros res [=]; subst; cbn; auto |]);
        (split; [intros f' Hf'; now rewrite lookup_insert_ne by congruence
                | discriminate]).
    + cbn. split; [discriminate |]. split.
      * intros res [= <-]. cbn. split; [reflexivity |]. split; [reflexivity |].
        left. split; [reflexivity |]. exists text. split; [reflexivity |].
        now rewrite lookup_insert_eq.
      * split; [| discriminate]. intros f' Hf'.
        now rewrite !lookup_insert_ne by congruence.
  - cbn. split; [discriminate |]. split.
    + intros res [= <-]. cbn. auto.
    + split; [| reflexivity]. intros f' Hf'.
      now rewrite lookup_insert_ne by congruence.
Qed.

End FilesystemDeployerFacts.

(** ** The calls of the result processor *)

Section ProcessorTraceFacts.
Import ReplicationResultProcessor DefinitionDescriptor.
Context `{ConcourseClient} `{Notification}.

Lemma api_call_cases {A} (c : ApiCall) (effect : World -> A * World) w r w' l :
  client.api_call c effect w = (r, w', l) ->
  (r = Ok (fst (effect w)) /\ w' = snd (effect w) /\ l = [c]) \/
  (exists e, r = Raise e /\ w' = w /\ l = []).
Proof.
  intros Hrun.
  apply api_call_inv in Hrun as [(_ & -> & -> & ->) | (e & _ & -> & -> & ->)]; eauto.
Qed.

(** A loop whose turns leave the server as it is. *)
Lemma forM_log {A} (f : A -> list ApiCall) (body : A -> M unit) (xs : list A) :
  (forall x w r w' l,
     body x w = (r, w', l) ->
     w' = w /\ l `prefix_of` f x /\ (forall u, r = Ok u -> l = f x)) ->
  forall w r w' l,
    forM_ xs body w = (r, w', l) ->
    w' = w /\ l `prefix_of` flat_map f xs /\ (forall u, r = Ok u -> l = flat_map f xs).
Proof.
  intros Hbody. induction xs as [| x xs IH]; intros w r w' l Hrun; cbn in Hrun.
  - injection Hrun as <- <- <-. cbn. split; [reflexivity |]. split; [reflexivity | auto].
  - apply bindM_inv in Hrun as [(u & w1 & l1 & l2 & Hx & Hrest & ->) | (e & Hx & ->)].
    + apply Hbody in Hx as (-> & _ & Hl1). rewrite (Hl1 u eq_refl).
      apply IH in Hrest as (-> & Hpre & Hl2). cbn [flat_map].
      split; [reflexivity |]. split; [now apply prefix_app |].
      intros u' Hr. now rewrite (Hl2 u' Hr).
    + apply Hbody in Hx as (-> & Hpre & _). cbn [flat_map].
      split; [reflexivity |]. split; [now apply prefix_app_r | discriminate].
Qed.

Lemma initialise_log (t : Target) (members : list DeployResult.t) w r w' l :
  _initialise_new_pipeline_resources t members w = (r, w', l) ->
  w' = w /\ l `prefix_of` initialise_calls t members /\
  (forall u, r = Ok u -> l = initialise_calls t members).
Proof.
  unfold _initialise_new_pipeline_resources, initialise_calls.
  apply forM_log. clear w r w' l. intros p w r w' l Hrun.
  apply bindM_inv in Hrun as [(u & w1 & l1 & l2 & Hun & Hrun & ->) | (e & Hun & ->)].
  2: { apply api_call_cases in Hun as [([=] & _) | (e' & _ & -> & ->)].
       split; [reflexivity |]. split; [apply prefix_nil | discriminate]. }
  apply api_call_cases in Hun as [(_ & -> & ->) | (e' & [=] & _)]. cbn [snd].
  apply bindM_inv in Hrun as [(rs & w2 & l2' & l3 & Hres & Hrun & ->) | (e & Hres & ->)].
  2: { apply api_call_cases in Hres as [([=] & _) | (e' & _ & -> & ->)].
       split; [reflexivity |].
       split; [apply (prefix_app [_]), prefix_nil | discriminate]. }
  apply api_call_cases in Hres as [([= ->] & -> & ->) | (e' & [=] & _)]. cbn [fst snd] in *.
  apply (forM_log
           (fun resource => [TriggerResourceCheck t p (resource_name resource)])) in Hrun.
  - destruct Hrun as (-> & Hpre & Hl).
    assert (Hflat : forall rs : list Resource,
               flat_map (fun resource => [TriggerResourceCheck t p (resource_name resource)]) rs
               = map (fun resource => TriggerResourceCheck t p (resource_name resource)) rs).
    { intros rs. induction rs as [| x rs IH]; cbn; [reflexivity | now rewrite IH]. }
    rewrite Hflat in Hpre, Hl.
    split; [reflexivity |]. split.
    + apply (prefix_app [_]), (prefix_app [_]), Hpre.
    + intros u' Hr. now rewrite (Hl u' Hr).
  - intros x w0 r0 w0' l0 Hx.
    apply api_call_cases in Hx as [(-> & -> & ->) | (e' & -> & -> & ->)]; cbn.
    + split; [reflexivity |]. split; [reflexivity | auto].
    + split; [reflexivity |]. split; [apply prefix_nil | discriminate].
Qed.

Lemma delete_loop_log (t : Target) (ns : list string) : forall w r w' l,
  forM_ ns (fun pipeline_name => client.delete_pipeline t pipeline_name) w = (r, w', l) ->
  l `prefix_of` map (DeletePipeline t) ns /\
  (forall u, r = Ok u ->
     l = map (DeletePipeline t) ns /\
     pipelines_at w' t = filter (fun p => p ∉ ns) (pipelines_at w t)).
Proof.
  induction ns as [| n ns IH]; intros w r w' l Hrun; cbn in Hrun.
  - injection Hrun as <- <- <-. split; [reflexivity |]. intros _ _.
    split; [reflexivity |].
    induction (pipelines_at w t) as [| p ps IHp]; [reflexivity |].
    rewrite filter_cons_True by apply not_elem_of_nil. now rewrite <- IHp.
  - apply bindM_inv in Hrun as [(a & w1 & l1 & l2 & Hd & Hrest & ->) | (e & Hd & ->)].
    + apply api_call_cases in Hd as [(_ & -> & ->) | (e & [=] & _)].
      apply IH in Hrest as (Hpre & Hok). cbn [map snd] in *.
      split; [now apply (prefix_app [_]) |].
      intros u Hr. destruct (Hok u Hr) as [-> ->]. split; [reflexivity |].
      rewrite pipelines_at_set_same, list_filter_filter.
      apply list_filter_iff. intros p. rewrite not_elem_of_cons. tauto.
    + apply api_call_cases in Hd as [([=] & _) | (e' & _ & -> & ->)].
      split; [apply prefix_nil | discriminate].
Qed.

Lemma filter_ext_elem {A} (P Q : A -> Prop) `{!forall x, Decision (P x)}
    `{!forall x, Decision (Q x)} (l : list A) :
  (forall x, x ∈ l -> P x <-> Q x) -> filter P l = filter Q l.
Proof.
  induction l as [| x l IH]; intros Hl; [reflexivity |].
  assert (Hx : P x <-> Q x) by (apply Hl; left).
  assert (Hrest : filter P l = filter Q l) by (apply IH; intros y Hy; apply Hl; now right).
  destruct (decide (P x)) as [Hp | Hp].
  - rewrite !filter_cons_True by tauto. now rewrite Hrest.
  - rewrite !filter_cons_False by tauto. exact Hrest.
Qed.

Lemma filter_all {A} (P : A -> Prop) `{!forall x, Decision (P x)} (l : list A) :
  (forall x, x ∈ l -> P x) -> filter P l = l.
Proof.
  induction l as [| x l IH]; intros Hl; [reflexivity |].
  rewrite filter_cons_True by (apply Hl; left).
  rewrite IH; [reflexivity |]. intros y Hy. apply Hl. now right.
Qed.

Lemma filter_none {A} (P : A -> Prop) `{!forall x, Decision (P x)} (l : list A) :
  (forall x, x ∈ l -> ~ P x) -> filter P l = [].
Proof.
  induction l as [| x l IH]; intros Hl; [reflexivity |].
  rewrite filter_cons_False by (apply Hl; left).
  apply IH. intros y Hy. apply Hl. now right.
Qed.

Lemma insert_string_perm (x : string) (l : list string) :
  Permutation (insert_string x l) (x :: l).
Proof.
  induction l as [| y l IH]; cbn; [reflexivity |].
  destruct (String.leb x y); [reflexivity |].
  rewrite IH. apply perm_swap.
Qed.

Lemma sort_strings_perm (l : list string) : Permutation (sort_strings l) l.
Proof.
  induction l as [| x l IH]; cbn; [reflexivity |].
  rewrite insert_string_perm. now constructor.
Qed.

Lemma sort_strings_elem (l : list string) (p : string) : p ∈ sort_strings l <-> p ∈ l.
Proof. now rewrite sort_strings_perm. Qed.

Lemma insert_string_sorted (x : string) (l : list string) :
  Sorted (fun a b => String.leb a b = true) l ->
  Sorted (fun a b => String.leb a b = true) (insert_string x l).
Proof.
  induction l as [| y l IH]; cbn; intros Hs.
  - repeat constructor.
  - destruct (String.leb x y) eqn:Hxy.
    + constructor; [exact Hs | now constructor].
    + apply Sorted_inv in Hs as [Hs Hhd]. constructor; [auto |].
      assert (Hyx : String.leb y x = true).
      { destruct (String.leb_total x y) as [Hc | Hc]; [congruence | exact Hc]. }
      destruct l as [| z l]; cbn.
      * now constructor.
      * destruct (String.leb x z); constructor; [exact Hyx |].
        now apply HdRel_inv in Hhd.
Qed.

Lemma sort_strings_sorted (l : list string) :
  Sorted (fun a b => String.leb a b = true) (sort_strings l).
Proof.
  induction l as [| x l IH]; cbn; [constructor | now apply insert_string_sorted].
Qed.

(** Reordering by the sorted list of all names leaves that list. *)
Lemma order_by_sorted (cur : list string) :
  filter (fun p => p ∈ cur) (sort_strings cur) ++
  filter (fun p => p ∉ sort_strings cur) cur = sort_strings cur.
Proof.
  rewrite filter_all by (intros p Hp; now apply sort_strings_elem).
  rewrite filter_none; [apply app_nil_r |].
  intros p Hp Hnot. apply Hnot. now apply sort_strings_elem.
Qed.

Lemma stale_names_elem (known : list string) (members : list DeployResult.t) (p : string) :
  p ∈ stale_names known members <-> p ∈ known /\ p ∉ map DeployResult.name members.
Proof.
  unfold stale_names, deployed_pipeline_names.
  rewrite elem_of_elements, elem_of_difference, !elem_of_list_to_set. reflexivity.
Qed.

Lemma kept_is_not_stale (known : list string) (members : list DeployResult.t) :
  filter (fun p => p ∉ stale_names known members) known = kept_names known members.
Proof.
  apply filter_ext_elem. intros p Hp. rewrite stale_names_elem.
  destruct (decide (p ∈ map DeployResult.name members)); tauto.
Qed.

(** One turn: the calls made are a prefix of the turn's calls, and all of
    them when the turn returns; the target then lists the kept names in
    sorted order. *)
Lemma reconcile_target_log (first : DeployResult.t) (rest : list DeployResult.t) w r w' l :
  reconcile_target (first :: rest) w = (r, w', l) ->
  let t := DeployResult.target first in
  let known := pipelines_at w t in
  l `prefix_of` reconcile_calls known (first :: rest) /\
  (forall u, r = Ok u ->
     l = reconcile_calls known (first :: rest) /\
     pipelines_at w' t = sort_strings (kept_names known (first :: rest))).
Proof.
  intros Hrun t known. unfold reconcile_calls. cbn [bucket_target]. fold t.
  unfold reconcile_target in Hrun.
  change (client.from_cfg _ _) with
    (client.api_call (FromCfg t) (fun w => (t, w))) in Hrun.
  apply bindM_inv in Hrun as [(a & w1 & l1 & l2 & Hcfg & Hrun & ->) | (e & Hcfg & ->)].
  2: { apply api_call_cases in Hcfg as [([=] & _) | (e' & _ & -> & ->)].
       split; [apply prefix_nil | discriminate]. }
  apply api_call_cases in Hcfg as [([= ->] & -> & ->) | (e' & [=] & _)].
  cbn beta iota delta [fst snd] in Hrun.
  apply bindM_inv in Hrun as [(kn & w2 & l2' & l3 & Hps & Hrun & ->) | (e & Hps & ->)].
  2: { apply api_call_cases in Hps as [([=] & _) | (e' & _ & -> & ->)].
       split; [apply prefix_app, prefix_nil | discriminate]. }
  apply api_call_cases in Hps as [([= ->] & -> & ->) | (e' & [=] & _)].
  cbn beta iota delta [fst snd] in Hrun. fold known in Hrun.
  change (elements (list_to_set known ∖ deployed_pipeline_names (first :: rest)))
    with (stale_names known (first :: rest)) in Hrun.
  apply bindM_inv in Hrun as [(u1 & w3 & l3' & l4 & Hdel & Hrun & ->) | (e & Hdel & ->)].
  2: { apply delete_loop_log in Hdel as (Hpre & _).
       split; [| discriminate].
       apply prefix_app, prefix_app. now apply prefix_app_r. }
  apply delete_loop_log in Hdel as (_ & Hdel).
  destruct (Hdel u1 eq_refl) as [-> Hinv]. fold known in Hinv.
  rewrite kept_is_not_stale in Hinv.
  apply bindM_inv in Hrun as [(u2 & w4 & l4' & l5 & Hinit & Hrun & ->) | (e & Hinit & ->)].
  2: { apply initialise_log in Hinit as (_ & Hpre & _).
       split; [| discriminate].
       apply prefix_app, prefix_app, prefix_app. now apply prefix_app_r. }
  apply initialise_log in Hinit as (-> & _ & Hinit). rewrite (Hinit u2 eq_refl).
  apply bindM_inv in Hrun as [(ps & w5 & l5' & l6 & Hps & Hrun & ->) | (e & Hps & ->)].
  2: { apply api_call_cases in Hps as [([=] & _) | (e' & _ & -> & ->)].
       split; [| discriminate].
       apply prefix_app, prefix_app, prefix_app, prefix_app, prefix_nil. }
  apply api_call_cases in Hps as [([= ->] & -> & ->) | (e' & [=] & _)].
  cbn beta iota delta [fst snd] in Hrun. rewrite Hinv in Hrun.
  apply api_call_cases in Hrun as [(-> & -> & ->) | (e' & -> & -> & ->)].
  - split; [reflexivity |]. intros _ _. split; [reflexivity |].
    cbn [snd]. rewrite pipelines_at_set_same, Hinv. apply order_by_sorted.
  - split; [| discriminate].
    apply prefix_app, prefix_app, prefix_app, prefix_app, prefix_app, prefix_nil.
Qed.

Lemma flat_map_ext_elem {A B} (f g : A -> list B) (l : list A) :
  (forall x, x ∈ l -> f x = g x) -> flat_map f l = flat_map g l.
Proof.
  induction l as [| x l IH]; intros Hl; cbn; [reflexivity |].
  rewrite (Hl x) by left. rewrite IH; [reflexivity |]. intros y Hy. apply Hl. now right.
Qed.

(** The loop over the buckets. *)
Lemma reconcile_all_log (bs : list (string * list DeployResult.t)) :
  (forall k ms, (k, ms) ∈ bs -> ms ≠ []) ->
  NoDup (map (fun b => bucket_target (snd b)) bs) ->
  forall w r w' l,
    forM_ bs (fun bucket => reconcile_target (snd bucket)) w = (r, w', l) ->
    let calls :=
      flat_map (fun b => reconcile_calls (pipelines_at w (bucket_target (snd b))) (snd b)) bs in
    l `prefix_of` calls /\
    (forall u, r = Ok u ->
       l = calls /\
       forall k ms, (k, ms) ∈ bs ->
         pipelines_at w' (bucket_target ms) =
         sort_strings (kept_names (pipelines_at w (bucket_target ms)) ms)).
Proof.
  induction bs as [| [k0 ms0] bs IH]; intros Hne Hnd w r w' l Hrun; cbn in Hrun.
  - injection Hrun as <- <- <-. cbn. split; [reflexivity |]. intros _ _.
    split; [reflexivity |]. intros k ms Hin. now apply elem_of_nil in Hin.
  - cbn in Hnd. apply NoDup_cons in Hnd as [Hfresh Hnd].
    assert (Hne' : forall k ms, (k, ms) ∈ bs -> ms ≠ []).
    { intros k ms Hin. apply (Hne k). now right. }
    assert (Hother : forall k ms, (k, ms) ∈ bs -> bucket_target ms ≠ bucket_target ms0).
    { intros k ms Hin Heq. apply Hfresh. rewrite <- Heq.
      apply list_elem_of_fmap. now exists (k, ms). }
    destruct ms0 as [| first rest]; [now destruct (Hne k0 []); [left |] |].
    cbn zeta. cbn [flat_map snd].
    apply bindM_inv in Hrun as [(u & w1 & l1 & l2 & Hhead & Htail & ->) | (e & Hhead & ->)].
    + pose proof (reconcile_target_spec _ _ _ _ _ _ Hhead) as (_ & _ & Hframe1).
      apply reconcile_target_log in Hhead as (_ & Hhead).
      destruct (Hhead u eq_refl) as [-> Hinv1].
      pose proof (reconcile_all_spec bs Hne' Hnd _ _ _ _ Htail) as (_ & _ & Hframe2).
      apply (IH Hne' Hnd) in Htail as (Hpre & Hok).
      assert (Hcalls :
                flat_map (fun b => reconcile_calls (pipelines_at w1 (bucket_target (snd b)))
                                     (snd b)) bs =
                flat_map (fun b => reconcile_calls (pipelines_at w (bucket_target (snd b)))
                                     (snd b)) bs).
      { apply flat_map_ext_elem. intros [k ms] Hin. cbn [snd].
        rewrite (Hframe1 (bucket_target ms)); [reflexivity |]. now apply (Hother k). }
      rewrite Hcalls in Hpre, Hok.
      split; [now apply prefix_app |].
      intros u' Hr. destruct (Hok u' Hr) as [-> Hinv2]. split; [reflexivity |].
      intros k ms Hin. apply elem_of_cons in Hin as [[= -> ->] | Hin].
      * cbn [bucket_target]. rewrite Hframe2; [exact Hinv1 |].
        intros k ms Hin. now apply (Hother k).
      * rewrite (Hinv2 k ms Hin).
        rewrite (Hframe1 (bucket_target ms)); [reflexivity |]. now apply (Hother k).
    + apply reconcile_target_log in Hhead as (Hpre & _).
      split; [now apply prefix_app_r | discriminate].
Qed.

Lemma process_results_log (results : list DeployResult.t) w r w' l :
  process_results results w = (r, w', l) ->
  l `prefix_of` replication_calls results w /\
  (forall b, r = Ok b ->
     l = replication_calls results w /\
     forall k ms, (k, ms) ∈ concourse_target_results results ->
       pipelines_at w' (bucket_target ms) =
       sort_strings (kept_names (pipelines_at w (bucket_target ms)) ms)).
Proof.
  intros Hrun. apply process_results_inv in Hrun as (r1 & Hsweep & Hb).
  pose proof (concourse_target_results_grouped results) as Hg.
  pose proof (grouped_targets_NoDup _ _ Hg) as Hnd.
  destruct Hg as (_ & Hmembers & _).
  apply reconcile_all_log in Hsweep as (Hpre & Hok);
    [| intros k ms Hin; now destruct (Hmembers k ms Hin) | exact Hnd].
  split; [exact Hpre |].
  intros b Hr. destruct (Hb b Hr) as [-> _]. exact (Hok tt eq_refl).
Qed.

(** Every call of a run is made at the target of one of its buckets. *)
Lemma replication_calls_target (results : list DeployResult.t) w c :
  c ∈ replication_calls results w ->
  exists k ms, (k, ms) ∈ concourse_target_results results /\
    call_target c = bucket_target ms /\
    c ∈ reconcile_calls (pipelines_at w (bucket_target ms)) ms.
Proof.
  unfold replication_calls. intros Hc.
  apply list_elem_of_In, in_flat_map in Hc as ([k ms] & Hb & Hc). cbn [snd] in Hc.
  apply list_elem_of_In in Hb, Hc.
  exists k, ms. split; [exact Hb |]. split; [| exact Hc].
  unfold reconcile_calls, initialise_calls in Hc.
  repeat (apply elem_of_app in Hc as [Hc | Hc]).
  - now apply list_elem_of_singleton in Hc as ->.
  - now apply list_elem_of_singleton in Hc as ->.
  - apply list_elem_of_fmap in Hc as (p & -> & _). reflexivity.
  - apply list_elem_of_In, in_flat_map in Hc as (p & _ & Hc).
    apply list_elem_of_In in Hc.
    apply elem_of_cons in Hc as [-> | Hc]; [reflexivity |].
    apply elem_of_cons in Hc as [-> | Hc]; [reflexivity |].
    apply list_elem_of_fmap in Hc as (x & -> & _). reflexivity.
  - now apply list_elem_of_singleton in Hc as ->.
  - now apply list_elem_of_singleton in Hc as ->.
Qed.

(** The calls of the model's turn are those of a turn: the target is the one
    of the first member, the sets are walked in the order of their
    elements. *)
Lemma reconcile_calls_turn (w : World) (members : list DeployResult.t) :
  members <> [] ->
  turn_of w members (reconcile_calls (pipelines_at w (bucket_target members)) members).
Proof.
  destruct members as [| first rest]; [congruence | intros _].
  exists first, (stale_names (pipelines_at w (DeployResult.target first)) (first :: rest)),
    (created_names (first :: rest)).
  split; [now left |]. split; [reflexivity |]. split; reflexivity.
Qed.

Lemma replication_calls_run (results : list DeployResult.t) (w : World) :
  run_of results w (replication_calls results w).
Proof.
  unfold run_of, replication_calls.
  pose proof (concourse_target_results_grouped results) as (_ & Hmembers & _).
  assert (Hne : forall bucket, bucket ∈ concourse_target_results results ->
                               snd bucket <> []).
  { intros [k ms] Hin. now destruct (Hmembers k ms Hin). }
  clear Hmembers. induction (concourse_target_results results) as [| bucket buckets IH].
  - exists []. split; [constructor | reflexivity].
  - destruct IH as (turns & Hturns & Hcalls).
    { intros b Hb. apply Hne. now right. }
    exists (reconcile_calls (pipelines_at w (bucket_target (snd bucket))) (snd bucket)
            :: turns).
    split.
    + constructor; [| exact Hturns]. apply reconcile_calls_turn, Hne. now left.
    + cbn [flat_map concat]. now rewrite Hcalls.
Qed.

(** X17: up to the order in which a turn removes the stale pipelines and
    the order in which it initialises the created ones (and the member of
    the bucket that gives the target), the calls [process_results] makes are
    a prefix of the calls of a run (bucket after bucket: the client, the
    listing, the removals, the initialisation of the created pipelines, the
    listing, the reordering with the sorted names), and all of them when it
    returns. *)
Theorem process_results_call_trace (results : list DeployResult.t) (w : World) :
  (exists calls,
     run_of results w calls /\
     snd (process_results results w) `prefix_of` calls) /\
  (forall b, fst (fst (process_results results w)) = Ok b ->
     run_of results w (snd (process_results results w))).
Proof.
  destruct (process_results results w) as [[r w'] l] eqn:Hrun. cbn [fst snd].
  apply process_results_log in Hrun as (Hpre & Hok).
  split.
  - exists (replication_calls results w). split; [apply replication_calls_run | exact Hpre].
  - intros b Hr. destruct (Hok b Hr) as [-> _]. apply replication_calls_run.
Qed.

(** X18: when [process_results] returns, the target of every bucket lists
    exactly the pipelines it listed before that a result of the bucket
    names, in sorted order (by code points). *)
Theorem reconciled_targets_list_the_kept_names (results : list DeployResult.t) w b w' l :
  process_results results w = (Ok b, w', l) ->
  forall key first rest,
    (key, first :: rest) ∈ concourse_target_results results ->
    let target := DeployResult.target first in
    pipelines_at w' target =
      sort_strings (kept_names (pipelines_at w target) (first :: rest)) /\
    Sorted (fun a b => String.leb a b = true) (pipelines_at w' target) /\
    forall p, p ∈ pipelines_at w' target <->
              p ∈ pipelines_at w target /\ p ∈ map DeployResult.name (first :: rest).
Proof.
  intros Hrun key first rest Hbucket target.
  apply process_results_log in Hrun as (_ & Hok).
  destruct (Hok b eq_refl) as [_ Hinv].
  specialize (Hinv key (first :: rest) Hbucket). cbn [bucket_target] in Hinv.
  fold target in Hinv. rewrite Hinv.
  split; [reflexivity |]. split; [apply sort_strings_sorted |].
  intros p. rewrite sort_strings_elem. unfold kept_names.
  rewrite list_elem_of_filter. tauto.
Qed.

(** X19: a target that no result of the run routes to is left alone,
    however the run ends: no call is made at it and its pipelines stay as
    they are. *)
Theorem targets_without_results_are_left_alone (results : list DeployResult.t)
    (w : World) (t : Target) :
  (forall r, r ∈ results -> DeployResult.target r ≠ t) ->
  (forall c, c ∈ snd (process_results results w) -> call_target c ≠ t) /\
  pipelines_at (snd (fst (process_results results w))) t = pipelines_at w t.
Proof.
  intros Hnone.
  destruct (process_results results w) as [[r w'] l] eqn:Hrun. cbn [fst snd].
  pose proof (concourse_target_results_grouped results) as Hg.
  pose proof (grouped_targets_NoDup _ _ Hg) as Hnd.
  destruct Hg as (_ & Hmembers & _).
  assert (Hbuckets : forall k ms,
             (k, ms) ∈ concourse_target_results results -> bucket_target ms ≠ t).
  { intros k ms Hin. destruct (Hmembers k ms Hin) as [Hne Hms].
    destruct ms as [| first rest]; [contradiction |]. cbn.
    apply Hnone. apply (Hms first). left. }
  split.
  - apply process_results_log in Hrun as (Hpre & _).
    intros c Hc. apply (elem_of_prefix _ _ _ Hc) in Hpre.
    apply replication_calls_target in Hpre as (k & ms & Hin & -> & _).
    now apply (Hbuckets k).
  - apply process_results_inv in Hrun as (r1 & Hsweep & _).
    apply reconcile_all_spec in Hsweep as (_ & _ & Hframe);
      [| intros k ms Hin; now destruct (Hmembers k ms Hin) | exact Hnd].
    now apply Hframe.
Qed.

(** X20: the pipelines unpaused by [process_results] at the target of a
    bucket are those a result of the bucket reports as created, and the
    resource checks triggered there are those of the webhook resources of
    such a pipeline; all of them when the run returns. *)
Theorem created_pipelines_are_initialised (results : list DeployResult.t) (w : World) :
  forall key first rest,
    (key, first :: rest) ∈ concourse_target_results results ->
    let target := DeployResult.target first in
    let l := snd (process_results results w) in
    let created p :=
      exists r, r ∈ first :: rest /\
                DeployResult.has r DeployStatus.CREATED = true /\ DeployResult.name r = p in
    let webhook p n :=
      exists resource, resource ∈ pipeline_resources_of target p /\
                       has_webhook_token resource = true /\ resource_name resource = n in
    (forall p, UnpausePipeline target p ∈ l -> created p) /\
    (forall p n, TriggerResourceCheck target p n ∈ l -> created p /\ webhook p n) /\
    (forall b, fst (fst (process_results results w)) = Ok b ->
       (forall p, created p -> UnpausePipeline target p ∈ l) /\
       (forall p n, created p -> webhook p n -> TriggerResourceCheck target p n ∈ l)).
Proof.
  intros key first rest Hbucket target l created webhook. subst l.
  destruct (process_results results w) as [[r w'] l] eqn:Hrun. cbn [fst snd].
  apply process_results_log in Hrun as (Hpre & Hok).
  pose proof (concourse_target_results_grouped results) as Hg.
  pose proof (grouped_targets_NoDup _ _ Hg) as Hnd.
  assert (Hmine : forall c, call_target c = target -> c ∈ replication_calls results w ->
                    c ∈ reconcile_calls (pipelines_at w target) (first :: rest)).
  { intros c Ht Hc. apply replication_calls_target in Hc as (k & ms & Hin & Hct & Hc).
    assert (Heq : (k, ms) = (key, first :: rest)).
    { apply (NoDup_map_inj (fun b => bucket_target (snd b))
               (concourse_target_results results)); auto.
      cbn [snd bucket_target]. fold target. congruence. }
    injection Heq as -> ->. exact Hc. }
  assert (Hcreated : forall p,
             p ∈ map DeployResult.name
                   (List.filter (fun r => DeployResult.has r DeployStatus.CREATED)
                                (first :: rest)) <-> created p).
  { intros p. rewrite list_elem_of_fmap. split.
    - intros (x & -> & Hx). apply list_elem_of_In, filter_In in Hx as [Hx Hc].
      exists x. split; [now apply list_elem_of_In | auto].
    - intros (x & Hx & Hc & <-). exists x. split; [reflexivity |].
      apply list_elem_of_In, filter_In. split; [now apply list_elem_of_In | exact Hc]. }
  assert (Hwebhook : forall p n,
             TriggerResourceCheck target p n
               ∈ map (fun resource => TriggerResourceCheck target p (resource_name resource))
                   (List.filter has_webhook_token (pipeline_resources_of target p))
             <-> webhook p n).
  { intros p n. rewrite list_elem_of_fmap. split.
    - intros (x & [= ->] & Hx). apply list_elem_of_In, filter_In in Hx as [Hx Hc].
      exists x. split; [now apply list_elem_of_In | auto].
    - intros (x & Hx & Hc & <-). exists x. split; [reflexivity |].
      apply list_elem_of_In, filter_In. split; [now apply list_elem_of_In | exact Hc]. }
  assert (Hinit : forall c, c ∈ initialise_calls target (first :: rest) <->
                    exists p, created p /\
                      (c = UnpausePipeline target p \/ c = PipelineResources target p \/
                       c ∈ map (fun resource =>
                                  TriggerResourceCheck target p (resource_name resource))
                             (List.filter has_webhook_token
                                (pipeline_resources_of target p)))).
  { intros c. unfold initialise_calls. rewrite list_elem_of_In, in_flat_map. split.
    - intros (p & Hp & Hc). exists p. split; [apply Hcreated; now apply list_elem_of_In |].
      apply list_elem_of_In in Hc.
      apply elem_of_cons in Hc as [-> | Hc]; [auto |].
      apply elem_of_cons in Hc as [-> | Hc]; auto.
    - intros (p & Hp & Hc). exists p. split; [apply list_elem_of_In; now apply Hcreated |].
      apply list_elem_of_In.
      destruct Hc as [-> | [-> | Hc]]; [left | right; left | now do 2 right]. }
  assert (Hturn : forall c, (forall t', c ≠ FromCfg t') -> (forall t', c ≠ Pipelines t') ->
                    (forall t' p, c ≠ DeletePipeline t' p) ->
                    (forall t' ns, c ≠ OrderPipelines t' ns) ->
                    c ∈ reconcile_calls (pipelines_at w target) (first :: rest) <->
                    c ∈ initialise_calls target (first :: rest)).
  { intros c H1 H2 H3 H4. unfold reconcile_calls. cbn [bucket_target]. fold target. split.
    - intros Hc. repeat (apply elem_of_app in Hc as [Hc | Hc]).
      + apply list_elem_of_singleton in Hc. now destruct (H1 target).
      + apply list_elem_of_singleton in Hc. now destruct (H2 target).
      + apply list_elem_of_fmap in Hc as (p & Hc & _). now destruct (H3 target p).
      + exact Hc.
      + apply list_elem_of_singleton in Hc. now destruct (H2 target).
      + apply list_elem_of_singleton in Hc. destruct (H4 _ _ Hc).
    - intros Hc. apply elem_of_app. right. apply elem_of_app. right.
      apply elem_of_app. right. apply elem_of_app. now left. }
  assert (Hunpause : forall p,
             UnpausePipeline target p
               ∈ reconcile_calls (pipelines_at w target) (first :: rest) <-> created p).
  { intros p. rewrite Hturn by discriminate. rewrite Hinit. split.
    - intros (q & Hq & [[= <-] | [[=] | Hc]]); [exact Hq |].
      apply list_elem_of_fmap in Hc as (x & [=] & _).
    - intros Hp. exists p. auto. }
  assert (Htrigger : forall p n,
             TriggerResourceCheck target p n
               ∈ reconcile_calls (pipelines_at w target) (first :: rest) <->
             created p /\ webhook p n).
  { intros p n. rewrite Hturn by discriminate. rewrite Hinit. split.
    - intros (q & Hq & [[=] | [[=] | Hc]]).
      assert (q = p) as ->.
      { apply list_elem_of_fmap in Hc as (x & [= <- _] & _). reflexivity. }
      split; [exact Hq | now apply Hwebhook].
    - intros [Hp Hn]. exists p. split; [exact Hp |]. do 2 right. now apply Hwebhook. }
  split; [| split].
  - intros p Hin. apply Hunpause, Hmine; [reflexivity |].
    exact (elem_of_prefix _ _ _ Hin Hpre).
  - intros p n Hin. apply Htrigger, Hmine; [reflexivity |].
    exact (elem_of_prefix _ _ _ Hin Hpre).
  - intros b Hr. destruct (Hok b Hr) as [-> _].
    assert (Hsub : forall c, c ∈ reconcile_calls (pipelines_at w target) (first :: rest) ->
                     c ∈ replication_calls results w).
    { intros c Hc. unfold replication_calls. apply list_elem_of_In, in_flat_map.
      exists (key, first :: rest). split; [now apply list_elem_of_In |].
      now apply list_elem_of_In. }
    split.
    + intros p Hp. now apply Hsub, Hunpause.
    + intros p n Hp Hn. now apply Hsub, Htrigger.
Qed.

End ProcessorTraceFacts.

(** ** The scenarios *)

Section ScenarioFacts.
Import Scenario DefinitionDescriptor.
#[local] Existing Instances builtins util file_system templating concourse_client notification.

(** C1 on the repository whose branch [master] holds a definitions file that
    does not parse and whose branch [release] defines [p1]: both branches
    are selected and [release] alone yields the descriptor of [p1], yet the
    scan of the repository yields the error descriptor of [master] and
    nothing else. *)
Theorem scan_stops_at_the_unparsable_branch :
  exists master release invalid p1,
    GithubDefinitionEnumeratorBase._determine_repository_branches broken_master
      = ([master; release], None) /\
    fst master = "master" /\ fst release = "release" /\
    GithubDefinitionEnumeratorBase.scan_branches enumerator broken_master github_com "org"
      [release] None = ([p1], None) /\
    pipeline_name p1 = "p1" /\ branch (main_repo p1) = "release" /\ exception p1 = None /\
    GithubDefinitionEnumeratorBase._scan_repository_for_definitions enumerator broken_master
      github_com "org" = ([invalid], None) /\
    pipeline_name invalid = "<invalid YAML>" /\ branch (main_repo invalid) = "master" /\
    exception invalid = Some (PyException "ParserError" "while parsing a flow mapping").
Proof.
  do 4 eexists. repeat split; vm_compute; reflexivity.
Qed.

(** C2 on three entries matching [master] with the indices 1, 2 and 0: the
    entry with index 0 is merged last, so its template wins. *)
Theorem index_zero_is_merged_last :
  (matching <- BranchCfg.matching_entries index_zero_cfg "master" ;;
   ordered <- BranchCfg.merge_order matching ;;
   Ok (map BranchCfgEntry.name ordered)) = Ok ["one"; "two"; "zero"] /\
  (merged <- BranchCfg.cfg_entry_for_branch index_zero_cfg "master" ;;
   match merged with
   | Some entry => BranchCfgEntry.override_definitions entry
   | None => Ok YNone
   end) = Ok (YDict [("p1", YDict [("template", YStr "zero")])]).
Proof. split; vm_compute; reflexivity. Qed.

Lemma merge_order_ascends_witness :
  (forall e, In e entries_2_none_1 -> well_indexed e) /\
  exists ordered,
    BranchCfg.merge_order entries_2_none_1 = Ok ordered /\
    Permutation ordered entries_2_none_1 /\
    StronglySorted Z.le (map index_of (List.filter has_index ordered)) /\
    List.filter (fun e => negb (has_index e)) ordered
    = List.filter (fun e => negb (has_index e)) entries_2_none_1.
Proof.
  assert (Hwf : forall e, In e entries_2_none_1 -> well_indexed e).
  { intros e [<- | [<- | [<- | []]]].
    - right. exists 2. split; [discriminate | reflexivity].
    - left. reflexivity.
    - right. exists 1. split; [discriminate | reflexivity]. }
  split; [exact Hwf |].
  exact (merge_order_ascends entries_2_none_1 Hwf).
Defined.

(** On these entries the order is [plain], [one], [two]: the entry without
    index sorts by its position 1. *)
Example merge_order_2_none_1 :
  (ordered <- BranchCfg.merge_order entries_2_none_1 ;;
   Ok (map BranchCfgEntry.name ordered)) = Ok ["plain"; "one"; "two"].
Proof. reflexivity. Qed.

Lemma cfg_entry_is_none_iff_no_regex_matches_witness :
  BranchCfg.cfg_entries index_zero_cfg
  = Ok [{| BranchCfgEntry.name := "one"; BranchCfgEntry.raw := entry_indexed 1 "one" |};
        {| BranchCfgEntry.name := "two"; BranchCfgEntry.raw := entry_indexed 2 "two" |};
        {| BranchCfgEntry.name := "zero"; BranchCfgEntry.raw := entry_indexed 0 "zero" |}] /\
  BranchCfg.cfg_entry_for_branch index_zero_cfg "develop" = Ok None /\
  re_fullmatch "master" "develop" = Ok false.
Proof.
  split; [reflexivity |].
  pose proof (cfg_entry_is_none_iff_no_regex_matches index_zero_cfg "develop" _ eq_refl)
    as [Hnone _].
  split; [reflexivity |].
  destruct (Hnone eq_refl (BranchCfgEntry.Build_t "one" (entry_indexed 1 "one"))
              (or_introl eq_refl))
    as (bs & patterns & Hbs & Hpatterns & Hall).
  injection Hbs as <-. injection Hpatterns as <-.
  destruct (Hall (YStr "master") (or_introl eq_refl)) as (s & [= <-] & Hs).
  exact Hs.
Defined.

Lemma process_results_returns_witness :
  (forall c, api_fault c = None) /\
  (forall r e, _notify_broken_definition_owners r = Raise e -> is_Exception e = true) /\
  exists b w' l,
    ReplicationResultProcessor.process_results results_ab world_abc = (Ok b, w', l).
Proof.
  assert (Hno : forall c, api_fault c = None) by reflexivity.
  assert (Hexc : forall r e,
             _notify_broken_definition_owners r = Raise e -> is_Exception e = true)
    by discriminate.
  split; [exact Hno |]. split; [exact Hexc |].
  exact (process_results_returns results_ab Hno Hexc world_abc).
Defined.

(** The deep-merge on the layers of section 8:
    [{x:{a:1}}], [{x:{b:2}}], [{x:{a:3}}] give [{x:{a:3,b:2}}]. *)
Example deep_merge_layers :
  foldM merge_dicts (YDict [("x", YDict [("a", YInt 1)])])
    [YDict [("x", YDict [("b", YInt 2)])]; YDict [("x", YDict [("a", YInt 3)])]]
  = Ok (YDict [("x", YDict [("a", YInt 3); ("b", YInt 2)])]).
Proof. reflexivity. Qed.

(** After preprocessing, [p1] on [main] is named [p1-main] and has two
    override layers. *)
Example preprocessed_p1 :
  DefinitionDescriptorPreprocessor.process_definition_descriptor p1_jobs
    = Ok (preprocessed p1_jobs) /\
  DefinitionDescriptorPreprocessor.process_definition_descriptor p1_both
    = Ok (preprocessed p1_both) /\
  pipeline_name (preprocessed p1_jobs) = "p1-main" /\
  length (layers (override_definitions (preprocessed p1_jobs))) = 2%nat.
Proof. repeat split; reflexivity. Qed.

(** Counterexample to C3: for [p1] the name handed to the template is
    [p1-main-main], and the rendered descriptor is still named [p1-main]. *)
Lemma render_keeps_the_descriptor_name :
  ~ attaches_derived_name renderer (preprocessed p1_jobs).
Proof.
  intros Hclaim.
  destruct (Hclaim _ ltac:(vm_compute; reflexivity) eq_refl)
    as (locals & text & Hlocals & _ & Hname).
  vm_compute in Hlocals. injection Hlocals as <-.
  vm_compute in Hname. discriminate.
Qed.

(** The inventory [{A, B, C}] and a run that carries [A] and [B]: exactly [C]
    is deleted, then the remaining pipelines are put in order. *)
Example inventory_abc_run_ab :
  snd (ReplicationResultProcessor.process_results results_ab world_abc)
  = [FromCfg ci_team; Pipelines ci_team; DeletePipeline ci_team "C";
     Pipelines ci_team; OrderPipelines ci_team ["A"; "B"]].
Proof. vm_compute. reflexivity. Qed.

(** With the variants [bare], [first] (branch [rel-1]) and [second] (branch
    [rel-2]) the template sees the name [p3-main-rel-1] of the first variant
    with a main repository; the rendered descriptor is still named
    [p3-main]. *)
Lemma render_attaches_text_only_witness :
  exists res,
    @Renderer.render builtins util file_system templating_by_variant renderer
      (preprocessed p3_variants) = Ok res /\
    RenderResult.render_status res = RenderStatus.SUCCEEDED /\
    pipeline (RenderResult.definition_descriptor res) = Some "pipeline: p3-main-rel-1" /\
    pipeline_name (RenderResult.definition_descriptor res) = "p3-main".
Proof.
  eexists.
  assert (Hrender : @Renderer.render builtins util file_system templating_by_variant
                      renderer (preprocessed p3_variants)
                    = Ok _) by (vm_compute; reflexivity).
  split; [exact Hrender |]. split; [reflexivity |].
  destruct (@render_attaches_text_only builtins util file_system templating_by_variant
              renderer _ _ Hrender eq_refl)
    as (locals & lk & text & _ & _ & _ & _ & _ & _ & _ & Hname).
  split; [reflexivity | exact Hname].
Defined.

(** Without a variant that has a main repository the template sees the
    bare name of the descriptor. *)
Example render_hands_over_the_bare_name :
  option_map (fun res => pipeline (RenderResult.definition_descriptor res))
    match @Renderer.render builtins util file_system templating_by_variant renderer
            (preprocessed p1_jobs) with
    | Ok res => Some res
    | Raise _ => None
    end
  = Some (Some "pipeline: p1-main").
Proof. vm_compute. reflexivity. Qed.

Lemma process_results_true_iff_witness :
  exists w' l,
    ReplicationResultProcessor.process_results results_ab world_abc = (Ok true, w', l) /\
    (true = true <->
     (forall r, r ∈ results_ab -> DeployResult.has r DeployStatus.SUCCEEDED = true) \/
     (forall r, r ∈ results_ab -> DeployResult.has r DeployStatus.SUCCEEDED = false ->
        _notify_broken_definition_owners r = Ok tt)).
Proof.
  do 2 eexists.
  assert (Hrun : ReplicationResultProcessor.process_results results_ab world_abc
                 = (Ok true, _, _)) by (vm_compute; reflexivity).
  split; [exact Hrun |].
  exact (process_results_true_iff results_ab world_abc true _ _ Hrun).
Defined.


Lemma carried_names_are_never_deleted_witness :
  result "B" DeployStatus.FAILED ∈ results_ab /\
  DeletePipeline ci_team "B"
    ∉ snd (ReplicationResultProcessor.process_results results_ab world_abc).
Proof.
  assert (Hin : result "B" DeployStatus.FAILED ∈ results_ab) by (right; left).
  split; [exact Hin |].
  exact (proj2 (carried_names_are_never_deleted results_ab world_abc _ Hin)).
Defined.

Lemma skipped_without_deploying_witness :
  PipelineReplicator._process_definition_descriptor replicator p1_invalid empty_world
  = (Ok {| DeployResult.definition_descriptor := p1_invalid;
           DeployResult.deploy_status := DeployStatus.SKIPPED;
           DeployResult.error_details :=
             Some (ExceptionObject
                     (PyException "ParserError" "while parsing a flow mapping")) |},
     empty_world, [], []) /\
  exists rendered deploy_result stages,
    PipelineReplicator.definition_renderer replicator
      (preprocessed p1_both) empty_world
    = (Ok rendered, empty_world, []) /\
    RenderResult.render_status rendered = RenderStatus.FAILED /\
    PipelineReplicator._process_definition_descriptor replicator p1_both empty_world
    = (Ok deploy_result, empty_world, [] ++ [], stages) /\
    DeployResult.deploy_status deploy_result = DeployStatus.SKIPPED /\
    DeployResult.error_details deploy_result =
      option_map Traceback (RenderResult.error_details rendered) /\
    PipelineReplicator.Deployer ∉ stages.
Proof.
  split.
  - exact (proj1 (skipped_without_deploying replicator p1_invalid empty_world) _ eq_refl).
  - eexists.
    assert (Hrender : PipelineReplicator.definition_renderer replicator
              (preprocessed p1_both)
              empty_world = (Ok _, empty_world, [])) by (vm_compute; reflexivity).
    destruct (proj2 (skipped_without_deploying replicator p1_both empty_world) eq_refl
                _ _ _ _ _ _ eq_refl Hrender eq_refl)
      as (deploy_result & stages & Hrun & Hstatus & Hdetails & Hstages).
    exists deploy_result, stages. auto 10.
Defined.

Lemma render_fails_on_jobs_and_variants_witness :
  let d := preprocessed p1_both in
  let eff := [("jobs", YDict [("j1", YDict [])]);
              ("variants", YDict [("v1", YDict [])]);
              ("base_definition", YDict [("repo", main_repo_dict main_repo_main)])] in
  Renderer.effective_definition d = Ok (YDict eff) /\
  dict_get eff "jobs" = Some (YDict [("j1", YDict [])]) /\
  dict_get eff "variants" = Some (YDict [("v1", YDict [])]) /\
  TemplateRetriever.template_contents (Renderer.template_retriever renderer)
    (YStr "default") = Ok "pipeline: " /\
  Renderer.render renderer d =
    Ok {| RenderResult.definition_descriptor := d;
          RenderResult.render_status := RenderStatus.FAILED;
          RenderResult.error_details :=
            Some (format_exc
                    (PyException "RuntimeError"
                       ("Both 'jobs' and 'variants' are defined in pipeline '"
                        +:+ pipeline_name d +:+ "'"))) |}.
Proof.
  intros d eff.
  assert (Heff : Renderer.effective_definition d = Ok (YDict eff)) by reflexivity.
  assert (Hcontents : TemplateRetriever.template_contents
                        (Renderer.template_retriever renderer) (YStr "default")
                      = Ok "pipeline: ") by reflexivity.
  repeat (split; [reflexivity |]).
  exact (proj2 (proj2 (proj2 (render_fails_on_jobs_and_variants renderer d eff _ _ _ _
                                Heff eq_refl eq_refl))) _ _ eq_refl Hcontents).
Defined.

(** Counterexample to C7: the merged definition of [p1] holds both [jobs]
    and [variants], the template root holds no template [default], and
    [util.fail] aborts the run: [render] returns no result, the error
    escapes it. *)
Lemma render_raises_on_missing_template :
  let d := preprocessed p1_both in
  let eff := [("jobs", YDict [("j1", YDict [])]);
              ("variants", YDict [("v1", YDict [])]);
              ("base_definition", YDict [("repo", main_repo_dict main_repo_main)])] in
  @Renderer.effective_definition util_fatal d = Ok (YDict eff) /\
  dict_get eff "jobs" = Some (YDict [("j1", YDict [])]) /\
  dict_get eff "variants" = Some (YDict [("v1", YDict [])]) /\
  @Renderer.render builtins util_fatal file_system templating
    renderer_without_templates d
  = Raise (PyBaseException "SystemExit"
             "could not find template default, tried in /elsewhere").
Proof. repeat split; vm_compute; reflexivity. Qed.

Lemma preprocessor_renames_and_injects_witness :
  override_definitions p1_jobs = OList [YDict []] /\
  exists d',
    DefinitionDescriptorPreprocessor.process_definition_descriptor p1_jobs = Ok d' /\
    pipeline_name d' = "p1-main" /\
    override_definitions d' =
      OList [YDict [];
             YDict [("base_definition",
                     YDict [("repo", YDict [("path", YStr "org/repo");
                                            ("branch", YStr "main");
                                            ("hostname", YStr "github.com")])])]] /\
    pipeline_definition d' = pipeline_definition p1_jobs.
Proof.
  split; [reflexivity |].
  destruct (preprocessor_renames_and_injects p1_jobs [YDict []] eq_refl)
    as (d' & Hrun & Hname & Hlayers & _ & Hdefinition & _).
  exists d'. repeat split; assumption.
Defined.

(** Counterexample to C9: the error descriptor of a definitions file that
    does not parse carries the empty tuple as its overrides; the
    preprocessor renames it and then raises at [append], returning no
    descriptor. *)
Lemma preprocessor_raises_on_error_descriptor :
  exists invalid,
    GithubDefinitionEnumeratorBase._scan_repository_for_definitions enumerator
      broken_master github_com "org" = ([invalid], None) /\
    exception invalid = Some (PyException "ParserError" "while parsing a flow mapping") /\
    override_definitions invalid = OTuple [] /\
    DefinitionDescriptorPreprocessor.process_definition_descriptor invalid
    = Raise (AttributeError "append").
Proof. eexists. repeat split; vm_compute; reflexivity. Qed.

Lemma deploy_status_by_response_witness :
  pipeline p1_rendered = Some "pipeline: p1-main-main" /\
  exists w1,
    ConcourseDeployer.deploy deployer p1_rendered empty_world =
      (Ok {| DeployResult.definition_descriptor := p1_rendered;
             DeployResult.deploy_status :=
               Z.lor DeployStatus.SUCCEEDED DeployStatus.CREATED;
             DeployResult.error_details := None |},
       w1,
       ConcourseDeployer.attempted_calls deployer p1_rendered "pipeline: p1-main-main").
Proof.
  split; [reflexivity |]. eexists.
  assert (Hset : client.set_pipeline ci_team "p1-main" "pipeline: p1-main-main" empty_world
                 = (Ok (Some CREATED), _, _)) by (vm_compute; reflexivity).
  exact (proj1 (proj1 (deploy_status_by_response deployer p1_rendered
                         "pipeline: p1-main-main" empty_world eq_refl)
                  CREATED _ _ eq_refl Hset)).
Defined.

Lemma wrap_yields_one_descriptor_per_definition_witness :
  (forall item : string * yaml,
     In item [("p1", YDict [])] -> fst item ≠ "" /\ snd item ≠ YNone) /\
  DefinitionEnumerator._wrap_into_descriptors enumerator "org/repo" "github.com" "main"
    (YDict [("p1", YDict [])]) (YDict [])
  = (map (wrapped enumerator "org/repo" "github.com" "main" []) [("p1", YDict [])], None).
Proof.
  assert (Hwf : forall item : string * yaml,
             In item [("p1", YDict [])] -> fst item ≠ "" /\ snd item ≠ YNone).
  { intros item [<- | []]. cbn. split; discriminate. }
  split; [exact Hwf |].
  exact (proj1 (wrap_yields_one_descriptor_per_definition enumerator "org/repo"
                  "github.com" "main" _ [] Hwf)).
Defined.

Lemma determined_branches_are_configured_witness :
  file_contents broken_master "branch.cfg" "refs/meta/ci" = Ok branch_cfg_text /\
  yaml_load branch_cfg_text = Ok branch_cfg_doc /\
  sublist
    (map fst (fst (GithubDefinitionEnumeratorBase._determine_repository_branches
                     broken_master)))
    (repo_branches broken_master).
Proof.
  split; [reflexivity |]. split; [reflexivity |].
  exact (proj1 (determined_branches_are_configured broken_master branch_cfg_text
                  branch_cfg_doc eq_refl eq_refl)).
Defined.

Lemma scanned_descriptors_belong_to_the_repository_witness :
  exists d,
    In d (fst (GithubDefinitionEnumeratorBase._scan_repository_for_definitions
                 enumerator plain_repo github_com "org")) /\
    pipeline_name d = "p1" /\
    scanned enumerator plain_repo github_com "org" d /\
    In (branch (main_repo d))
       (map fst (fst (GithubDefinitionEnumeratorBase._determine_repository_branches
                        plain_repo))).
Proof.
  eexists.
  assert (Hin : In _ (fst (GithubDefinitionEnumeratorBase._scan_repository_for_definitions
                             enumerator plain_repo github_com "org")))
    by (vm_compute; left; reflexivity).
  split; [exact Hin |]. split; [reflexivity |].
  exact (scanned_descriptors_belong_to_the_repository enumerator plain_repo github_com
           "org" _ Hin).
Defined.

Lemma scan_of_branches_without_definitions_witness :
  (forall pair,
     In pair (fst (GithubDefinitionEnumeratorBase._determine_repository_branches bare_repo)) ->
     exists e,
       file_contents bare_repo ".ci/pipeline_definitions" (fst pair) = Raise e /\
       is_instance NotFoundError e = true) /\
  GithubDefinitionEnumeratorBase._scan_repository_for_definitions enumerator bare_repo
    github_com "org"
  = ([], snd (GithubDefinitionEnumeratorBase._determine_repository_branches bare_repo)).
Proof.
  assert (Habsent : forall pair,
             In pair (fst (GithubDefinitionEnumeratorBase._determine_repository_branches
                             bare_repo)) ->
             exists e,
               file_contents bare_repo ".ci/pipeline_definitions" (fst pair) = Raise e /\
               is_instance NotFoundError e = true).
  { intros pair _. eexists. split; reflexivity. }
  split; [exact Habsent |].
  exact (scan_of_branches_without_definitions enumerator bare_repo github_com "org" Habsent).
Defined.

Lemma scan_without_branch_cfg_witness :
  file_contents plain_repo "branch.cfg" "refs/meta/ci"
    = Raise (PyException NotFoundError "branch.cfg") /\
  default_branch plain_repo = Ok "master" /\
  file_contents plain_repo ".ci/pipeline_definitions" "master" = Ok p1_text /\
  GithubDefinitionEnumeratorBase._determine_repository_branches plain_repo
    = ([("master", None)], None) /\
  GithubDefinitionEnumeratorBase._scan_repository_for_definitions enumerator plain_repo
    github_com "org"
  = DefinitionEnumerator._wrap_into_descriptors enumerator ("org" +:+ "/" +:+ "repo")
      (urlparse_hostname (http_url github_com)) "master" (YDict [("p1", YDict [])])
      (YDict []).
Proof.
  repeat (split; [reflexivity |]).
  exact (proj2 (scan_without_branch_cfg enumerator plain_repo github_com "org"
                  (PyException NotFoundError "branch.cfg") "master" p1_text
                  (YDict [("p1", YDict [])]) (YDict [("p1", YDict [])])
                  eq_refl eq_refl (or_introl eq_refl) eq_refl eq_refl eq_refl)).
Defined.

Lemma scan_raises_on_unloadable_branch_cfg_witness :
  file_contents broken_cfg_repo "branch.cfg" "refs/meta/ci" = Ok broken_text /\
  yaml_load broken_text = Raise (PyException "ParserError" "while parsing a flow mapping") /\
  GithubDefinitionEnumeratorBase._scan_repository_for_definitions enumerator broken_cfg_repo
    github_com "org"
  = ([], Some (PyException "ParserError" "while parsing a flow mapping")).
Proof.
  split; [reflexivity |]. split; [reflexivity |].
  exact (scan_raises_on_unloadable_branch_cfg enumerator broken_cfg_repo github_com "org"
           broken_text _ eq_refl eq_refl eq_refl).
Defined.

Lemma cfg_entry_is_none_iff_nothing_matches_witness :
  exists entries,
    BranchCfg.cfg_entries index_zero_cfg = Ok entries /\
    (BranchCfg.cfg_entry_for_branch index_zero_cfg "develop" = Ok None <->
     forall entry, In entry entries ->
       BranchCfgEntry.branch_matches entry "develop" = Ok false).
Proof.
  eexists.
  assert (Hentries : BranchCfg.cfg_entries index_zero_cfg = Ok _) by reflexivity.
  split; [exact Hentries |].
  exact (cfg_entry_is_none_iff_nothing_matches index_zero_cfg "develop" _ Hentries).
Defined.

Lemma render_without_include_dir_fails_witness :
  exists res,
    Renderer.has_include_dir renderer_without_include = false /\
    Renderer.render renderer_without_include p1_jobs = Ok res /\
    RenderResult.render_status res = RenderStatus.FAILED /\
    RenderResult.definition_descriptor res = p1_jobs /\
    exists details, RenderResult.error_details res = Some details.
Proof.
  eexists.
  assert (Hrender : Renderer.render renderer_without_include p1_jobs = Ok _)
    by (vm_compute; reflexivity).
  split; [reflexivity |]. split; [exact Hrender |].
  exact (render_without_include_dir_fails renderer_without_include p1_jobs _
           eq_refl Hrender).
Defined.

Lemma reconciled_targets_list_the_kept_names_witness :
  exists w' l,
    ReplicationResultProcessor.process_results results_ab world_abc = (Ok true, w', l) /\
    ("ci:team", results_ab)
      ∈ ReplicationResultProcessor.concourse_target_results results_ab /\
    pipelines_at w' ci_team = sort_strings (kept_names ["A"; "B"; "C"] results_ab) /\
    Sorted (fun a b => String.leb a b = true) (pipelines_at w' ci_team) /\
    forall p, p ∈ pipelines_at w' ci_team <->
              p ∈ pipelines_at world_abc ci_team /\ p ∈ map DeployResult.name results_ab.
Proof.
  do 2 eexists.
  assert (Hrun : ReplicationResultProcessor.process_results results_ab world_abc
                 = (Ok true, _, _)) by (vm_compute; reflexivity).
  assert (Hbucket : ("ci:team", results_ab)
                      ∈ ReplicationResultProcessor.concourse_target_results results_ab)
    by (vm_compute; left).
  split; [exact Hrun |]. split; [exact Hbucket |].
  exact (reconciled_targets_list_the_kept_names results_ab world_abc true _ _ Hrun
           "ci:team" _ _ Hbucket).
Defined.

Lemma targets_without_results_are_left_alone_witness :
  (forall r, r ∈ results_ab -> DeployResult.target r ≠ other_team) /\
  (forall c, c ∈ snd (ReplicationResultProcessor.process_results results_ab world_abc) ->
     call_target c ≠ other_team) /\
  pipelines_at (snd (fst (ReplicationResultProcessor.process_results results_ab world_abc)))
    other_team
  = pipelines_at world_abc other_team.
Proof.
  assert (Hnone : forall r, r ∈ results_ab -> DeployResult.target r ≠ other_team).
  { intros r Hr.
    apply elem_of_cons in Hr as [-> | Hr]; [discriminate |].
    apply elem_of_cons in Hr as [-> | Hr]; [discriminate |].
    now apply elem_of_nil in Hr. }
  split; [exact Hnone |].
  exact (targets_without_results_are_left_alone results_ab world_abc other_team Hnone).
Defined.

Lemma created_pipelines_are_initialised_witness :
  ("ci:team", results_nb)
    ∈ ReplicationResultProcessor.concourse_target_results results_nb /\
  (forall p,
     UnpausePipeline ci_team p
       ∈ snd (@ReplicationResultProcessor.process_results webhook_client notification
                results_nb empty_world) ->
     exists r, r ∈ results_nb /\
               DeployResult.has r DeployStatus.CREATED = true /\ DeployResult.name r = p).
Proof.
  assert (Hbucket : ("ci:team", results_nb)
                      ∈ ReplicationResultProcessor.concourse_target_results results_nb)
    by (vm_compute; left).
  split; [exact Hbucket |].
  exact (proj1 (@created_pipelines_are_initialised webhook_client notification
                  results_nb empty_world "ci:team" _ _ Hbucket)).
Defined.

(** With the resources [source] and [image] and the results [N] (created)
    and [B] (failed), [N] alone is unpaused and the check of [source] alone
    is triggered. *)
Example created_n_is_initialised :
  snd (@ReplicationResultProcessor.process_results webhook_client notification
         results_nb empty_world)
  = [FromCfg ci_team; Pipelines ci_team;
     UnpausePipeline ci_team "N"; PipelineResources ci_team "N";
     TriggerResourceCheck ci_team "N" "source";
     Pipelines ci_team; OrderPipelines ci_team []].
Proof. vm_compute. reflexivity. Qed.

Lemma replicated_descriptor_boundary_witness :
  exists res w' l stages,
    PipelineReplicator._process_definition_descriptor replicator p1_jobs empty_world
    = (Ok res, w', l, stages) /\
    DeployResult.target res = ci_team /\
    DeployResult.name res = "p1-main" /\
    forall c, c ∈ l -> call_target c = ci_team.
Proof.
  do 4 eexists.
  assert (Hrun : PipelineReplicator._process_definition_descriptor replicator p1_jobs
                   empty_world = (Ok _, _, _, _)) by (vm_compute; reflexivity).
  destruct (replicated_descriptor_boundary the_cfg_set ["/templates"]
              (Some "/templates/include") true true p1_jobs empty_world _ _ _ _ Hrun)
    as (_ & Hres & Hcalls & _).
  destruct (Hres _ eq_refl) as (Htarget & Hname & _).
  split; [exact Hrun |]. split; [exact Htarget |]. split; [exact Hname | exact Hcalls].
Defined.

Lemma branch_matches_at_the_first_full_match_witness :
  let entry := {| BranchCfgEntry.name := "plain"; BranchCfgEntry.raw := entry_plain |} in
  BranchCfgEntry.branches entry = Ok (YList [YStr "master"]) /\
  (BranchCfgEntry.branch_matches entry "develop" = Ok false <->
   forall q, In q [YStr "master"] ->
     exists s, q = YStr s /\ re_fullmatch s "develop" = Ok false).
Proof.
  intros entry. split; [reflexivity |].
  exact (proj2 (branch_matches_at_the_first_full_match entry [YStr "master"] "develop"
                  eq_refl)).
Defined.

End ScenarioFacts.
